(** * Verification of mcp-as-a-service: framer, supervisor, resolver, validator

    Shallow embedding of the TypeScript sources:
    - [src/unnamed/part_006]   JsonRpcFramer / JsonRpcParser
    - [src/src/mcp-proxy.ts]   MCPProxy (registry, server ids, reaper)
    - [src/src/packages.ts]    detectPackageType, validatePackage, parsePackageName
    - [src/unnamed/part_000]   isRemoteServer, validateArgs (validation.ts)
    - [src/src/mcp-handler.ts] MCPHandler (request routing, initialization)
    - [src/src/process-manager.ts] ProcessManager (start, lookup, cleanup)

    Bytes (Node [Buffer] contents) are [list Z] with values in 0..255.
    JavaScript strings are [list Z] of UTF-16 code units, the unit on which
    [length], [substring], [split] and non-unicode regular expressions work. *)

From Stdlib Require Import String Ascii ZArith Lia List Bool Permutation.
Import ListNotations.
Open Scope Z_scope.

(** ** Shared helpers on byte / code-unit sequences *)
Module Seq.

(** A Rocq string literal as a list of character codes (ASCII only, so the
    same list is its UTF-8 encoding and its UTF-16 code units). *)
Definition js (s : string) : list Z :=
  map (fun a => Z.of_nat (nat_of_ascii a)) (list_ascii_of_string s).

Fixpoint starts_with (p b : list Z) : bool :=
  match p, b with
  | [], _ => true
  | x :: p', y :: b' => (x =? y) && starts_with p' b'
  | _ :: _, [] => false
  end.

(** Substring search anywhere in [b] (a regex without anchors). *)
Fixpoint contains (p b : list Z) : bool :=
  starts_with p b || match b with [] => false | _ :: b' => contains p b' end.

Definition ends_with (p b : list Z) : bool := starts_with (rev p) (rev b).

Lemma starts_with_app : forall p r, starts_with p (p ++ r) = true.
Proof. induction p as [|x p IH]; intros r; simpl; [reflexivity|]. rewrite Z.eqb_refl; apply IH. Qed.

Lemma starts_with_app_l : forall p b r, starts_with p b = true -> starts_with p (b ++ r) = true.
Proof.
  induction p as [|x p IH]; intros [|y b] r H; simpl in *; try discriminate; auto.
  apply andb_true_iff in H as [H1 H2]. rewrite H1, IH; auto.
Qed.

Lemma firstn_app_le : forall {A} n (l1 l2 : list A),
  (n <= length l1)%nat -> firstn n (l1 ++ l2) = firstn n l1.
Proof.
  intros A n l1 l2 H. rewrite firstn_app.
  replace (n - length l1)%nat with 0%nat by lia. simpl. apply app_nil_r.
Qed.

Lemma skipn_app_le : forall {A} n (l1 l2 : list A),
  (n <= length l1)%nat -> skipn n (l1 ++ l2) = skipn n l1 ++ l2.
Proof.
  intros A n l1 l2 H. rewrite skipn_app.
  replace (n - length l1)%nat with 0%nat by lia. reflexivity.
Qed.

Lemma firstn_length_app : forall {A} (l1 l2 : list A), firstn (length l1) (l1 ++ l2) = l1.
Proof. intros A l1 l2. rewrite firstn_app_le by lia. apply firstn_all. Qed.

Lemma skipn_length_app : forall {A} (l1 l2 : list A), skipn (length l1) (l1 ++ l2) = l2.
Proof. intros A l1 l2. rewrite skipn_app_le by lia. rewrite skipn_all. reflexivity. Qed.

End Seq.
Import Seq.

(** ** JsonRpcFramer / JsonRpcParser (src/unnamed/part_006) *)
Module Framer.

Definition crlfcrlf : list Z := [13; 10; 13; 10].

(** [this.buffer.indexOf('\r\n\r\n')]: first byte index of the separator. *)
Fixpoint index_of_sep (b : list Z) : option nat :=
  if starts_with crlfcrlf b then Some 0%nat
  else match b with
       | [] => None
       | _ :: b' => option_map S (index_of_sep b')
       end.

(** The header regex [/Content-Length:\s*(\d+)/i] runs on the UTF-8 decoding
    of the header bytes.  Without the [u] flag, [/i] folds ASCII letters only.
    [\s] matches one code point of WhiteSpace or LineTerminator; listed here
    as the UTF-8 byte sequences of those code points. *)
Definition ws_seqs : list (list Z) :=
  [[9]; [10]; [11]; [12]; [13]; [32];
   [194; 160];                                      (* U+00A0 *)
   [225; 154; 128];                                 (* U+1680 *)
   [239; 187; 191];                                 (* U+FEFF *)
   [226; 128; 168]; [226; 128; 169]; [226; 128; 175];  (* U+2028 U+2029 U+202F *)
   [226; 129; 159];                                 (* U+205F *)
   [227; 128; 128]]                                 (* U+3000 *)
  ++ map (fun k => [226; 128; 128 + k]) [0; 1; 2; 3; 4; 5; 6; 7; 8; 9; 10]. (* U+2000..U+200A *)

(** Number of bytes of the [\s] code point at the head of [b], 0 if none. *)
Definition ws_len (b : list Z) : nat :=
  match find (fun s => starts_with s b) ws_seqs with
  | Some s => length s
  | None => 0%nat
  end.

(** [\s*] (greedy); the fuel is the buffer length, each step drops a byte. *)
Fixpoint skip_ws (fuel : nat) (b : list Z) : list Z :=
  match fuel with
  | O => b
  | S f => match ws_len b with O => b | n => skip_ws f (skipn n b) end
  end.

Definition is_digit (c : Z) : bool := (48 <=? c) && (c <=? 57).

(** [(\d+)]: the maximal run of ASCII digits. *)
Fixpoint take_digits (b : list Z) : list Z :=
  match b with
  | c :: b' => if is_digit c then c :: take_digits b' else []
  | [] => []
  end.

Definition lower (c : Z) : Z := if (65 <=? c) && (c <=? 90) then c + 32 else c.

Fixpoint starts_with_ci (p b : list Z) : bool :=
  match p, b with
  | [], _ => true
  | x :: p', y :: b' => (x =? lower y) && starts_with_ci p' b'
  | _ :: _, [] => false
  end.

Definition content_length_lc : list Z := js "content-length:".

(** Match of the regex anchored at the head of [h]: the captured digits.
    Backtracking in [\s*] cannot help: [\s] and [\d] are disjoint. *)
Definition match_at (h : list Z) : option (list Z) :=
  if starts_with_ci content_length_lc h then
    match take_digits (skip_ws (length h) (skipn 15 h)) with
    | [] => None
    | d => Some d
    end
  else None.

(** [headerPart.match(...)]: leftmost match, capture group 1. *)
Fixpoint header_match (h : list Z) : option (list Z) :=
  match match_at h with
  | Some d => Some d
  | None => match h with [] => None | _ :: h' => header_match h' end
  end.

Definition digits_value (d : list Z) : Z := fold_left (fun acc c => acc * 10 + (c - 48)) d 0.

(** The IEEE double nearest to the integer [v >= 0] (ties to even), [None]
    when it overflows to Infinity; [parseInt] returns this value and
    [Number.isFinite] rejects Infinity. *)
Definition js_number_of_int (v : Z) : option Z :=
  if v <? 2 ^ 53 then Some v else
  let e := Z.log2 v - 52 in
  let q := Z.shiftr v e in
  let r := v - Z.shiftl q e in
  let half := Z.shiftl 1 (e - 1) in
  let q' := if (half <? r) || ((r =? half) && Z.odd q) then q + 1 else q in
  let m := Z.shiftl q' e in
  if 2 ^ 1024 <=? m then None else Some m.

(** [len] when [Number.isFinite(len)], [None] for NaN / Infinity. *)
Definition header_len (h : list Z) : option Z :=
  match header_match h with
  | Some d => js_number_of_int (digits_value d)
  | None => None
  end.

(** Decimal rendering of a non-negative integer, [`${n}`]. *)
Fixpoint dec_rev (fuel : nat) (n : Z) : list Z :=
  match fuel with
  | O => []
  | S f => (48 + n mod 10) :: (if n <? 10 then [] else dec_rev f (n / 10))
  end.

Definition dec (n : Z) : list Z := rev (dec_rev (S (Z.to_nat n)) n).

(** *** Lemmas on the header grammar *)

Lemma index_of_sep_cons : forall c b,
  index_of_sep (c :: b) =
  if starts_with crlfcrlf (c :: b) then Some 0%nat else option_map S (index_of_sep b).
Proof. reflexivity. Qed.

Lemma index_of_sep_bound : forall b i, index_of_sep b = Some i -> (i + 4 <= length b)%nat.
Proof.
  induction b as [|c b IH]; intros i H; [discriminate|].
  rewrite index_of_sep_cons in H.
  - destruct (starts_with crlfcrlf (c :: b)) eqn:E.
    + injection H as <-. destruct b as [|? [|? [|? b]]]; simpl in E;
        rewrite ?andb_false_r in E; try discriminate; simpl; lia.
    + destruct (index_of_sep b) eqn:E'; simpl in H; [|discriminate].
      injection H as <-. specialize (IH _ eq_refl). simpl; lia.
Qed.

Lemma starts_with_app_long : forall p b r,
  (length p <= length b)%nat -> starts_with p (b ++ r) = starts_with p b.
Proof.
  induction p as [|x p IH]; intros [|y b] r H; simpl in *; try lia; auto.
  rewrite IH by lia. reflexivity.
Qed.

Lemma index_of_sep_app : forall b r i, index_of_sep b = Some i -> index_of_sep (b ++ r) = Some i.
Proof.
  induction b as [|c b IH]; intros r i H; [discriminate|].
  rewrite index_of_sep_cons in H. simpl app. rewrite index_of_sep_cons.
  change (c :: b ++ r) with ((c :: b) ++ r).
  - destruct (starts_with crlfcrlf (c :: b)) eqn:E.
    + rewrite (starts_with_app_l _ _ r E). exact H.
    + destruct (index_of_sep b) eqn:E'; simpl in H; [|discriminate].
      pose proof (index_of_sep_bound _ _ E').
      rewrite starts_with_app_long by (simpl; lia). rewrite E.
      rewrite (IH r n eq_refl). exact H.
Qed.

Lemma take_digits_all : forall b, forallb is_digit (take_digits b) = true.
Proof.
  induction b as [|c b IH]; simpl; auto.
  destruct (is_digit c) eqn:E; simpl; auto. rewrite E; exact IH.
Qed.

Lemma header_match_digits : forall h d, header_match h = Some d -> forallb is_digit d = true.
Proof.
  induction h as [|c h IH]; intros d H; simpl in H; unfold match_at in H.
  - destruct (starts_with_ci content_length_lc []); [|discriminate].
    simpl in H. discriminate.
  - destruct (starts_with_ci content_length_lc (c :: h)).
    + destruct (take_digits _) eqn:E.
      * apply IH; exact H.
      * injection H as <-. rewrite <- E. apply take_digits_all.
    + apply IH; exact H.
Qed.

Lemma digits_value_acc_nonneg : forall d acc,
  0 <= acc -> forallb is_digit d = true -> 0 <= fold_left (fun acc c => acc * 10 + (c - 48)) d acc.
Proof.
  induction d as [|c d IH]; intros acc Ha Hd; simpl in *; auto.
  apply andb_true_iff in Hd as [Hc Hd]. unfold is_digit in Hc.
  apply andb_true_iff in Hc as [H1 H2]. apply Z.leb_le in H1. apply Z.leb_le in H2.
  apply IH; auto. lia.
Qed.

Lemma js_number_of_int_nonneg : forall v m, 0 <= v -> js_number_of_int v = Some m -> 0 <= m.
Proof.
  intros v m Hv H. unfold js_number_of_int in H.
  destruct (v <? 2 ^ 53). { injection H as <-. exact Hv. }
  cbv zeta in H.
  destruct (2 ^ 1024 <=? _); [discriminate|]. injection H as <-.
  apply Z.shiftl_nonneg.
  assert (0 <= Z.shiftr v (Z.log2 v - 52)) by (apply Z.shiftr_nonneg; exact Hv).
  destruct (_ || _); lia.
Qed.

Lemma header_len_nonneg : forall h len, header_len h = Some len -> 0 <= len.
Proof.
  intros h len H. unfold header_len in H.
  destruct (header_match h) as [d|] eqn:E; [|discriminate].
  apply js_number_of_int_nonneg in H; auto.
  apply digits_value_acc_nonneg; [lia|]. eapply header_match_digits; eauto.
Qed.

Lemma index_of_sep_prefix : forall p r,
  forallb (fun c => negb (c =? 13)) p = true ->
  index_of_sep (p ++ crlfcrlf ++ r) = Some (length p).
Proof.
  induction p as [|c p IH]; intros r H.
  - simpl app. destruct r; reflexivity.
  - simpl in H. apply andb_true_iff in H as [Hc H].
    change ((c :: p) ++ crlfcrlf ++ r) with (c :: (p ++ crlfcrlf ++ r)).
    rewrite index_of_sep_cons, (IH r H).
    apply negb_true_iff, Z.eqb_neq in Hc.
    replace (starts_with crlfcrlf _) with false; [reflexivity|].
    unfold crlfcrlf. cbn [starts_with].
    rewrite (proj2 (Z.eqb_neq 13 c)) by lia. reflexivity.
Qed.

Lemma header_match_eq : forall h, header_match h =
  match match_at h with
  | Some d => Some d
  | None => match h with [] => None | _ :: h' => header_match h' end
  end.
Proof. destruct h; reflexivity. Qed.

Lemma starts_with_ci_app : forall p q r,
  (length p <= length q)%nat -> starts_with_ci p (q ++ r) = starts_with_ci p q.
Proof.
  induction p as [|x p IH]; intros [|y q] r H; simpl in *; try lia; auto.
  rewrite IH by lia. reflexivity.
Qed.

Lemma ws_len_digit : forall c b, is_digit c = true -> ws_len (c :: b) = 0%nat.
Proof.
  intros c b H. unfold is_digit in H. apply andb_true_iff in H as [H1 H2].
  apply Z.leb_le in H1. apply Z.leb_le in H2.
  unfold ws_len, ws_seqs. cbn [find starts_with app map].
  repeat match goal with
  | |- context [?k =? c] => destruct (Z.eqb_spec k c); [lia|]
  end; reflexivity.
Qed.

Lemma skip_ws_S : forall f b,
  skip_ws (S f) b = match ws_len b with O => b | n => skip_ws f (skipn n b) end.
Proof. reflexivity. Qed.

Lemma skip_ws_digit : forall f c b, is_digit c = true -> skip_ws f (c :: b) = c :: b.
Proof. intros [|f] c b H; simpl; [reflexivity|]. rewrite ws_len_digit by exact H. reflexivity. Qed.

Lemma take_digits_id : forall b, forallb is_digit b = true -> take_digits b = b.
Proof.
  induction b as [|c b IH]; intros H; simpl in *; auto.
  apply andb_true_iff in H as [H1 H2]. rewrite H1, IH; auto.
Qed.

Lemma dec_rev_digits : forall f n, 0 <= n -> forallb is_digit (dec_rev f n) = true.
Proof.
  induction f as [|f IH]; intros n Hn; cbn [dec_rev forallb]; auto.
  assert (0 <= n mod 10 < 10) by (apply Z.mod_pos_bound; lia).
  apply andb_true_iff; split.
  - unfold is_digit. apply andb_true_iff; split; apply Z.leb_le; lia.
  - destruct (n <? 10); auto. apply IH. apply Z.div_pos; lia.
Qed.

Lemma digits_value_snoc : forall l c, digits_value (l ++ [c]) = digits_value l * 10 + (c - 48).
Proof. intros l c. unfold digits_value. rewrite fold_left_app. reflexivity. Qed.

Lemma dec_rev_value : forall f n, 0 <= n -> (Z.to_nat n < f)%nat ->
  digits_value (rev (dec_rev f n)) = n.
Proof.
  induction f as [|f IH]; intros n Hn Hf; [lia|].
  cbn [dec_rev rev]. rewrite digits_value_snoc.
  destruct (Z.ltb_spec n 10).
  - cbn [rev]. unfold digits_value at 1. cbn [fold_left].
    rewrite Z.mod_small by lia. lia.
  - rewrite IH.
    + pose proof (Z.div_mod n 10). pose proof (Z.mod_pos_bound n 10). lia.
    + apply Z.div_pos; lia.
    + assert (n / 10 < n) by (apply Z.div_lt; lia). lia.
Qed.

Lemma dec_digits : forall n, 0 <= n -> forallb is_digit (dec n) = true.
Proof.
  intros n Hn. unfold dec. pose proof (dec_rev_digits (S (Z.to_nat n)) n Hn) as H.
  rewrite forallb_forall in *. intros x Hx. apply H. apply in_rev. exact Hx.
Qed.

Lemma dec_value : forall n, 0 <= n -> digits_value (dec n) = n.
Proof. intros n Hn. apply dec_rev_value; lia. Qed.

Lemma dec_cons : forall n, exists c tl, dec n = c :: tl.
Proof.
  intros n. unfold dec. destruct (rev (dec_rev (S (Z.to_nat n)) n)) as [|c tl] eqn:E.
  - apply (f_equal (@length Z)) in E. rewrite length_rev in E. discriminate.
  - eauto.
Qed.

Definition content_length_prefix : list Z := js "Content-Length: ".

Lemma header_len_dec : forall n, 0 <= n < 2 ^ 53 ->
  header_len (content_length_prefix ++ dec n) = Some n.
Proof.
  intros n Hn. unfold header_len. rewrite header_match_eq.
  assert (Hm : match_at (content_length_prefix ++ dec n) = Some (dec n)).
  { unfold match_at.
    rewrite starts_with_ci_app by (vm_compute; lia).
    replace (starts_with_ci content_length_lc content_length_prefix) with true by reflexivity.
    rewrite skipn_app_le by (simpl; lia).
    replace (skipn 15 content_length_prefix) with [32] by reflexivity.
    change ([32] ++ dec n) with (32 :: dec n).
    rewrite length_app. replace (length content_length_prefix) with 16%nat by reflexivity.
    replace (16 + length (dec n))%nat with (S (15 + length (dec n))) by lia.
    rewrite skip_ws_S.
    replace (ws_len (32 :: dec n)) with 1%nat by reflexivity.
    change (skipn 1 (32 :: dec n)) with (dec n).
    pose proof (dec_digits n (proj1 Hn)) as Hd.
    destruct (dec_cons n) as (c & tl & E). rewrite E in *.
    simpl in Hd. apply andb_true_iff in Hd as [Hc _].
    rewrite skip_ws_digit by exact Hc. rewrite <- E.
    rewrite take_digits_id by (apply dec_digits; lia). rewrite E. reflexivity. }
  rewrite Hm, dec_value by lia. unfold js_number_of_int.
  destruct (Z.ltb_spec n (2 ^ 53)); [reflexivity | lia].
Qed.

Section Parser.
(** [J] is the type of JavaScript values that [JSON.stringify] accepts;
    [serialize] is [Buffer.from(JSON.stringify(x), 'utf8')] and
    [deserialize] is [JSON.parse(body.toString('utf8'))], [None] when it throws. *)
Variable J : Type.
Variable serialize : J -> list Z.
Variable deserialize : list Z -> option J.

(** [JsonRpcFramer.encode] *)
Definition encode (x : J) : list Z :=
  let json := serialize x in
  content_length_prefix ++ dec (Z.of_nat (length json)) ++ crlfcrlf ++ json.

(** The [while (true)] loop of [JsonRpcParser.feed]: emitted messages, in
    order, and the new buffer.  Every iteration that continues drops at least
    the four separator bytes, so fuel [S (length buf)] never runs out. *)
Fixpoint drain (fuel : nat) (buf : list Z) : list J * list Z :=
  match fuel with
  | O => ([], buf)
  | S f =>
    match index_of_sep buf with
    | None => ([], buf)
    | Some headerEnd =>
      match header_len (firstn headerEnd buf) with
      | None => drain f (skipn (headerEnd + 4) buf)
      | Some len =>
        let frameStart := (headerEnd + 4)%nat in
        let frameEnd := Z.of_nat frameStart + len in
        if Z.of_nat (length buf) <? frameEnd then ([], buf)
        else
          let body := firstn (Z.to_nat len) (skipn frameStart buf) in
          let rest := skipn (Z.to_nat frameEnd) buf in
          match deserialize body with
          | Some obj => let '(ev, r) := drain f rest in (obj :: ev, r)
          | None => drain f rest
          end
      end
    end
  end.

Definition drain_full (buf : list Z) : list J * list Z := drain (S (length buf)) buf.

(** [feed(chunk)] on parser state [st]: concatenate, then drain. *)
Definition feed (st chunk : list Z) : list J * list Z := drain_full (st ++ chunk).

(** Feeding successive chunks, starting from buffer [st]. *)
Fixpoint feed_all (st : list Z) (chunks : list (list Z)) : list J * list Z :=
  match chunks with
  | [] => ([], st)
  | c :: cs =>
    let '(ev, st') := feed st c in
    let '(ev', st'') := feed_all st' cs in
    (ev ++ ev', st'')
  end.

(** *** The loop as a terminating recursion *)

Lemma drain_fuel : forall f1 f2 b,
  (length b < f1)%nat -> (length b < f2)%nat -> drain f1 b = drain f2 b.
Proof.
  induction f1 as [|f1 IH]; intros f2 b H1 H2; [lia|].
  destruct f2 as [|f2]; [lia|]. cbn [drain].
  destruct (index_of_sep b) as [he|] eqn:E; auto.
  pose proof (index_of_sep_bound _ _ E).
  destruct (header_len (firstn he b)) as [len|] eqn:Hl.
  - pose proof (header_len_nonneg _ _ Hl).
    destruct (Z.ltb_spec (Z.of_nat (length b)) (Z.of_nat (he + 4) + len)); auto.
    assert (Hr : (length (skipn (Z.to_nat (Z.of_nat (he + 4) + len)) b) + 4 <= length b)%nat)
      by (rewrite length_skipn; lia).
    destruct (deserialize _); rewrite (IH f2) by lia; reflexivity.
  - apply IH; rewrite length_skipn; lia.
Qed.

Lemma drain_full_fuel : forall f b, (length b < f)%nat -> drain f b = drain_full b.
Proof. intros f b H. apply drain_fuel; lia. Qed.

(** One iteration of the loop, as an equation of [drain_full]. *)
Lemma drain_full_eq : forall b, drain_full b =
  match index_of_sep b with
  | None => ([], b)
  | Some headerEnd =>
    match header_len (firstn headerEnd b) with
    | None => drain_full (skipn (headerEnd + 4) b)
    | Some len =>
      if Z.of_nat (length b) <? Z.of_nat (headerEnd + 4) + len then ([], b)
      else
        let rest := skipn (Z.to_nat (Z.of_nat (headerEnd + 4) + len)) b in
        match deserialize (firstn (Z.to_nat len) (skipn (headerEnd + 4) b)) with
        | Some obj => let '(ev, r) := drain_full rest in (obj :: ev, r)
        | None => drain_full rest
        end
    end
  end.
Proof.
  intros b. unfold drain_full at 1. cbn [drain].
  destruct (index_of_sep b) as [he|] eqn:E; auto.
  pose proof (index_of_sep_bound _ _ E).
  destruct (header_len (firstn he b)) as [len|] eqn:Hl.
  - pose proof (header_len_nonneg _ _ Hl).
    destruct (Z.ltb_spec (Z.of_nat (length b)) (Z.of_nat (he + 4) + len)); auto.
    cbv zeta.
    rewrite drain_full_fuel by (rewrite length_skipn; lia). reflexivity.
  - apply drain_full_fuel. rewrite length_skipn; lia.
Qed.

(** Data appended after the buffer does not change the frames already
    decided by it: the loop resumes from the left-over buffer. *)
Lemma drain_app : forall b more, drain_full (b ++ more) =
  let '(ev, rest) := drain_full b in
  let '(ev', r) := drain_full (rest ++ more) in (ev ++ ev', r).
Proof.
  intros b. remember (length b) as n eqn:Hn. revert b Hn.
  induction n as [n IH] using lt_wf_ind. intros b Hn more.
  rewrite (drain_full_eq b).
  destruct (index_of_sep b) as [he|] eqn:E.
  2: { destruct (drain_full (b ++ more)); reflexivity. }
  pose proof (index_of_sep_bound _ _ E).
  destruct (header_len (firstn he b)) as [len|] eqn:Hl.
  - pose proof (header_len_nonneg _ _ Hl).
    destruct (Z.ltb_spec (Z.of_nat (length b)) (Z.of_nat (he + 4) + len)).
    + destruct (drain_full (b ++ more)); reflexivity.
    + rewrite (drain_full_eq (b ++ more)), (index_of_sep_app _ _ _ E).
      rewrite firstn_app_le, Hl by lia.
      rewrite length_app.
      destruct (Z.ltb_spec (Z.of_nat (length b + length more)) (Z.of_nat (he + 4) + len)); [lia|].
      cbv zeta.
      rewrite skipn_app_le by lia. rewrite firstn_app_le by (rewrite length_skipn; lia).
      rewrite skipn_app_le by lia.
      assert (Hlt : (length (skipn (Z.to_nat (Z.of_nat (he + 4) + len)) b) < n)%nat)
        by (rewrite length_skipn; lia).
      destruct (deserialize _).
      * rewrite (IH _ Hlt _ eq_refl more).
        destruct (drain_full (skipn _ b)) as [ev1 r1].
        destruct (drain_full (r1 ++ more)). reflexivity.
      * rewrite (IH _ Hlt _ eq_refl more). reflexivity.
  - rewrite (drain_full_eq (b ++ more)), (index_of_sep_app _ _ _ E).
    rewrite firstn_app_le, Hl by lia.
    rewrite skipn_app_le by lia.
    apply IH with (m := length (skipn (he + 4) b)); auto.
    rewrite length_skipn; lia.
Qed.

Lemma drain_full_nil : drain_full [] = ([], []).
Proof. reflexivity. Qed.

(** Feeding chunk by chunk is feeding their concatenation at once. *)
Lemma feed_all_cons : forall cs c st,
  feed_all st (c :: cs) = drain_full (st ++ c ++ concat cs).
Proof.
  induction cs as [|c' cs IH]; intros c st.
  - cbn [feed_all concat]. unfold feed. rewrite app_nil_r.
    destruct (drain_full (st ++ c)). rewrite app_nil_r. reflexivity.
  - change (feed_all st (c :: c' :: cs)) with
      (let '(ev, st') := feed st c in
       let '(ev', st'') := feed_all st' (c' :: cs) in (ev ++ ev', st'')).
    unfold feed at 1.
    rewrite (app_assoc st c (concat (c' :: cs))), (drain_app (st ++ c) (concat (c' :: cs))).
    destruct (drain_full (st ++ c)) as [ev st'].
    rewrite IH. reflexivity.
Qed.

(** An encoded message at the head of the buffer is emitted, and the loop
    continues right after it. *)
Lemma drain_encode : forall x rest,
  deserialize (serialize x) = Some x ->
  Z.of_nat (length (serialize x)) < 2 ^ 53 ->
  drain_full (encode x ++ rest) =
  let '(ev, r) := drain_full rest in (x :: ev, r).
Proof.
  intros x rest Hrt Hlen. unfold encode.
  set (json := serialize x) in *.
  set (hd := content_length_prefix ++ dec (Z.of_nat (length json))).
  replace ((content_length_prefix ++ dec (Z.of_nat (length json)) ++ crlfcrlf ++ json) ++ rest)
    with (hd ++ crlfcrlf ++ json ++ rest) by (unfold hd; repeat rewrite <- app_assoc; reflexivity).
  rewrite drain_full_eq.
  rewrite index_of_sep_prefix.
  2: { unfold hd. rewrite forallb_app. apply andb_true_iff. split; [reflexivity|].
       pose proof (dec_digits (Z.of_nat (length json)) ltac:(lia)) as Hd.
       rewrite forallb_forall in *. intros c Hc. specialize (Hd c Hc).
       unfold is_digit in Hd. apply andb_true_iff in Hd as [H1 H2].
       apply Z.leb_le in H1. apply negb_true_iff, Z.eqb_neq. lia. }
  rewrite firstn_length_app. unfold hd at 1.
  rewrite header_len_dec by lia.
  rewrite !length_app. replace (length crlfcrlf) with 4%nat by reflexivity.
  destruct (Z.ltb_spec (Z.of_nat (length hd + (4 + (length json + length rest))))
                       (Z.of_nat (length hd + 4) + Z.of_nat (length json))); [lia|].
  cbv zeta.
  replace (hd ++ crlfcrlf ++ json ++ rest) with ((hd ++ crlfcrlf) ++ json ++ rest)
    by (rewrite <- app_assoc; reflexivity).
  replace (length hd + 4)%nat with (length (hd ++ crlfcrlf))
    by (rewrite length_app; reflexivity).
  rewrite skipn_length_app, Nat2Z.id, firstn_length_app, Hrt.
  replace (Z.to_nat (Z.of_nat (length (hd ++ crlfcrlf)) + Z.of_nat (length json)))
    with (length ((hd ++ crlfcrlf) ++ json)) by (rewrite length_app; lia).
  rewrite app_assoc, skipn_length_app. reflexivity.
Qed.

Lemma drain_full_encodes : forall xs,
  Forall (fun x => deserialize (serialize x) = Some x) xs ->
  Forall (fun x => Z.of_nat (length (serialize x)) < 2 ^ 53) xs ->
  drain_full (flat_map encode xs) = (xs, []).
Proof.
  induction xs as [|x xs IH]; intros Hrt Hlen; [reflexivity|].
  inversion Hrt; inversion Hlen; subst.
  cbn [flat_map]. rewrite drain_encode by assumption. rewrite IH by assumption.
  reflexivity.
Qed.

Lemma encode_not_nil : forall x, encode x <> [].
Proof. intros x. unfold encode. destruct content_length_prefix eqn:E; discriminate. Qed.

Lemma header_block_split : forall h tl,
  index_of_sep (h ++ crlfcrlf) = Some (length h) ->
  index_of_sep (h ++ crlfcrlf ++ tl) = Some (length h) /\
  firstn (length h) (h ++ crlfcrlf ++ tl) = h /\
  skipn (length h + 4) (h ++ crlfcrlf ++ tl) = tl.
Proof.
  intros h tl H. split; [|split].
  - rewrite app_assoc. apply index_of_sep_app. exact H.
  - apply firstn_length_app.
  - rewrite app_assoc. replace (length h + 4)%nat with (length (h ++ crlfcrlf))
      by (rewrite length_app; reflexivity).
    apply skipn_length_app.
Qed.

(** C2: for every sequence of JSON values, and every way of cutting the
    concatenation of their encodings into chunks, feeding the chunks one by
    one to a fresh parser emits exactly these values, in order, once each,
    and leaves the buffer empty.  The premises are the JavaScript runtime's
    [JSON.parse(JSON.stringify(x))] round trip and Buffer's size limit. *)
Theorem framer_roundtrip : forall xs chunks,
  Forall (fun x => deserialize (serialize x) = Some x) xs ->
  Forall (fun x => Z.of_nat (length (serialize x)) < 2 ^ 53) xs ->
  concat chunks = flat_map encode xs ->
  feed_all [] chunks = (xs, []).
Proof.
  intros xs chunks Hrt Hlen Hc.
  destruct chunks as [|c cs].
  - destruct xs as [|x xs]; [reflexivity|].
    cbn [concat flat_map] in Hc. symmetry in Hc. apply app_eq_nil in Hc as [Hc _].
    exfalso. exact (encode_not_nil x Hc).
  - rewrite feed_all_cons. simpl app. change (c ++ concat cs) with (concat (c :: cs)).
    rewrite Hc. apply drain_full_encodes; assumption.
Qed.

(** C8: recovery rules of [feed].  (a) A header block (the bytes before the
    first CRLFCRLF) without a usable Content-Length is dropped together with
    the separator and parsing continues on what follows, so well-formed
    frames after it are emitted; (b) a complete frame whose body does not
    parse as JSON is dropped without an event and parsing continues; (c) a
    frame with fewer body bytes than its Content-Length emits nothing and
    stays buffered. *)
Theorem parser_recovery :
  (forall st chunk h rest,
     index_of_sep (h ++ crlfcrlf) = Some (length h) ->
     header_len h = None ->
     st ++ chunk = h ++ crlfcrlf ++ rest ->
     feed st chunk = drain_full rest /\
     (forall xs, rest = flat_map encode xs ->
        Forall (fun x => deserialize (serialize x) = Some x) xs ->
        Forall (fun x => Z.of_nat (length (serialize x)) < 2 ^ 53) xs ->
        feed st chunk = (xs, []))) /\
  (forall st chunk h body rest,
     index_of_sep (h ++ crlfcrlf) = Some (length h) ->
     header_len h = Some (Z.of_nat (length body)) ->
     deserialize body = None ->
     st ++ chunk = h ++ crlfcrlf ++ body ++ rest ->
     feed st chunk = drain_full rest) /\
  (forall st chunk h body len,
     index_of_sep (h ++ crlfcrlf) = Some (length h) ->
     header_len h = Some len ->
     Z.of_nat (length body) < len ->
     st ++ chunk = h ++ crlfcrlf ++ body ->
     feed st chunk = ([], st ++ chunk)).
Proof.
  split; [|split].
  - intros st chunk h rest Hsep Hl Hb.
    assert (Hf : feed st chunk = drain_full rest).
    { unfold feed. rewrite Hb, drain_full_eq.
      destruct (header_block_split h rest Hsep) as (E1 & E2 & E3).
      rewrite E1, E2, Hl, E3. reflexivity. }
    split; [exact Hf|].
    intros xs -> Hrt Hlen. rewrite Hf. apply drain_full_encodes; assumption.
  - intros st chunk h body rest Hsep Hl Hd Hb.
    unfold feed. rewrite Hb, drain_full_eq.
    destruct (header_block_split h (body ++ rest) Hsep) as (E1 & E2 & E3).
    rewrite E1, E2, Hl, E3, Nat2Z.id, firstn_length_app, Hd.
    rewrite !length_app. replace (length crlfcrlf) with 4%nat by reflexivity.
    destruct (Z.ltb_spec (Z.of_nat (length h + (4 + (length body + length rest))))
                         (Z.of_nat (length h + 4) + Z.of_nat (length body))); [lia|].
    replace (Z.to_nat (Z.of_nat (length h + 4) + Z.of_nat (length body)))
      with (length ((h ++ crlfcrlf) ++ body)) by (rewrite !length_app; simpl; lia).
    rewrite (app_assoc h crlfcrlf (body ++ rest)), (app_assoc (h ++ crlfcrlf) body rest).
    rewrite skipn_length_app. reflexivity.
  - intros st chunk h body len Hsep Hl Hlt Hb.
    unfold feed. rewrite Hb, drain_full_eq.
    destruct (header_block_split h body Hsep) as (E1 & E2 & _).
    rewrite E1, E2, Hl.
    rewrite !length_app. replace (length crlfcrlf) with 4%nat by reflexivity.
    destruct (Z.ltb_spec (Z.of_nat (length h + (4 + length body))) (Z.of_nat (length h + 4) + len));
      [reflexivity|lia].
Qed.

End Parser.
End Framer.

(** ** JSON values used to exercise the framer: non-negative safe integers,
    as [JSON.stringify] prints them and [JSON.parse] reads them back
    (no sign, no exponent, no leading zero). *)
Module FramerExamples.
Import Framer.

Definition num_serialize (n : Z) : list Z := dec n.

Definition num_deserialize (b : list Z) : option Z :=
  match b with
  | [] => None
  | [48] => Some 0
  | 48 :: _ => None
  | _ => if forallb is_digit b then Some (digits_value b) else None
  end.

Definition two_values : list Z := flat_map (encode Z num_serialize) [7; 42].

Lemma framer_roundtrip_witness :
  feed_all Z num_deserialize [] [firstn 10 two_values; skipn 10 two_values] = ([7; 42], []).
Proof.
  apply (framer_roundtrip Z num_serialize num_deserialize).
  - repeat constructor.
  - repeat constructor.
  - vm_compute. reflexivity.
Defined.

Lemma parser_recovery_witness :
  feed Z num_deserialize (js "X-Bad: 1") (crlfcrlf ++ encode Z num_serialize 5) = ([5], []) /\
  feed Z num_deserialize [] (js "Content-Length: 2" ++ crlfcrlf ++ js "{x" ++ encode Z num_serialize 9)
    = drain_full Z num_deserialize (encode Z num_serialize 9) /\
  feed Z num_deserialize (js "Content-Length: 10" ++ crlfcrlf) (js "12")
    = ([], (js "Content-Length: 10" ++ crlfcrlf) ++ js "12").
Proof.
  destruct (parser_recovery Z num_serialize num_deserialize) as (Ha & Hb & Hc).
  split; [|split].
  - apply (proj2 (Ha (js "X-Bad: 1") (crlfcrlf ++ encode Z num_serialize 5) (js "X-Bad: 1")
                     (encode Z num_serialize 5) ltac:(vm_compute; reflexivity)
                     ltac:(vm_compute; reflexivity) eq_refl) [5]).
    + vm_compute. reflexivity.
    + repeat constructor.
    + repeat constructor.
  - apply (Hb [] _ (js "Content-Length: 2") (js "{x") (encode Z num_serialize 9)).
    + vm_compute. reflexivity.
    + vm_compute. reflexivity.
    + vm_compute. reflexivity.
    + reflexivity.
  - apply (Hc _ _ (js "Content-Length: 10") (js "12") 10).
    + vm_compute. reflexivity.
    + vm_compute. reflexivity.
    + vm_compute. reflexivity.
    + rewrite <- app_assoc. reflexivity.
Defined.

End FramerExamples.

(** ** JavaScript built-ins used by [MCPProxy.hashParams] *)
Module JsBuiltins.

(** String comparison of [Array.prototype.sort] without comparator:
    code-unit lexicographic order, a proper prefix first. *)
Fixpoint js_lt (a b : list Z) : bool :=
  match a, b with
  | [], [] => false
  | [], _ :: _ => true
  | _ :: _, [] => false
  | x :: a', y :: b' => (x <? y) || ((x =? y) && js_lt a' b')
  end.

(** Insertion into an ascending list; elements that compare equal keep
    their order, as the (stable) [Array.prototype.sort] does. *)
Fixpoint insert (a : list Z) (l : list (list Z)) : list (list Z) :=
  match l with
  | [] => [a]
  | b :: l' => if js_lt a b then a :: b :: l' else b :: insert a l'
  end.

(** [keys.sort()] *)
Fixpoint sort (l : list (list Z)) : list (list Z) :=
  match l with
  | [] => []
  | a :: l' => insert a (sort l')
  end.

Definition hex_digit (n : Z) : Z := if n <? 10 then 48 + n else 87 + n.

Definition hex4 (n : Z) : list Z :=
  [hex_digit (Z.shiftr n 12 mod 16); hex_digit (Z.shiftr n 8 mod 16);
   hex_digit (Z.shiftr n 4 mod 16); hex_digit (n mod 16)].

Definition is_high (c : Z) : bool := (55296 <=? c) && (c <=? 56319).
Definition is_low (c : Z) : bool := (56320 <=? c) && (c <=? 57343).

(** One code unit that is not part of a surrogate pair, as QuoteJSONString
    writes it. *)
Definition quote_unit (c : Z) : list Z :=
  if c =? 8 then [92; 98]
  else if c =? 9 then [92; 116]
  else if c =? 10 then [92; 110]
  else if c =? 12 then [92; 102]
  else if c =? 13 then [92; 114]
  else if c =? 34 then [92; 34]
  else if c =? 92 then [92; 92]
  else if (c <? 32) || is_high c || is_low c then [92; 117] ++ hex4 c
  else [c].

Fixpoint quote_body (s : list Z) : list Z :=
  match s with
  | [] => []
  | c :: rest =>
    if is_high c then
      match rest with
      | d :: rest' => if is_low d then c :: d :: quote_body rest'
                      else quote_unit c ++ quote_body rest
      | [] => quote_unit c
      end
    else quote_unit c ++ quote_body rest
  end.

(** QuoteJSONString *)
Definition quote (s : list Z) : list Z := [34] ++ quote_body s ++ [34].

(** UTF-8 bytes of one code point. *)
Definition utf8_cp (cp : Z) : list Z :=
  if cp <? 128 then [cp]
  else if cp <? 2048 then [192 + Z.shiftr cp 6; 128 + cp mod 64]
  else if cp <? 65536 then
    [224 + Z.shiftr cp 12; 128 + Z.shiftr cp 6 mod 64; 128 + cp mod 64]
  else [240 + Z.shiftr cp 18; 128 + Z.shiftr cp 12 mod 64;
        128 + Z.shiftr cp 6 mod 64; 128 + cp mod 64].

(** [Buffer.from(str)]: UTF-8, a lone surrogate becomes U+FFFD. *)
Fixpoint utf8 (s : list Z) : list Z :=
  match s with
  | [] => []
  | c :: rest =>
    if is_high c then
      match rest with
      | d :: rest' =>
        if is_low d then utf8_cp (65536 + (c - 55296) * 1024 + (d - 56320)) ++ utf8 rest'
        else [239; 191; 189] ++ utf8 rest
      | [] => [239; 191; 189]
      end
    else if is_low c then [239; 191; 189] ++ utf8 rest
    else utf8_cp c ++ utf8 rest
  end.

Definition b64_char (n : Z) : Z :=
  if n <? 26 then 65 + n
  else if n <? 52 then 71 + n
  else if n <? 62 then n - 4
  else if n =? 62 then 43 else 47.

(** [buf.toString('base64')]: standard alphabet, [=] padding. *)
Fixpoint base64 (b : list Z) : list Z :=
  match b with
  | x :: y :: z :: rest =>
    let n := x * 65536 + y * 256 + z in
    [b64_char (Z.shiftr n 18); b64_char (Z.shiftr n 12 mod 64);
     b64_char (Z.shiftr n 6 mod 64); b64_char (n mod 64)] ++ base64 rest
  | [x; y] =>
    let n := x * 65536 + y * 256 in
    [b64_char (Z.shiftr n 18); b64_char (Z.shiftr n 12 mod 64);
     b64_char (Z.shiftr n 6 mod 64); 61]
  | [x] =>
    let n := x * 65536 in
    [b64_char (Z.shiftr n 18); b64_char (Z.shiftr n 12 mod 64); 61; 61]
  | [] => []
  end.

Fixpoint join (sep : list Z) (l : list (list Z)) : list Z :=
  match l with
  | [] => []
  | [x] => x
  | x :: l' => x ++ sep ++ join sep l'
  end.

(** *** [js_lt] is a strict total order, so sorting is order-insensitive *)

Lemma js_lt_cons : forall x a y b,
  js_lt (x :: a) (y :: b) = (x <? y) || ((x =? y) && js_lt a b).
Proof. reflexivity. Qed.

Lemma js_lt_trans : forall a b c, js_lt a b = true -> js_lt b c = true -> js_lt a c = true.
Proof.
  induction a as [|x a IH]; intros [|y b] [|z c] H1 H2; simpl in *; try discriminate; auto.
  apply orb_true_iff in H1, H2. apply orb_true_iff.
  destruct H1 as [H1|H1]; destruct H2 as [H2|H2];
    repeat match goal with
    | H : _ && _ = true |- _ => apply andb_true_iff in H as [? ?]
    | H : (_ <? _) = true |- _ => apply Z.ltb_lt in H
    | H : (_ =? _) = true |- _ => apply Z.eqb_eq in H
    end.
  - left; apply Z.ltb_lt; lia.
  - left; apply Z.ltb_lt; lia.
  - left; apply Z.ltb_lt; lia.
  - right. apply andb_true_iff. split; [apply Z.eqb_eq; lia|]. eapply IH; eauto.
Qed.

Lemma js_lt_asym : forall a b, js_lt a b = true -> js_lt b a = false.
Proof.
  induction a as [|x a IH]; intros [|y b] H; simpl in *; try discriminate; auto.
  apply orb_true_iff in H. apply orb_false_iff.
  destruct (Z.ltb_spec x y), (Z.ltb_spec y x), (Z.eqb_spec x y), (Z.eqb_spec y x);
    simpl in *; try lia.
  all: try (split; reflexivity).
  all: destruct H as [H|H]; [discriminate|]. 
  all: split; [reflexivity|apply IH; exact H].
Qed.

Lemma js_lt_total : forall a b, a = b \/ js_lt a b = true \/ js_lt b a = true.
Proof.
  induction a as [|x a IH]; intros [|y b]; simpl; auto.
  destruct (Z.ltb_spec x y); [right; left; reflexivity|].
  destruct (Z.ltb_spec y x); [right; right; reflexivity|].
  assert (x = y) by lia. subst. rewrite Z.eqb_refl. simpl.
  destruct (IH b) as [->|[Hl|Hl]]; auto.
Qed.

Lemma insert_comm : forall a b l, insert a (insert b l) = insert b (insert a l).
Proof.
  intros a b l.
  destruct (js_lt_total a b) as [->|[Hab|Hba]]; [reflexivity| |].
  all: induction l as [|c l IH]; simpl;
    [ try rewrite Hab, (js_lt_asym _ _ Hab); try rewrite Hba, (js_lt_asym _ _ Hba); reflexivity | ].
  all: destruct (js_lt b c) eqn:Hbc; destruct (js_lt a c) eqn:Hac; simpl;
    try rewrite Hbc; try rewrite Hac.
  all: try rewrite Hab; try rewrite Hba;
       try rewrite (js_lt_asym _ _ Hab); try rewrite (js_lt_asym _ _ Hba); try reflexivity.
  all: try (rewrite IH; reflexivity).
  all: try (rewrite (js_lt_trans _ _ _ Hab Hbc) in Hac; discriminate).
  all: try (rewrite (js_lt_trans _ _ _ Hba Hac) in Hbc; discriminate).
  all: rewrite ?Hbc, ?Hac; try reflexivity.
Qed.

Lemma sort_perm : forall l1 l2, Permutation l1 l2 -> sort l1 = sort l2.
Proof.
  intros l1 l2 H. induction H; simpl.
  - reflexivity.
  - rewrite IHPermutation. reflexivity.
  - apply insert_comm.
  - congruence.
Qed.

Lemma insert_perm : forall a l, Permutation (insert a l) (a :: l).
Proof.
  intros a l. induction l as [|b l IH]; simpl; [reflexivity|].
  destruct (js_lt a b); [reflexivity|].
  rewrite IH. apply perm_swap.
Qed.

Lemma sort_is_perm : forall l, Permutation (sort l) l.
Proof.
  induction l as [|a l IH]; simpl; [reflexivity|].
  rewrite insert_perm. apply perm_skip, IH.
Qed.

End JsBuiltins.

(** ** MCPProxy (src/src/mcp-proxy.ts) *)
Module MCPProxy.
Import JsBuiltins.

(** The params object, [Object.fromEntries(url.searchParams.entries())]:
    string keys and string values, in insertion order, keys distinct. *)
Definition Params := list (list Z * list Z).

Fixpoint get (k : list Z) (p : Params) : option (list Z) :=
  match p with
  | [] => None
  | (k', v) :: p' => if list_eq_dec Z.eq_dec k k' then Some v else get k p'
  end.

(** [JSON.stringify(params, keys)] with an array replacer: the members are
    written in the order of [keys], those without a value skipped. *)
Definition member (params : Params) (k : list Z) : list (list Z) :=
  match get k params with
  | Some v => [quote k ++ [58] ++ quote v]
  | None => []
  end.

Definition stringify_with (params : Params) (keys : list (list Z)) : list Z :=
  let members := flat_map (member params) keys in
  match members with
  | [] => [123; 125]
  | _ => [123] ++ join [44] members ++ [125]
  end.

(** [hashParams]: [Object.keys(params).sort()] as the replacer, then
    [Buffer.from(str).toString('base64').slice(0, 8)]. *)
Definition hashParams (params : Params) : list Z :=
  firstn 8 (base64 (utf8 (stringify_with params (sort (map fst params))))).

(** [computeServerId] *)
Definition computeServerId (packageName : list Z) (params : Params) : list Z :=
  packageName ++ [95] ++ hashParams params.

(** [MCPServerProcess]; the child process is its pid and its [killed]
    flag, the event bus and the stdio pipes carry no state a claim reads. *)
Record MCPServerProcess := mkServer {
  pid : Z;
  killed : bool;
  packageName : list Z;
  startTime : Z;
  lastActivity : Z;
  clients : list (list Z)   (* the Set<string>, no duplicates *)
}.

Inductive PackageType := Npm | Python.

(** The proxy's state: the [servers] Map (entries in insertion order), the
    next pid the OS hands out, and the log of [spawn(command, args)] calls
    and [kill()] calls. *)
Record ProxyState := mkState {
  servers : list (list Z * MCPServerProcess);
  next_pid : Z;
  spawned : list (list Z * list (list Z));
  kills : list Z
}.

(** [Map.prototype.get] *)
Fixpoint map_get (k : list Z) (m : list (list Z * MCPServerProcess)) : option MCPServerProcess :=
  match m with
  | [] => None
  | (k', v) :: m' => if list_eq_dec Z.eq_dec k k' then Some v else map_get k m'
  end.

(** [Map.prototype.set]: an existing key keeps its position. *)
Definition map_set (k : list Z) (v : MCPServerProcess) (m : list (list Z * MCPServerProcess))
  : list (list Z * MCPServerProcess) :=
  match map_get k m with
  | Some _ => map (fun e => if list_eq_dec Z.eq_dec (fst e) k then (k, v) else e) m
  | None => m ++ [(k, v)]
  end.

(** [Map.prototype.delete] *)
Definition map_delete (k : list Z) (m : list (list Z * MCPServerProcess))
  : list (list Z * MCPServerProcess) :=
  filter (fun e => if list_eq_dec Z.eq_dec (fst e) k then false else true) m.

(** [buildCommand] *)
Definition buildCommand (packageName : list Z) (packageType : PackageType) : list Z * list (list Z) :=
  match packageType with
  | Npm => (Seq.js "npx", [Seq.js "-y"; packageName])
  | Python => (Seq.js "uvx", [packageName])
  end.

Definition touch (s : MCPServerProcess) (now : Z) : MCPServerProcess :=
  mkServer (pid s) (killed s) (packageName s) (startTime s) now (clients s).

(** [getOrCreateServer] at time [now] ([Date.now()]).  The environment
    handed to [spawn] is left out: it does not decide whether a child is
    spawned. *)
Definition getOrCreateServer (st : ProxyState) (packageName : list Z) (packageType : PackageType)
  (params : Params) (now : Z) : MCPServerProcess * ProxyState :=
  let serverId := computeServerId packageName params in
  match map_get serverId (servers st) with
  | Some server =>
    if negb (killed server) then
      let server' := touch server now in
      (server', mkState (map_set serverId server' (servers st)) (next_pid st) (spawned st) (kills st))
    else
      let '(command, args) := buildCommand packageName packageType in
      let server := mkServer (next_pid st) false packageName now now [] in
      (server, mkState (map_set serverId server (servers st)) (next_pid st + 1)
                       (spawned st ++ [(command, args)]) (kills st))
  | None =>
    let '(command, args) := buildCommand packageName packageType in
    let server := mkServer (next_pid st) false packageName now now [] in
    (server, mkState (map_set serverId server (servers st)) (next_pid st + 1)
                     (spawned st ++ [(command, args)]) (kills st))
  end.

(** Children the registry counts as live. *)
Definition live_count (st : ProxyState) : nat :=
  length (filter (fun e => negb (killed (snd e))) (servers st)).

(** [setInterval(() => this.cleanupInactiveServers(), 5 * 60 * 1000)] *)
Definition cleanup_interval_ms : Z := 5 * 60 * 1000.

Definition maxInactivity : Z := 30 * 60 * 1000.

Definition inactive (now : Z) (e : list Z * MCPServerProcess) : bool :=
  (length (clients (snd e)) =? 0)%nat && (maxInactivity <? now - lastActivity (snd e)).

(** [cleanupInactiveServers]: [for (const [serverId, server] of
    this.servers.entries())].  The loop deletes only the entry it is
    visiting, which does not disturb a Map iterator: it visits the entries
    present when it starts, in order. *)
Definition cleanupInactiveServers (now : Z) (st : ProxyState) : ProxyState :=
  fold_left (fun acc e =>
      if inactive now e then
        mkState (map_delete (fst e) (servers acc)) (next_pid acc) (spawned acc)
                (kills acc ++ [pid (snd e)])
      else acc)
    (servers st) st.

(** *** Lemmas on server ids *)

Lemma get_perm : forall p1 p2, Permutation p1 p2 -> NoDup (map fst p1) ->
  forall k, get k p1 = get k p2.
Proof.
  intros p1 p2 H. induction H as [|[k1 v1] l l' H IH|[k1 v1] [k2 v2] l|l l' l'' H1 IH1 H2 IH2];
    intros Hnd k; simpl in *.
  - reflexivity.
  - inversion Hnd; subst. rewrite IH by assumption. reflexivity.
  - inversion Hnd as [|? ? Hn1 Hnd']; subst. simpl in Hn1.
    destruct (list_eq_dec Z.eq_dec k k1), (list_eq_dec Z.eq_dec k k2); subst; auto.
    exfalso. apply Hn1. left. reflexivity.
  - rewrite IH1 by assumption. apply IH2.
    eapply Permutation_NoDup; [apply Permutation_map; exact H1|exact Hnd].
Qed.

Lemma hashParams_perm : forall p1 p2, Permutation p1 p2 -> NoDup (map fst p1) ->
  hashParams p1 = hashParams p2.
Proof.
  intros p1 p2 H Hnd. unfold hashParams.
  rewrite (sort_perm (map fst p1) (map fst p2)) by (apply Permutation_map; exact H).
  unfold stringify_with.
  replace (flat_map (member p1) (sort (map fst p2))) with (flat_map (member p2) (sort (map fst p2)));
    [reflexivity|].
  apply flat_map_ext. intros k. unfold member. rewrite (get_perm p1 p2 H Hnd k). reflexivity.
Qed.

Lemma get_in : forall k p, In k (map fst p) -> exists v, get k p = Some v.
Proof.
  intros k p. induction p as [|[k' v'] p IH]; simpl; intros H; [contradiction|].
  destruct (list_eq_dec Z.eq_dec k k'); [eauto|].
  destruct H as [H|H]; [congruence|auto].
Qed.

Lemma utf8_cp_len : forall cp, (1 <= length (utf8_cp cp))%nat /\
  (128 <= cp -> (2 <= length (utf8_cp cp))%nat).
Proof.
  intros cp. unfold utf8_cp.
  destruct (Z.ltb_spec cp 128); [simpl; split; lia|].
  destruct (cp <? 2048); [|destruct (cp <? 65536)]; simpl; split; lia.
Qed.

Lemma utf8_len : forall n s, (length s <= n)%nat -> (length s <= length (utf8 s))%nat.
Proof.
  induction n as [|n IH]; intros [|c rest] Hn; cbn [length] in Hn;
    [simpl; lia|lia|simpl; lia|].
  cbn [utf8 length].
  destruct (is_high c) eqn:Hh.
  - destruct rest as [|d rest']; cbn [length]; [simpl; lia|].
    destruct (is_low d) eqn:Hl.
    + unfold is_high, is_low in *.
      apply andb_true_iff in Hh as [Hh1 _]. apply andb_true_iff in Hl as [Hl1 _].
      apply Z.leb_le in Hh1. apply Z.leb_le in Hl1.
      rewrite length_app.
      destruct (utf8_cp_len (65536 + (c - 55296) * 1024 + (d - 56320))) as [_ H2].
      specialize (H2 ltac:(nia)). specialize (IH rest' ltac:(simpl in Hn; lia)). lia.
    + specialize (IH (d :: rest') ltac:(simpl in *; lia)). rewrite length_app. simpl in *. lia.
  - destruct (is_low c).
    + rewrite length_app. specialize (IH rest ltac:(lia)). simpl; lia.
    + rewrite length_app. specialize (IH rest ltac:(lia)).
      destruct (utf8_cp_len c). lia.
Qed.

Lemma join_len : forall sep x l, (length x <= length (join sep (x :: l)))%nat.
Proof.
  intros sep x [|y l]; simpl; [lia|]. rewrite length_app. lia.
Qed.

Lemma stringify_len : forall p, p <> [] -> (7 <= length (stringify_with p (sort (map fst p))))%nat.
Proof.
  intros p Hp.
  assert (Hperm := sort_is_perm (map fst p)).
  destruct (sort (map fst p)) as [|k K] eqn:Es.
  { apply Permutation_nil in Hperm. destruct p; [congruence|discriminate]. }
  assert (Hin : In k (map fst p)) by (eapply Permutation_in; [exact Hperm|left; reflexivity]).
  destruct (get_in k p Hin) as [v Hv].
  assert (Hm : member p k = [quote k ++ [58] ++ quote v]) by (unfold member; rewrite Hv; reflexivity).
  unfold stringify_with. cbn [flat_map]. rewrite Hm.
  cbn [app length]. rewrite length_app.
  pose proof (join_len [44] (quote k ++ [58] ++ quote v) (flat_map (member p) K)).
  unfold quote in *. rewrite !length_app in *. simpl in *. lia.
Qed.

Lemma hashParams_prefix : forall p, p <> [] ->
  hashParams p = base64 (firstn 6 (utf8 (stringify_with p (sort (map fst p))))) /\
  length (hashParams p) = 8%nat.
Proof.
  intros p Hp.
  pose proof (stringify_len p Hp) as Hs.
  pose proof (utf8_len _ _ (le_n _) : (length (stringify_with p (sort (map fst p))) <=
                                       length (utf8 (stringify_with p (sort (map fst p)))))%nat).
  unfold hashParams.
  destruct (utf8 (stringify_with p (sort (map fst p))))
    as [|x1 [|x2 [|x3 [|x4 [|x5 [|x6 rest]]]]]]; simpl in *; try lia.
  split; reflexivity.
Qed.

(** C5 (as amended): [computeServerId(pkg, params)] is [pkg + "_" + h] where
    [h] is the first 8 characters of the base64 of the key-sorted JSON of
    [params].  [h] depends only on the set of key/value pairs, not on their
    insertion order; it has exactly 8 characters for non-empty params and
    is ["e30="] (4 characters) for empty params; it reflects only the first
    6 bytes of that JSON, so distinct params maps can share a server id,
    e.g. [{abcd: "1"}] and [{abcd: "2"}]. *)
Theorem computeServerId_spec :
  (forall pkg p1 p2, Permutation p1 p2 -> NoDup (map fst p1) ->
     computeServerId pkg p1 = computeServerId pkg p2) /\
  (forall pkg p, p <> [] ->
     computeServerId pkg p =
       pkg ++ [95] ++ base64 (firstn 6 (utf8 (stringify_with p (sort (map fst p))))) /\
     length (hashParams p) = 8%nat) /\
  (forall pkg, computeServerId pkg [] = pkg ++ [95] ++ Seq.js "e30=") /\
  computeServerId (Seq.js "pkg") [(Seq.js "abcd", Seq.js "1")] =
  computeServerId (Seq.js "pkg") [(Seq.js "abcd", Seq.js "2")].
Proof.
  split; [|split; [|split]].
  - intros pkg p1 p2 H Hnd. unfold computeServerId. rewrite (hashParams_perm p1 p2 H Hnd). reflexivity.
  - intros pkg p Hp. destruct (hashParams_prefix p Hp) as [E L].
    unfold computeServerId. rewrite E. split; [reflexivity|]. rewrite <- E. exact L.
  - intros pkg. reflexivity.
  - vm_compute. reflexivity.
Qed.

(** C5 as stated fails: the digest of empty params has 4 characters, and two
    distinct params maps give the same server id. *)
Lemma computeServerId_claim_counterexample :
  length (hashParams []) = 4%nat /\
  [(Seq.js "abcd", Seq.js "1")] <> [(Seq.js "abcd", Seq.js "2")] /\
  computeServerId (Seq.js "pkg") [(Seq.js "abcd", Seq.js "1")] =
  computeServerId (Seq.js "pkg") [(Seq.js "abcd", Seq.js "2")].
Proof.
  split; [reflexivity|split].
  - intros H. vm_compute in H. discriminate.
  - vm_compute. reflexivity.
Qed.

(** *** The reaper *)

Lemma map_delete_unique : forall k done e l,
  fst e = k -> ~ In k (map fst done) -> ~ In k (map fst l) ->
  map_delete k (done ++ e :: l) = done ++ l.
Proof.
  intros k done e l He Hd Hl. unfold map_delete.
  rewrite filter_app. cbn [filter]. rewrite He.
  destruct (list_eq_dec Z.eq_dec k k); [|congruence].
  f_equal; apply forallb_filter_id, forallb_forall; intros x Hx;
    destruct (list_eq_dec Z.eq_dec (fst x) k); auto; exfalso;
    [apply Hd|apply Hl]; apply in_map_iff; eauto.
Qed.

Lemma cleanup_fold : forall now l done acc,
  servers acc = done ++ l -> NoDup (map fst (done ++ l)) ->
  let r := fold_left (fun acc e =>
      if inactive now e then
        mkState (map_delete (fst e) (servers acc)) (next_pid acc) (spawned acc)
                (kills acc ++ [pid (snd e)])
      else acc) l acc in
  servers r = done ++ filter (fun e => negb (inactive now e)) l /\
  kills r = kills acc ++ map (fun e => pid (snd e)) (filter (inactive now) l) /\
  next_pid r = next_pid acc /\ spawned r = spawned acc.
Proof.
  intros now l. induction l as [|e l IH]; intros done acc Hs Hnd; cbn [fold_left filter map].
  - rewrite !app_nil_r in *. auto.
  - rewrite map_app in Hnd. cbn [map] in Hnd.
    pose proof Hnd as Hnd0.
    apply NoDup_remove in Hnd as [Hnd Hnotin].
    rewrite in_app_iff in Hnotin.
    destruct (inactive now e) eqn:Ei; cbn [negb].
    + edestruct (IH done (mkState (map_delete (fst e) (servers acc)) (next_pid acc)
                                  (spawned acc) (kills acc ++ [pid (snd e)])))
        as (H1 & H2 & H3 & H4).
      * cbn [servers]. rewrite Hs. apply map_delete_unique; auto.
      * rewrite map_app; exact Hnd.
      * cbn [kills next_pid spawned] in *. rewrite H1, H2, H3, H4, <- app_assoc. auto.
    + edestruct (IH (done ++ [e]) acc) as (H1 & H2 & H3 & H4).
      * rewrite Hs, <- app_assoc. reflexivity.
      * rewrite !map_app. cbn [map]. rewrite <- app_assoc. cbn [app].
        exact Hnd0.
      * rewrite H1, H2, H3, H4, <- app_assoc. auto.
Qed.

(** C6: one pass of the reaper over a registry (a Map, so its keys are
    distinct) removes exactly the entries with no client whose last activity
    is more than 30 minutes old, keeping every other entry as it was and in
    its place, and kills exactly the removed children, in registry order;
    it spawns nothing.  The reaper runs every 5 minutes. *)
Theorem cleanupInactiveServers_spec : forall now st,
  NoDup (map fst (servers st)) ->
  servers (cleanupInactiveServers now st) =
    filter (fun e => negb (inactive now e)) (servers st) /\
  kills (cleanupInactiveServers now st) =
    kills st ++ map (fun e => pid (snd e)) (filter (inactive now) (servers st)) /\
  next_pid (cleanupInactiveServers now st) = next_pid st /\
  spawned (cleanupInactiveServers now st) = spawned st /\
  (forall e, inactive now e = true <->
     length (clients (snd e)) = 0%nat /\ now - lastActivity (snd e) > 30 * 60 * 1000) /\
  cleanup_interval_ms = 5 * 60 * 1000.
Proof.
  intros now st Hnd.
  destruct (cleanup_fold now (servers st) [] st eq_refl Hnd) as (H1 & H2 & H3 & H4).
  unfold cleanupInactiveServers.
  split; [exact H1|split; [exact H2|split; [exact H3|split; [exact H4|split]]]].
  - intros e. unfold inactive, maxInactivity. rewrite andb_true_iff, Nat.eqb_eq, Z.ltb_lt.
    split; intros [Ha Hb]; split; auto; lia.
  - reflexivity.
Qed.

(** [SERVER_CONFIG.maxConcurrentProcesses] *)
Definition maxConcurrentProcesses : nat := 10.

Lemma getOrCreateServer_miss : forall st pkg ty params now,
  map_get (computeServerId pkg params) (servers st) = None ->
  servers (snd (getOrCreateServer st pkg ty params now)) =
    servers st ++ [(computeServerId pkg params, mkServer (next_pid st) false pkg now now [])] /\
  spawned (snd (getOrCreateServer st pkg ty params now)) = spawned st ++ [buildCommand pkg ty].
Proof.
  intros st pkg ty params now H. unfold getOrCreateServer. rewrite H.
  destruct (buildCommand pkg ty) as [command args] eqn:Eb. cbn [snd servers spawned].
  unfold map_set. rewrite H. auto.
Qed.

(** C1 (the code diverges from the stated cap): [MCPProxy.getOrCreateServer]
    checks no process cap.  From any registry whose live count is already
    [SERVER_CONFIG.maxConcurrentProcesses] (10), a call with a key that has
    no entry returns normally, spawns a new child ([npx -y pkg] or
    [uvx pkg]) and leaves 11 live children. *)
Theorem getOrCreateServer_no_cap : forall st pkg ty params now,
  map_get (computeServerId pkg params) (servers st) = None ->
  live_count st = maxConcurrentProcesses ->
  spawned (snd (getOrCreateServer st pkg ty params now)) = spawned st ++ [buildCommand pkg ty] /\
  live_count (snd (getOrCreateServer st pkg ty params now)) = S maxConcurrentProcesses.
Proof.
  intros st pkg ty params now H Hc.
  destruct (getOrCreateServer_miss st pkg ty params now H) as [Hs Hsp].
  split; [exact Hsp|].
  unfold live_count in *. rewrite Hs, filter_app, length_app, Hc. cbn. unfold maxConcurrentProcesses. lia.
Qed.

End MCPProxy.

(** ** Concrete registries *)

Module ProxyExamples.
Import MCPProxy.

Ltac nodup_tac :=
  repeat (apply NoDup_cons; [cbn; intuition discriminate|]); apply NoDup_nil.

Lemma computeServerId_spec_witness :
  computeServerId (js "pkg") [(js "a", js "1"); (js "b", js "2")] =
  computeServerId (js "pkg") [(js "b", js "2"); (js "a", js "1")] /\
  length (hashParams [(js "a", js "1")]) = 8%nat.
Proof.
  split.
  - apply (proj1 computeServerId_spec).
    + apply perm_swap.
    + nodup_tac.
  - exact (proj2 (proj1 (proj2 computeServerId_spec) (js "pkg") [(js "a", js "1")]
                   ltac:(discriminate))).
Defined.

Definition idle_server : MCPServerProcess := mkServer 1 false (js "a") 0 0 [].
Definition busy_server : MCPServerProcess := mkServer 2 false (js "b") 0 0 [js "client-1"].
Definition fresh_server : MCPServerProcess := mkServer 3 false (js "c") 0 1500000 [].

Definition registry3 : ProxyState :=
  mkState [(js "a_e30=", idle_server); (js "b_e30=", busy_server); (js "c_e30=", fresh_server)]
          4 [] [].

Lemma cleanupInactiveServers_spec_witness :
  servers (cleanupInactiveServers 2000000 registry3) =
    [(js "b_e30=", busy_server); (js "c_e30=", fresh_server)] /\
  kills (cleanupInactiveServers 2000000 registry3) = [1].
Proof.
  destruct (cleanupInactiveServers_spec 2000000 registry3 ltac:(nodup_tac))
    as (H1 & H2 & _).
  split; [rewrite H1 | rewrite H2]; vm_compute; reflexivity.
Defined.

Definition registry10 : ProxyState :=
  mkState (map (fun i => (computeServerId (js "server-" ++ Framer.dec i) [],
                          mkServer i false (js "server-" ++ Framer.dec i) 0 0 []))
               [0; 1; 2; 3; 4; 5; 6; 7; 8; 9])
          10 [] [].

Lemma getOrCreateServer_no_cap_witness :
  live_count registry10 = 10%nat /\
  spawned (snd (getOrCreateServer registry10 (js "firecrawl-mcp") Npm [] 0)) =
    [(js "npx", [js "-y"; js "firecrawl-mcp"])] /\
  live_count (snd (getOrCreateServer registry10 (js "firecrawl-mcp") Npm [] 0)) = 11%nat.
Proof.
  destruct (getOrCreateServer_no_cap registry10 (js "firecrawl-mcp") Npm [] 0
              ltac:(vm_compute; reflexivity) ltac:(vm_compute; reflexivity)) as [H1 H2].
  split; [vm_compute; reflexivity|split].
  - rewrite H1. reflexivity.
  - exact H2.
Defined.

End ProxyExamples.

(** ** Input validation ([validation.ts]) *)

Module Validation.

(** [String.prototype.split(sep)] for a one-unit separator: the pieces
    between separators, empty pieces included. *)
Fixpoint split_on (sep : Z) (s : list Z) : list (list Z) :=
  match s with
  | [] => [[]]
  | x :: s' =>
    if x =? sep then [] :: split_on sep s'
    else match split_on sep s' with
         | [] => [[x]]
         | w :: ws => (x :: w) :: ws
         end
  end.

(** The code units [String.prototype.trim] strips: WhiteSpace (TAB, VT, FF,
    SP, NBSP, ZWNBSP and the Zs category) and LineTerminator (LF, CR, LS, PS). *)
Definition is_js_ws (c : Z) : bool :=
  existsb (Z.eqb c)
    ([9; 10; 11; 12; 13; 32; 160; 5760; 8232; 8233; 8239; 8287; 12288; 65279]
     ++ map (fun k => 8192 + k) [0; 1; 2; 3; 4; 5; 6; 7; 8; 9; 10]).

Fixpoint trim_start (s : list Z) : list Z :=
  match s with
  | [] => []
  | c :: s' => if is_js_ws c then trim_start s' else s
  end.

(** [String.prototype.trim] *)
Definition trim (s : list Z) : list Z := rev (trim_start (rev (trim_start s))).

(** Truthiness of a string value. *)
Definition truthy (s : list Z) : bool :=
  match s with [] => false | _ :: _ => true end.

(** The [urlPatterns] of [isRemoteServer], in order:
    [/^https?:\/\//], [/^wss?:\/\//], [/\.com/], [/\.org/], [/\.net/],
    [/\.io/], [/\/sse$/], [/\/stdio$/], [/mcp-remote/]. *)
Definition urlPatterns : list (list Z -> bool) :=
  [fun s => starts_with (js "http://") s || starts_with (js "https://") s;
   fun s => starts_with (js "ws://") s || starts_with (js "wss://") s;
   contains (js ".com"); contains (js ".org"); contains (js ".net"); contains (js ".io");
   ends_with (js "/sse"); ends_with (js "/stdio");
   contains (js "mcp-remote")].

(** [isRemoteServer]: [urlPatterns.some(pattern => pattern.test(packageName))] *)
Definition isRemoteServer (packageName : list Z) : bool :=
  existsb (fun pattern => pattern packageName) urlPatterns.

(** The character class of [validateArgs]: [;&|`$(){}[]<>'], the double
    quote (34) and the backslash (92). *)
Definition dangerous_chars : list Z := js ";&|`$(){}[]<>'" ++ [34; 92].

Definition is_dangerous (c : Z) : bool := existsb (Z.eqb c) dangerous_chars.

Inductive ValidationError := INVALID_ARGS_contains_dangerous_characters.

(** [validateArgs]: a thrown [ValidationError] is [inl]. *)
Definition validateArgs (argsString : list Z) : ValidationError + list (list Z) :=
  if existsb is_dangerous argsString then inl INVALID_ARGS_contains_dangerous_characters
  else inr (firstn 20 (map (fun arg => firstn 100 arg)
                         (filter (fun arg => truthy (trim arg)) (split_on 32 argsString)))).

(** *** Lemmas *)

Lemma split_on_not_nil : forall sep s, split_on sep s <> [].
Proof.
  intros sep [|x s]; simpl; [discriminate|].
  destruct (x =? sep); [discriminate|]. destruct (split_on sep s); discriminate.
Qed.

Lemma join_cons2 : forall sep x y l,
  JsBuiltins.join sep (x :: y :: l) = x ++ sep ++ JsBuiltins.join sep (y :: l).
Proof. reflexivity. Qed.

Lemma split_on_join : forall sep s, JsBuiltins.join [sep] (split_on sep s) = s.
Proof.
  intros sep s. induction s as [|x s IH]; [reflexivity|]. cbn [split_on].
  destruct (x =? sep) eqn:E.
  - apply Z.eqb_eq in E. rewrite E. pose proof (split_on_not_nil sep s) as Hn.
    destruct (split_on sep s) as [|w ws]; [congruence|]. rewrite join_cons2, IH. reflexivity.
  - pose proof (split_on_not_nil sep s) as Hn.
    destruct (split_on sep s) as [|w ws]; [congruence|].
    destruct ws as [|w' ws].
    + simpl in *. rewrite IH. reflexivity.
    + rewrite join_cons2 in *. rewrite <- IH. reflexivity.
Qed.

Lemma split_on_no_sep : forall sep s, Forall (fun t => ~ In sep t) (split_on sep s).
Proof.
  intros sep s. induction s as [|x s IH]; simpl.
  - repeat constructor. intros [].
  - destruct (x =? sep) eqn:E.
    + constructor; [intros []|exact IH].
    + destruct (split_on sep s) as [|w ws]; inversion IH; subst.
      * repeat constructor. intros [Hx|[]]. subst. rewrite Z.eqb_refl in E. discriminate.
      * constructor; [|assumption]. intros [Hx|Hw]; [subst; rewrite Z.eqb_refl in E; discriminate|].
        contradiction.
Qed.

Lemma trim_start_spec : forall s,
  trim_start s = [] /\ forallb is_js_ws s = true \/
  exists c s', trim_start s = c :: s' /\ is_js_ws c = false /\ forallb is_js_ws s = false.
Proof.
  induction s as [|c s IH]; simpl; [left; auto|].
  destruct (is_js_ws c) eqn:E; simpl.
  - exact IH.
  - right. exists c, s. auto.
Qed.

Lemma trim_start_nil : forall s, trim_start s = [] <-> forallb is_js_ws s = true.
Proof.
  intros s. destruct (trim_start_spec s) as [[H1 H2]|(c & s' & H1 & H2 & H3)];
    rewrite H1; [tauto|]. split; congruence.
Qed.

Lemma forallb_rev : forall {A} (f : A -> bool) l, forallb f (rev l) = forallb f l.
Proof.
  intros A f l. induction l as [|x l IH]; simpl; [reflexivity|].
  rewrite forallb_app, IH. simpl. rewrite andb_true_r, andb_comm. reflexivity.
Qed.

Lemma forallb_trim_start : forall s, forallb is_js_ws (trim_start s) = forallb is_js_ws s.
Proof.
  intros s. destruct (trim_start_spec s) as [[H1 H2]|(c & s' & H1 & H2 & H3)];
    rewrite H1, ?H2, ?H3; simpl; [reflexivity|]. rewrite H2. reflexivity.
Qed.

(** A token is kept by [filter(arg => arg.trim())] exactly when it holds a
    code unit that is not JS whitespace. *)
Lemma truthy_trim : forall s,
  truthy (trim s) = existsb (fun c => negb (is_js_ws c)) s.
Proof.
  intros s.
  assert (Hneg : existsb (fun c => negb (is_js_ws c)) s = negb (forallb is_js_ws s)).
  { induction s as [|c s IH]; simpl; [reflexivity|]. rewrite IH, negb_andb. reflexivity. }
  rewrite Hneg. unfold trim.
  destruct (trim_start (rev (trim_start s))) as [|c l] eqn:E.
  - apply trim_start_nil in E. rewrite forallb_rev, forallb_trim_start in E.
    simpl. rewrite E. reflexivity.
  - assert (Ht : truthy (rev (c :: l)) = true).
    { simpl. destruct (rev l); reflexivity. }
    rewrite Ht.
    destruct (forallb is_js_ws s) eqn:Es; [|reflexivity].
    rewrite <- forallb_trim_start, <- forallb_rev in Es. apply trim_start_nil in Es. congruence.
Qed.

Lemma in_firstn : forall {A} n (l : list A) x, In x (firstn n l) -> In x l.
Proof. intros A n l x H. rewrite <- (firstn_skipn n l). apply in_or_app. auto. Qed.

Lemma firstn_length_le : forall {A} n (l : list A), (length (firstn n l) <= n)%nat.
Proof. intros A n l. rewrite length_firstn. lia. Qed.

(** C9 (as amended): [validateArgs s] throws [INVALID_ARGS] whenever [s]
    holds a character of the class [;&|`$(){}[]<>'], a double quote or a
    backslash, whatever its length.  Otherwise it returns the first 20 of
    the space-separated tokens of [s] that hold a character other than JS
    whitespace, each cut to its first 100 characters and otherwise left as
    it is (not trimmed).  The tokens are the pieces of [s] between single
    spaces.  The result has at most 20 tokens of at most 100 characters. *)
Theorem validateArgs_spec : forall s,
  (existsb is_dangerous s = true ->
     validateArgs s = inl INVALID_ARGS_contains_dangerous_characters) /\
  (existsb is_dangerous s = false ->
     validateArgs s = inr (firstn 20 (map (firstn 100)
        (filter (fun t => existsb (fun c => negb (is_js_ws c)) t) (split_on 32 s))))) /\
  JsBuiltins.join [32] (split_on 32 s) = s /\
  Forall (fun t => ~ In 32 t) (split_on 32 s) /\
  (forall r, validateArgs s = inr r ->
     (length r <= 20)%nat /\ Forall (fun t => (length t <= 100)%nat) r).
Proof.
  intros s. split; [|split; [|split; [|split]]].
  - intros H. unfold validateArgs. rewrite H. reflexivity.
  - intros H. unfold validateArgs. rewrite H. do 3 f_equal.
    apply filter_ext. intros t. apply truthy_trim.
  - apply split_on_join.
  - apply split_on_no_sep.
  - intros r H. unfold validateArgs in H. destruct (existsb is_dangerous s); [discriminate|].
    set (ts := filter (fun arg => truthy (trim arg)) (split_on 32 s)) in H.
    assert (Hr : r = firstn 20 (map (fun arg => firstn 100 arg) ts)) by congruence.
    subst r. split; [apply firstn_length_le|].
    apply Forall_forall. intros t Ht. apply in_firstn in Ht. apply in_map_iff in Ht as (t' & <- & _).
    apply firstn_length_le.
Qed.

(** C9 as stated fails: a whitespace-only token that is not empty, here a
    TAB between two spaces, is dropped. *)
Lemma validateArgs_claim_counterexample :
  split_on 32 (js "a " ++ [9] ++ js " b") = [js "a"; [9]; js "b"] /\
  validateArgs (js "a " ++ [9] ++ js " b") = inr [js "a"; js "b"].
Proof. split; vm_compute; reflexivity. Qed.

End Validation.

(** ** Package resolution and the quality gate ([packages.ts]) *)

Module Packages.
Import Validation.

(** [packageData] of a detection result. *)
Record PackageData := mkPackageData {
  name : list Z;
  version : option (list Z);
  description : option (list Z)
}.

(** A registry response body, as far as the type guards and the code read
    it.  [NPMPackageInfo] is a body [isNPMPackageInfo] accepts (its
    [dist-tags.latest] may be missing), [PyPIPackageInfo] one
    [isPyPIPackageInfo] accepts, with the [upload_time] of its release
    files, [NPMDownloadStats] one [isNPMDownloadStats] accepts, with its
    daily counts; [OtherJSON] is JSON the guards reject and [NotJSON] a
    body on which [response.json()] throws. *)
Inductive Body :=
| NPMPackageInfo (n : list Z) (latest : option (list Z)) (d : option (list Z))
| PyPIPackageInfo (n v : list Z) (d : option (list Z)) (upload_times : list (list Z))
| NPMDownloadStats (daily : list Z)
| OtherJSON
| NotJSON.

(** The outcome of [fetch(url, {signal: AbortSignal.timeout(HTTP_TIMEOUT)})]:
    a response, or a rejection (network error, timeout). *)
Inductive FetchResult :=
| Response (status : Z) (body : Body)
| NetworkError.

(** The error messages the resolver throws and [validatePackage] reports. *)
Inductive PackageError := REMOTE_SERVER_NOT_SUPPORTED | PACKAGE_NOT_FOUND | VALIDATION_ERROR.

Definition npm_url (base : list Z) : list Z := js "https://registry.npmjs.org/" ++ base.
Definition pypi_url (base : list Z) : list Z := js "https://pypi.org/pypi/" ++ base ++ js "/json".
Definition downloads_url (base : list Z) : list Z :=
  js "https://api.npmjs.org/downloads/range/last-month/" ++ base.

(** [packageName.split('@')[0]] *)
Definition basePackageName (packageName : list Z) : list Z := hd [] (split_on 64 packageName).

(** [detectPackageType], against the registries seen through [fetch]; it
    returns the outcome ([inl] for a thrown error) and the URLs it fetched,
    in order.  A 200 response whose body the type guard rejects throws
    inside the [try] and falls through to the next registry, as any other
    failure does. *)
Definition detectPackageType (fetch : list Z -> FetchResult) (packageName : list Z)
  : (PackageError + (MCPProxy.PackageType * PackageData)) * list (list Z) :=
  if isRemoteServer packageName then (inl REMOTE_SERVER_NOT_SUPPORTED, [])
  else
    let base := basePackageName packageName in
    let pypi :=
      match fetch (pypi_url base) with
      | Response status (PyPIPackageInfo n v d _) =>
        if status =? 200 then inr (MCPProxy.Python, mkPackageData n (Some v) d)
        else inl PACKAGE_NOT_FOUND
      | _ => inl PACKAGE_NOT_FOUND
      end in
    match fetch (npm_url base) with
    | Response status (NPMPackageInfo n latest d) =>
      if status =? 200 then (inr (MCPProxy.Npm, mkPackageData n latest d), [npm_url base])
      else (pypi, [npm_url base; pypi_url base])
    | _ => (pypi, [npm_url base; pypi_url base])
    end.

Inductive ResultType := TNpm | TPython | TRemote | TUnknown.

(** [PackageValidationResult]; the free-text [reason] and [message] are
    left out. *)
Record PackageValidationResult := mkResult {
  valid : bool;
  type : ResultType;
  error : option PackageError
}.

Fixpoint cache_get (k : list Z) (m : list (list Z * PackageValidationResult))
  : option PackageValidationResult :=
  match m with
  | [] => None
  | (k', v) :: m' => if list_eq_dec Z.eq_dec k k' then Some v else cache_get k m'
  end.

Definition cache_set (k : list Z) (v : PackageValidationResult)
  (m : list (list Z * PackageValidationResult)) : list (list Z * PackageValidationResult) :=
  match cache_get k m with
  | Some _ => map (fun e => if list_eq_dec Z.eq_dec (fst e) k then (k, v) else e) m
  | None => m ++ [(k, v)]
  end.

(** [Boolean(packageData.description && packageData.description.length > 10)] *)
Definition hasDescription (d : option (list Z)) : bool :=
  match d with
  | Some s => (10 <? length s)%nat
  | None => false
  end.

(** [extractDownloadCount]: the sum of the daily counts. *)
Definition extractDownloadCount (daily : list Z) : Z := fold_left Z.add daily 0.

(** [validatePackage] with its [downloadCache]; it returns the result and
    the cache afterwards.  Errors caught by the outer [catch] are not
    cached. *)
Definition validatePackage (fetch : list Z -> FetchResult) (packageName : list Z)
  (downloadCache : list (list Z * PackageValidationResult))
  : PackageValidationResult * list (list Z * PackageValidationResult) :=
  let failed (e : PackageError) :=
    (mkResult false (match e with REMOTE_SERVER_NOT_SUPPORTED => TRemote | _ => TUnknown end)
              (Some e), downloadCache) in
  let store (r : PackageValidationResult) := (r, cache_set packageName r downloadCache) in
  match cache_get packageName downloadCache with
  | Some cached => (cached, downloadCache)
  | None =>
    match fst (detectPackageType fetch packageName) with
    | inl e => failed e
    | inr (MCPProxy.Npm, _) =>
      match fetch (downloads_url (basePackageName packageName)) with
      | NetworkError => failed VALIDATION_ERROR
      | Response status body =>
        if status =? 200 then
          match body with
          | NPMDownloadStats daily => store (mkResult (100 <=? extractDownloadCount daily) TNpm None)
          | _ => failed VALIDATION_ERROR
          end
        else store (mkResult false TNpm None)
      end
    | inr (MCPProxy.Python, packageData) =>
      store (mkResult (hasDescription (description packageData)) TPython None)
    end
  end.

(** Modelled from the spec: the package identifier with its version suffix
    stripped, the version being the substring after the last [@] that is
    not at position 0. *)
Fixpoint last_at_from (s : list Z) (i : nat) : option nat :=
  match s with
  | [] => None
  | c :: s' =>
    match last_at_from s' (S i) with
    | Some j => Some j
    | None => if (c =? 64) && negb (Nat.eqb i 0) then Some i else None
    end
  end.

Definition spec_base_name (packageName : list Z) : list Z :=
  match last_at_from packageName 0 with
  | Some i => firstn i packageName
  | None => packageName
  end.

(** *** Lemmas *)

Lemma basePackageName_scoped : forall s, basePackageName (64 :: s) = [].
Proof. intros s. reflexivity. Qed.

Lemma detect_remote : forall fetch packageName,
  isRemoteServer packageName = true ->
  detectPackageType fetch packageName = (inl REMOTE_SERVER_NOT_SUPPORTED, []).
Proof. intros fetch packageName H. unfold detectPackageType. rewrite H. reflexivity. Qed.

Lemma detect_probes : forall fetch packageName,
  isRemoteServer packageName = false ->
  snd (detectPackageType fetch packageName) = [npm_url (basePackageName packageName)] \/
  snd (detectPackageType fetch packageName) =
    [npm_url (basePackageName packageName); pypi_url (basePackageName packageName)].
Proof.
  intros fetch packageName H. unfold detectPackageType. rewrite H.
  destruct (fetch (npm_url _)) as [status [| | | |]|]; auto.
  destruct (status =? 200); auto.
Qed.

Lemma detect_base : forall fetch p1 p2,
  isRemoteServer p1 = false -> isRemoteServer p2 = false ->
  basePackageName p1 = basePackageName p2 ->
  detectPackageType fetch p1 = detectPackageType fetch p2.
Proof.
  intros fetch p1 p2 H1 H2 Hb. unfold detectPackageType. rewrite H1, H2, Hb. reflexivity.
Qed.

Lemma contains_existsb : forall pat packageName,
  In pat [js ".com"; js ".org"; js ".net"; js ".io"; js "mcp-remote"] ->
  contains pat packageName = true -> isRemoteServer packageName = true.
Proof.
  intros pat packageName Hin H. unfold isRemoteServer, urlPatterns.
  apply existsb_exists.
  destruct Hin as [<-|[<-|[<-|[<-|[<-|[]]]]]];
    [exists (contains (js ".com")) | exists (contains (js ".org")) | exists (contains (js ".net"))
    | exists (contains (js ".io")) | exists (contains (js "mcp-remote"))];
    split; auto; simpl; tauto.
Qed.

(** C3 (as amended): for a package the resolver detects as a Python
    package (and that is not in the cache), [validatePackage] passes it exactly when
    the PyPI description is longer than 10 characters (UTF-16 code units);
    the release records ([upload_time]s) are not read, so a package with a
    long description and no recent release passes.  The verdict is cached. *)
Theorem validatePackage_python : forall fetch cache packageName data probes,
  cache_get packageName cache = None ->
  detectPackageType fetch packageName = (inr (MCPProxy.Python, data), probes) ->
  validatePackage fetch packageName cache =
    (mkResult (hasDescription (description data)) TPython None,
     cache_set packageName (mkResult (hasDescription (description data)) TPython None) cache) /\
  (valid (fst (validatePackage fetch packageName cache)) = true <->
     exists d, description data = Some d /\ (10 < length d)%nat).
Proof.
  intros fetch cache packageName data probes Hc Hd.
  assert (E : validatePackage fetch packageName cache =
    (mkResult (hasDescription (description data)) TPython None,
     cache_set packageName (mkResult (hasDescription (description data)) TPython None) cache)).
  { unfold validatePackage. rewrite Hc, Hd. reflexivity. }
  split; [exact E|]. rewrite E. cbn [fst valid]. unfold hasDescription.
  destruct (description data) as [d|].
  - rewrite Nat.ltb_lt. split; [intros H; exists d; auto | intros (d' & Hd' & H); congruence].
  - split; [discriminate | intros (d' & Hd' & _); discriminate].
Qed.

(** C3 as stated fails: a Python package with a long description and no
    release record at all passes [validatePackage]. *)
Definition old_pypi_package : FetchResult :=
  Response 200 (PyPIPackageInfo (js "old-mcp-server") (js "0.0.1")
                  (Some (js "An MCP server that has not been released since 2019")) []).

Definition pypi_only_fetch (url : list Z) : FetchResult :=
  if list_eq_dec Z.eq_dec url (pypi_url (js "old-mcp-server")) then old_pypi_package
  else Response 404 NotJSON.

Lemma validatePackage_claim_counterexample :
  fst (validatePackage pypi_only_fetch (js "old-mcp-server") []) = mkResult true TPython None.
Proof. vm_compute. reflexivity. Qed.

(** C4 (the code diverges from the stated resolution): for a scoped
    identifier ([@] first), [packageName.split('@')[0]] is the empty
    string.  The resolver then probes [https://registry.npmjs.org/] and
    [https://pypi.org/pypi//json], with no package name, and every scoped
    identifier resolves the same way.  The version stripping the spec
    defines keeps the scoped name: [@org/pkg] for both [@org/pkg] and
    [@org/pkg@1.2.3]. *)
Theorem detectPackageType_scoped : forall fetch s s',
  isRemoteServer (64 :: s) = false -> isRemoteServer (64 :: s') = false ->
  (snd (detectPackageType fetch (64 :: s)) = [npm_url []] \/
   snd (detectPackageType fetch (64 :: s)) = [npm_url []; pypi_url []]) /\
  detectPackageType fetch (64 :: s) = detectPackageType fetch (64 :: s') /\
  spec_base_name (js "@org/pkg") = js "@org/pkg" /\
  spec_base_name (js "@org/pkg@1.2.3") = js "@org/pkg".
Proof.
  intros fetch s s' H1 H2. split; [|split; [|split]].
  - rewrite <- (basePackageName_scoped s). apply detect_probes. exact H1.
  - apply detect_base; auto.
  - reflexivity.
  - reflexivity.
Qed.

(** C10: [isRemoteServer] holds for every identifier that contains one of
    [.com], [.org], [.net], [.io] or [mcp-remote] anywhere, and the resolver
    then throws [REMOTE_SERVER_NOT_SUPPORTED] without probing a registry;
    an uncached [validatePackage] reports it as a remote server. *)
Theorem isRemoteServer_substrings : forall pat packageName fetch cache,
  In pat [js ".com"; js ".org"; js ".net"; js ".io"; js "mcp-remote"] ->
  contains pat packageName = true ->
  isRemoteServer packageName = true /\
  detectPackageType fetch packageName = (inl REMOTE_SERVER_NOT_SUPPORTED, []) /\
  (cache_get packageName cache = None ->
   validatePackage fetch packageName cache =
     (mkResult false TRemote (Some REMOTE_SERVER_NOT_SUPPORTED), cache)).
Proof.
  intros pat packageName fetch cache Hin Hc.
  pose proof (contains_existsb pat packageName Hin Hc) as Hr.
  pose proof (detect_remote fetch packageName Hr) as Hd.
  split; [exact Hr|split; [exact Hd|]].
  intros Hn. unfold validatePackage. rewrite Hn, Hd. reflexivity.
Qed.

End Packages.

(** ** The [POST /mcp] entry point ([mcp-handler.ts]) *)

Module MCPHandler.

Local Set Warnings "-register-all".

(** A parsed JSON value; an object is its list of members, with the
    distinct keys [JSON.parse] leaves. *)
Inductive JSON :=
| JNull
| JBool (b : bool)
| JNum (n : Z)
| JStr (s : list Z)
| JArr (items : list JSON)
| JObj (members : list (list Z * JSON)).

(** [MCPErrorCodes] *)
Definition INVALID_PARAMS : Z := -32602.
Definition PARSE_ERROR : Z := -32700.

(** Reading a property: [None] is [undefined]; reading a property of
    [null] throws, which is kept apart by the caller. *)
Definition prop (v : JSON) (k : list Z) : option JSON :=
  match v with
  | JObj members =>
    match find (fun m => if list_eq_dec Z.eq_dec (fst m) k then true else false) members with
    | Some (_, x) => Some x
    | None => None
    end
  | _ => None
  end.

(** [x ?? null] *)
Definition nullish_null (x : option JSON) : JSON :=
  match x with
  | Some JNull | None => JNull
  | Some y => y
  end.

(** [createMCPErrorResponse(id, MCPErrorResponses.invalidParams(message))]
    as [c.json] serialises it: the [data] member is [undefined] and
    [JSON.stringify] leaves it out. *)
Definition invalidParamsResponse (id : JSON) (message : list Z) : JSON :=
  JObj [(js "jsonrpc", JStr (js "2.0")); (js "id", id);
        (js "error", JObj [(js "code", JNum INVALID_PARAMS); (js "message", JStr message)])].

(** What [handleMCPRequest] returns: a JSON response with its status, or
    the request handed to the method router (not modelled further). *)
Inductive Reply :=
| JsonReply (status : Z) (body : JSON)
| Routed (method : option JSON) (request : JSON).

(** [handleMCPRequest]; [body] is the outcome of [await c.req.json()], [None]
    when the body is not valid JSON (the call throws). *)
Definition handleMCPRequest (body : option JSON) : Reply :=
  let parseFailure := JsonReply 400 (invalidParamsResponse JNull (js "Invalid JSON format")) in
  match body with
  | None => parseFailure
  | Some JNull => parseFailure    (* [request.jsonrpc] throws a TypeError *)
  | Some request =>
    match prop request (js "jsonrpc") with
    | Some (JStr v) =>
      if list_eq_dec Z.eq_dec v (js "2.0") then Routed (prop request (js "method")) request
      else JsonReply 400 (invalidParamsResponse (nullish_null (prop request (js "id")))
             (js "Invalid JSON-RPC version. Expected " ++ [34] ++ js "2.0" ++ [34]))
    | _ =>
      JsonReply 400 (invalidParamsResponse (nullish_null (prop request (js "id")))
        (js "Invalid JSON-RPC version. Expected " ++ [34] ++ js "2.0" ++ [34]))
    end
  end.

(** C7 (as amended): a [POST /mcp] body that is not valid JSON gets HTTP
    status 400 and the JSON-RPC error envelope with id [null], error code
    -32602 ([INVALID_PARAMS], not [PARSE_ERROR]) and message
    [Invalid JSON format].  A body that is the JSON literal [null] gets the
    same reply. *)
Theorem handleMCPRequest_malformed : forall body,
  body = None \/ body = Some JNull ->
  handleMCPRequest body =
    JsonReply 400 (JObj [(js "jsonrpc", JStr (js "2.0")); (js "id", JNull);
                         (js "error", JObj [(js "code", JNum (-32602));
                                            (js "message", JStr (js "Invalid JSON format"))])]).
Proof. intros body [-> | ->]; reflexivity. Qed.

(** C7 as stated fails: the error code of the reply to a malformed body is
    -32602, not [PARSE_ERROR] (-32700). *)
Lemma handleMCPRequest_claim_counterexample :
  exists envelope, handleMCPRequest None = JsonReply 400 envelope /\
    prop envelope (js "error") =
      Some (JObj [(js "code", JNum INVALID_PARAMS); (js "message", JStr (js "Invalid JSON format"))]) /\
    INVALID_PARAMS <> PARSE_ERROR.
Proof.
  eexists. split; [reflexivity|]. split; [reflexivity|]. unfold INVALID_PARAMS, PARSE_ERROR. lia.
Qed.

End MCPHandler.

(** ** Concrete inputs for the validation, resolution and entry point *)

Module ServiceExamples.
Import Validation Packages MCPHandler.

Lemma validateArgs_spec_witness :
  validateArgs (js "--verbose  --port 8080") = inr [js "--verbose"; js "--port"; js "8080"] /\
  validateArgs (js "--name x;rm") = inl INVALID_ARGS_contains_dangerous_characters.
Proof.
  split.
  - rewrite (proj1 (proj2 (validateArgs_spec (js "--verbose  --port 8080"))) eq_refl).
    vm_compute. reflexivity.
  - exact (proj1 (validateArgs_spec (js "--name x;rm")) eq_refl).
Defined.

Lemma validatePackage_python_witness :
  fst (validatePackage pypi_only_fetch (js "old-mcp-server") []) = mkResult true TPython None /\
  valid (fst (validatePackage pypi_only_fetch (js "old-mcp-server") [])) = true.
Proof.
  destruct (validatePackage_python pypi_only_fetch [] (js "old-mcp-server")
              (mkPackageData (js "old-mcp-server") (Some (js "0.0.1"))
                 (Some (js "An MCP server that has not been released since 2019")))
              [npm_url (js "old-mcp-server"); pypi_url (js "old-mcp-server")]
              eq_refl ltac:(vm_compute; reflexivity)) as [E Hv].
  split.
  - rewrite E. reflexivity.
  - apply Hv. eexists. split; [reflexivity|]. vm_compute. lia.
Defined.

(** A registry that holds [@org/pkg] on npm, and nothing else. *)
Definition scoped_fetch (url : list Z) : FetchResult :=
  if list_eq_dec Z.eq_dec url (npm_url (js "@org/pkg"))
  then Response 200 (NPMPackageInfo (js "@org/pkg") (Some (js "1.2.3")) None)
  else Response 404 NotJSON.

Lemma detectPackageType_scoped_witness :
  snd (detectPackageType scoped_fetch (js "@org/pkg")) = [npm_url []; pypi_url []] /\
  fst (detectPackageType scoped_fetch (js "@org/pkg")) = inl PACKAGE_NOT_FOUND /\
  detectPackageType scoped_fetch (js "@org/pkg") = detectPackageType scoped_fetch (js "@other/thing").
Proof.
  destruct (detectPackageType_scoped scoped_fetch (js "org/pkg") (js "other/thing")
              ltac:(vm_compute; reflexivity) ltac:(vm_compute; reflexivity))
    as (_ & He & _ & _).
  split; [|split].
  - vm_compute. reflexivity.
  - vm_compute. reflexivity.
  - exact He.
Defined.

Lemma isRemoteServer_substrings_witness :
  isRemoteServer (js "socket.io") = true /\
  detectPackageType scoped_fetch (js "socket.io") = (inl REMOTE_SERVER_NOT_SUPPORTED, []) /\
  validatePackage scoped_fetch (js "socket.io") [] =
    (mkResult false TRemote (Some REMOTE_SERVER_NOT_SUPPORTED), []).
Proof.
  destruct (isRemoteServer_substrings (js ".io") (js "socket.io") scoped_fetch []
              ltac:(simpl; tauto) ltac:(vm_compute; reflexivity)) as (H1 & H2 & H3).
  split; [exact H1|split; [exact H2|]]. apply H3. reflexivity.
Defined.

Lemma handleMCPRequest_malformed_witness :
  handleMCPRequest None =
    JsonReply 400 (JObj [(js "jsonrpc", JStr (js "2.0")); (js "id", JNull);
                         (js "error", JObj [(js "code", JNum (-32602));
                                            (js "message", JStr (js "Invalid JSON format"))])]).
Proof. apply handleMCPRequest_malformed. left. reflexivity. Defined.

End ServiceExamples.

(** ** Further properties of the framer *)

Module ParserProps.
Import Framer.

(** The parser's output does not depend on how the byte stream is cut
    into chunks: feeding the chunks one by one to a fresh parser emits the
    same messages, in the same order, and leaves the same buffer as feeding
    their concatenation in one call.  This holds for every stream, framed
    or not. *)
Theorem feed_all_chunking : forall (J : Type) (deserialize : list Z -> option J) chunks,
  feed_all J deserialize [] chunks = feed J deserialize [] (concat chunks).
Proof.
  intros J deserialize [|c cs].
  - reflexivity.
  - rewrite feed_all_cons. reflexivity.
Qed.

Lemma drain_full_suffix : forall (J : Type) (deserialize : list Z -> option J) b,
  exists p, b = p ++ snd (drain_full J deserialize b).
Proof.
  intros J deserialize b. remember (length b) as n eqn:Hn. revert b Hn.
  induction n as [n IH] using lt_wf_ind. intros b Hn.
  rewrite drain_full_eq.
  destruct (index_of_sep b) as [he|] eqn:E; [|exists []; reflexivity].
  pose proof (index_of_sep_bound _ _ E).
  destruct (header_len (firstn he b)) as [len|] eqn:Hl.
  - pose proof (header_len_nonneg _ _ Hl).
    destruct (Z.of_nat (length b) <? Z.of_nat (he + 4) + len); [exists []; reflexivity|].
    cbv zeta.
    set (k := Z.to_nat (Z.of_nat (he + 4) + len)).
    assert (Hlt : (length (skipn k b) < n)%nat) by (unfold k; rewrite length_skipn; lia).
    destruct (IH _ Hlt _ eq_refl) as [p Hp].
    destruct (deserialize _).
    + destruct (drain_full J deserialize (skipn k b)) as [ev r] eqn:Ed. cbn [snd] in *.
      exists (firstn k b ++ p). rewrite <- app_assoc, <- Hp. symmetry. apply firstn_skipn.
    + exists (firstn k b ++ p). rewrite <- app_assoc, <- Hp. symmetry. apply firstn_skipn.
  - assert (Hlt : (length (skipn (he + 4) b) < n)%nat) by (rewrite length_skipn; lia).
    destruct (IH _ Hlt _ eq_refl) as [p Hp].
    exists (firstn (he + 4) b ++ p). rewrite <- app_assoc, <- Hp. symmetry. apply firstn_skipn.
Qed.

(** The parser never invents or reorders bytes: after [feed(chunk)] its
    buffer is a suffix of the old buffer followed by the chunk; what it
    dropped is exactly the bytes in front of that suffix. *)
Theorem feed_buffer_suffix : forall (J : Type) (deserialize : list Z -> option J) st chunk,
  exists consumed, st ++ chunk = consumed ++ snd (feed J deserialize st chunk).
Proof. intros J deserialize st chunk. apply drain_full_suffix. Qed.

End ParserProps.

(** ** The other checks of [validation.ts] *)

Module ValidationOps.
Import Validation MCPHandler.

(** [SERVER_CONFIG] limits *)
Definition maxPackageNameLength : nat := 200.
Definition maxParamKeyLength : nat := 100.
Definition maxParamValueLength : nat := 1000.

Definition in_range (lo hi c : Z) : bool := (lo <=? c) && (c <=? hi).

(** [[a-zA-Z0-9_]] *)
Definition is_word_char (c : Z) : bool :=
  in_range 97 122 c || in_range 65 90 c || in_range 48 57 c || (c =? 95).

(** [String.prototype.toUpperCase] on a code unit of [[a-zA-Z0-9_]]; these
    are the only code units [sanitizeEnvKey] upper-cases. *)
Definition to_upper_word (c : Z) : Z := if in_range 97 122 c then c - 32 else c.

(** [sanitizeEnvKey]; [None] is [null].  The key is a string here, as at
    its only call site. *)
Definition sanitizeEnvKey (key : list Z) : option (list Z) :=
  if negb (truthy key) || (maxParamKeyLength <? length key)%nat then None
  else
    let envKey := map to_upper_word (map (fun c => if is_word_char c then c else 95) key) in
    match envKey with
    | c :: _ => if in_range 65 90 c || (c =? 95) then Some envKey else None
    | [] => None
    end.

(** [!value]: the falsy JSON values ([NaN] is not a JSON value). *)
Definition falsy (v : JSON) : bool :=
  match v with
  | JNull | JBool false | JNum 0 | JStr [] => true
  | _ => false
  end.

(** [sanitizeEnvValue]; its character class holds the same sixteen
    characters as the one of [validateArgs], the set [is_dangerous] tests. *)
Definition sanitizeEnvValue (value : JSON) : list Z :=
  if falsy value then []
  else match value with
       | JStr s =>
         let sanitizedValue :=
           if (maxParamValueLength <? length s)%nat then firstn maxParamValueLength s else s in
         filter (fun c => negb (is_dangerous c)) sanitizedValue
       | _ => []
       end.

Inductive InputError := param_key_too_long | param_value_too_long.

(** [validateInputLimits]: [None] when it returns, the first error thrown
    otherwise. *)
Fixpoint validateInputLimits (params : list (list Z * JSON)) : option InputError :=
  match params with
  | [] => None
  | (key, value) :: ps =>
    if (maxParamKeyLength <? length key)%nat then Some param_key_too_long
    else match value with
         | JStr s => if (maxParamValueLength <? length s)%nat then Some param_value_too_long
                     else validateInputLimits ps
         | _ => validateInputLimits ps
         end
  end.

Inductive NameError :=
| empty_or_invalid_type | too_long | invalid_format | path_traversal | shell_metacharacters.

(** [[a-z0-9-~]] and [[a-z0-9-._~]]: a dash after a range is a literal. *)
Definition name_first (c : Z) : bool :=
  in_range 97 122 c || in_range 48 57 c || (c =? 45) || (c =? 126).
Definition name_rest (c : Z) : bool := name_first c || (c =? 46) || (c =? 95).

(** [[a-z0-9-~][a-z0-9-._~]*] matching a whole piece *)
Definition name_part (s : list Z) : bool :=
  match s with
  | c :: t => name_first c && forallb name_rest t
  | [] => false
  end.

(** [/^(@[a-z0-9-~][a-z0-9-._~]*\/)?[a-z0-9-~][a-z0-9-._~]*$/.test(s)]:
    neither piece may hold [/] or [@], so a match with the group cuts [s]
    at its first [/]; without the group, [s] cannot start with [@]. *)
Definition validPattern (s : list Z) : bool :=
  name_part s ||
  match s with
  | 64 :: t =>
    match split_on 47 t with
    | [scope; rest] => name_part scope && name_part rest
    | _ => false
    end
  | _ => false
  end.

(** [validatePackageName]; the argument is any JSON value, [inl] a thrown
    [ValidationError]. *)
Definition validatePackageName (packageName : JSON) : NameError + list Z :=
  match packageName with
  | JStr s =>
    if negb (truthy s) then inl empty_or_invalid_type
    else if (maxPackageNameLength <? length s)%nat then inl too_long
    else
      let basePackageName :=
        JsBuiltins.join [64] (firstn (if starts_with [64] s then 2 else 1) (split_on 64 s)) in
      if negb (validPattern basePackageName) then inl invalid_format
      else if contains (js "..") s || contains (js "/./") s || contains [92] s then inl path_traversal
      else if existsb is_dangerous s then inl shell_metacharacters
      else inr s
  | _ => inl empty_or_invalid_type
  end.

(** *** Lemmas *)

Lemma forallb_filter_neg : forall (f : Z -> bool) l, forallb (fun c => negb (f c)) (filter (fun c => negb (f c)) l) = true.
Proof.
  intros f l. induction l as [|c l IH]; simpl; [reflexivity|].
  destruct (f c) eqn:E; simpl; [exact IH|]. rewrite E, IH. reflexivity.
Qed.

Lemma filter_id_forallb : forall (f : Z -> bool) l, forallb f l = true -> filter f l = l.
Proof.
  intros f l. induction l as [|c l IH]; simpl; [reflexivity|].
  intros H. apply andb_true_iff in H as [H1 H2]. rewrite H1, IH; auto.
Qed.

Lemma length_filter_le : forall (f : Z -> bool) l, (length (filter f l) <= length l)%nat.
Proof.
  intros f l. induction l as [|c l IH]; simpl; [lia|]. destruct (f c); simpl; lia.
Qed.

Lemma sanitizeEnvValue_str : forall s,
  sanitizeEnvValue (JStr s) = filter (fun c => negb (is_dangerous c)) (firstn maxParamValueLength s).
Proof.
  intros s. unfold sanitizeEnvValue.
  destruct s as [|c t]; [reflexivity|]. cbn [falsy].
  destruct (Nat.ltb_spec maxParamValueLength (length (c :: t))); [reflexivity|].
  rewrite firstn_all2 by lia. reflexivity.
Qed.

Lemma word_map_shape : forall key,
  Forall (fun c => in_range 65 90 c = true \/ in_range 48 57 c = true \/ c = 95)
    (map to_upper_word (map (fun c => if is_word_char c then c else 95) key)).
Proof.
  intros key. apply Forall_forall. intros c Hc.
  rewrite map_map in Hc. apply in_map_iff in Hc as (x & <- & _).
  unfold to_upper_word, is_word_char, in_range.
  destruct ((97 <=? x) && (x <=? 122) || (65 <=? x) && (x <=? 90) || (48 <=? x) && (x <=? 57)
            || (x =? 95)) eqn:W.
  - rewrite !orb_true_iff, !andb_true_iff, !Z.leb_le, Z.eqb_eq in W.
    destruct ((97 <=? x) && (x <=? 122)) eqn:L.
    + rewrite andb_true_iff, !Z.leb_le in L. rewrite andb_true_iff, !Z.leb_le. lia.
    + rewrite andb_false_iff, !Z.leb_gt in L. rewrite !andb_true_iff, !Z.leb_le. lia.
  - simpl. auto.
Qed.

Lemma env_head : forall c,
  (in_range 65 90 (to_upper_word (if is_word_char c then c else 95)) ||
   (to_upper_word (if is_word_char c then c else 95) =? 95)) = negb (in_range 48 57 c).
Proof.
  intros c. unfold to_upper_word, is_word_char, in_range.
  destruct ((97 <=? c) && (c <=? 122) || (65 <=? c) && (c <=? 90) || (48 <=? c) && (c <=? 57)
            || (c =? 95)) eqn:W.
  - rewrite !orb_true_iff, !andb_true_iff, !Z.leb_le, Z.eqb_eq in W.
    destruct ((97 <=? c) && (c <=? 122)) eqn:L.
    + rewrite andb_true_iff, !Z.leb_le in L.
      destruct (Z.leb_spec 65 (c - 32)), (Z.leb_spec (c - 32) 90), (Z.leb_spec 48 c),
        (Z.leb_spec c 57), (Z.eqb_spec (c - 32) 95); simpl; lia.
    + rewrite andb_false_iff, !Z.leb_gt in L.
      destruct (Z.leb_spec 65 c), (Z.leb_spec c 90), (Z.leb_spec 48 c),
        (Z.leb_spec c 57), (Z.eqb_spec c 95); simpl; lia.
  - rewrite !orb_false_iff, !andb_false_iff, !Z.leb_gt, Z.eqb_neq in W.
    destruct (Z.leb_spec 48 c), (Z.leb_spec c 57); simpl; [lia| | |]; reflexivity.
Qed.

Lemma word_map_id : forall l,
  Forall (fun c => in_range 65 90 c = true \/ in_range 48 57 c = true \/ c = 95) l ->
  map to_upper_word (map (fun c => if is_word_char c then c else 95) l) = l.
Proof.
  induction l as [|c l IH]; intros H; [reflexivity|]. inversion H as [|? ? Hc Hl]; subst.
  cbn [map]. rewrite IH by exact Hl. f_equal.
  unfold to_upper_word, is_word_char, in_range in *.
  rewrite !andb_true_iff, !Z.leb_le in Hc.
  destruct (Z.leb_spec 97 c) as [|H97]; [lia|]. cbn [andb orb].
  replace ((65 <=? c) && (c <=? 90) || (48 <=? c) && (c <=? 57) || (c =? 95)) with true.
  - apply Z.leb_gt in H97. rewrite H97. reflexivity.
  - symmetry. rewrite !orb_true_iff, !andb_true_iff, !Z.leb_le, Z.eqb_eq. lia.
Qed.

(** [sanitizeEnvKey] gives [null] exactly for the empty key, a key longer
    than 100 code units, or a key whose first character is an ASCII digit.
    Otherwise its result has the key's length, consists of [A-Z], [0-9]
    and [_] only, starts with a letter or [_], and is left unchanged by a
    second [sanitizeEnvKey]. *)
Theorem sanitizeEnvKey_spec : forall key,
  (sanitizeEnvKey key = None <->
     key = [] \/ (maxParamKeyLength < length key)%nat \/
     exists c t, key = c :: t /\ 48 <= c <= 57) /\
  (forall envKey, sanitizeEnvKey key = Some envKey ->
     length envKey = length key /\
     Forall (fun c => in_range 65 90 c = true \/ in_range 48 57 c = true \/ c = 95) envKey /\
     sanitizeEnvKey envKey = Some envKey).
Proof.
  intros key. unfold sanitizeEnvKey, maxParamKeyLength.
  destruct key as [|c t].
  - cbn. split; [tauto|]. discriminate.
  - cbn [truthy negb orb]. destruct (Nat.ltb_spec 100 (length (c :: t))).
    + split; [split; [auto|intros _; reflexivity]|discriminate].
    + cbn [map]. rewrite env_head.
      unfold in_range at 1.
      split.
      * destruct (Z.leb_spec 48 c), (Z.leb_spec c 57); simpl.
        -- split; [intros _; right; right; exists c, t; split; [reflexivity|lia]|reflexivity].
        -- split; [discriminate|]. intros [H'|[H'|(c' & t' & E & Hc)]]; [discriminate|cbn [length] in *; lia|].
           injection E as -> ->. lia.
        -- split; [discriminate|]. intros [H'|[H'|(c' & t' & E & Hc)]]; [discriminate|cbn [length] in *; lia|].
           injection E as -> ->. lia.
        -- split; [discriminate|]. intros [H'|[H'|(c' & t' & E & Hc)]]; [discriminate|cbn [length] in *; lia|].
           injection E as -> ->. lia.
      * destruct (negb (in_range 48 57 c)) eqn:Hd; [|discriminate].
        intros envKey E. injection E as <-.
        set (envKey := to_upper_word (if is_word_char c then c else 95)
                       :: map to_upper_word (map (fun c0 => if is_word_char c0 then c0 else 95) t)).
        assert (Hs : Forall (fun c => in_range 65 90 c = true \/ in_range 48 57 c = true \/ c = 95)
                       envKey).
        { pose proof (word_map_shape (c :: t)) as W. exact W. }
        split; [unfold envKey; cbn [length]; rewrite !length_map; reflexivity|].
        split; [exact Hs|].
        assert (Hlen : length envKey = length (c :: t))
          by (unfold envKey; cbn [length]; rewrite !length_map; reflexivity).
        destruct (Nat.ltb_spec 100 (length envKey)); [lia|].
        rewrite (word_map_id envKey Hs).
        assert (Hh : forall x l, envKey = x :: l -> (in_range 65 90 x || (x =? 95)) = true).
        { intros x l E. unfold envKey in E.
          injection E as Ex _. subst x.
          rewrite env_head. exact Hd. }
        destruct envKey as [|x l] eqn:Ee; [discriminate|].
        cbn [truthy negb orb]. rewrite (Hh x l eq_refl). reflexivity.
Qed.

(** [sanitizeEnvValue] returns a string without any of the characters
    [;&|`$(){}[]<>'], double quote or backslash, of at most 1000 code
    units; sanitising its result again changes nothing; and a string of at
    most 1000 code units without those characters comes back unchanged. *)
Theorem sanitizeEnvValue_spec : forall v,
  forallb (fun c => negb (is_dangerous c)) (sanitizeEnvValue v) = true /\
  (length (sanitizeEnvValue v) <= maxParamValueLength)%nat /\
  sanitizeEnvValue (JStr (sanitizeEnvValue v)) = sanitizeEnvValue v /\
  (forall s, (length s <= maxParamValueLength)%nat -> existsb is_dangerous s = false ->
     sanitizeEnvValue (JStr s) = s).
Proof.
  assert (Hstr : forall s, (length s <= maxParamValueLength)%nat ->
            sanitizeEnvValue (JStr s) = filter (fun c => negb (is_dangerous c)) s).
  { intros s Hs. rewrite sanitizeEnvValue_str, firstn_all2 by exact Hs. reflexivity. }
  assert (Hgen : forall v, exists s, sanitizeEnvValue v = filter (fun c => negb (is_dangerous c)) s
                  /\ (length s <= maxParamValueLength)%nat).
  { intros v. destruct v as [|b|n|s|l|l];
      try (exists []; split; [unfold sanitizeEnvValue; destruct (falsy _); reflexivity|cbn; lia]).
    exists (firstn maxParamValueLength s). rewrite sanitizeEnvValue_str.
    split; [reflexivity|]. rewrite length_firstn. lia. }
  intros v. destruct (Hgen v) as (s & Es & Hl). rewrite Es.
  split; [apply forallb_filter_neg|].
  split; [pose proof (length_filter_le (fun c => negb (is_dangerous c)) s); lia|].
  split.
  - rewrite Hstr by (pose proof (length_filter_le (fun c => negb (is_dangerous c)) s); lia).
    apply filter_id_forallb, forallb_filter_neg.
  - intros s' Hs' Hd. rewrite Hstr by exact Hs'. apply filter_id_forallb.
    apply forallb_forall. intros c Hc. apply negb_true_iff.
    destruct (is_dangerous c) eqn:E; [|reflexivity].
    assert (existsb is_dangerous s' = true) by (apply existsb_exists; eauto). congruence.
Qed.

(** [validateInputLimits] returns (throws nothing) exactly when every key
    has at most 100 code units and every string value at most 1000; after
    it has returned, [sanitizeEnvValue] does not cut any string value, it
    only drops the shell characters. *)
Theorem validateInputLimits_spec : forall params,
  (validateInputLimits params = None <->
   Forall (fun kv => (length (fst kv) <= maxParamKeyLength)%nat /\
                     match snd kv with
                     | JStr s => (length s <= maxParamValueLength)%nat
                     | _ => True
                     end) params) /\
  (validateInputLimits params = None ->
   forall k s, In (k, JStr s) params ->
   sanitizeEnvValue (JStr s) = filter (fun c => negb (is_dangerous c)) s).
Proof.
  intros params.
  assert (Hiff : validateInputLimits params = None <->
   Forall (fun kv => (length (fst kv) <= maxParamKeyLength)%nat /\
                     match snd kv with
                     | JStr s => (length s <= maxParamValueLength)%nat
                     | _ => True
                     end) params).
  { induction params as [|[k v] ps IH]; cbn [validateInputLimits].
    - split; auto.
    - rewrite Forall_cons_iff. cbn [fst snd].
      destruct (Nat.ltb_spec maxParamKeyLength (length k)).
      + split; [discriminate|]. intros [[Hk _] _]. lia.
      + destruct v as [|b|n|s|l|l]; try (rewrite IH; tauto).
        destruct (Nat.ltb_spec maxParamValueLength (length s)).
        * split; [discriminate|]. intros [[_ Hs] _]. lia.
        * rewrite IH. tauto. }
  split; [exact Hiff|].
  intros H k s Hin. apply Hiff in H. rewrite Forall_forall in H.
  destruct (H _ Hin) as [_ Hs]. cbn [snd] in Hs.
  rewrite sanitizeEnvValue_str, firstn_all2 by exact Hs. reflexivity.
Qed.

(** A property of every code unit of a bounded range, checked by evaluation. *)
Lemma range_check : forall (P : Z -> bool) lo n,
  forallb (fun k => P (lo + Z.of_nat k)) (seq 0 n) = true ->
  forall c, lo <= c < lo + Z.of_nat n -> P c = true.
Proof.
  intros P lo n H c Hc. rewrite forallb_forall in H.
  replace c with (lo + Z.of_nat (Z.to_nat (c - lo))) by lia.
  apply H, in_seq. lia.
Qed.

Lemma name_rest_range : forall c, name_rest c = true -> 45 <= c <= 126.
Proof.
  intros c H. unfold name_rest, name_first, in_range in H.
  rewrite !orb_true_iff, !andb_true_iff, !Z.leb_le, !Z.eqb_eq in H. lia.
Qed.

(** The code units a package-name piece may hold are none of the shell
    characters, nor [/], [@] or a backslash. *)
Lemma name_rest_safe : forall c, name_rest c = true ->
  is_dangerous c = false /\ c <> 47 /\ c <> 64 /\ c <> 92.
Proof.
  intros c H. pose proof (name_rest_range c H) as Hr.
  assert (Hc : (negb (name_rest c) ||
                (negb (is_dangerous c) && negb (c =? 47) && negb (c =? 64) && negb (c =? 92))) = true).
  { apply (range_check (fun c => negb (name_rest c) ||
             (negb (is_dangerous c) && negb (c =? 47) && negb (c =? 64) && negb (c =? 92))) 45 82);
      [vm_compute; reflexivity|lia]. }
  rewrite H in Hc. cbn [negb orb] in Hc.
  rewrite !andb_true_iff, !negb_true_iff, !Z.eqb_neq in Hc. tauto.
Qed.

Lemma name_part_rest : forall s, name_part s = true -> forallb name_rest s = true.
Proof.
  intros [|c t] H; [discriminate|]. cbn [name_part] in H. apply andb_true_iff in H as [H1 H2].
  cbn [forallb]. rewrite H2, andb_true_r. unfold name_rest. rewrite H1. reflexivity.
Qed.

Lemma contains_hd : forall x p s, contains (x :: p) s = true -> In x s.
Proof.
  intros x p s. induction s as [|c s IH]; [discriminate|].
  cbn [contains]. rewrite orb_true_iff. intros [H|H].
  - cbn [starts_with] in H. apply andb_true_iff in H as [H _]. apply Z.eqb_eq in H. left; auto.
  - right; auto.
Qed.

Lemma contains_single : forall x s, contains [x] s = true <-> In x s.
Proof.
  intros x s. split; [apply contains_hd|].
  induction s as [|c s IH]; [contradiction|]. intros [<-|H]; cbn [contains].
  - cbn [starts_with]. rewrite Z.eqb_refl. reflexivity.
  - rewrite (IH H), orb_true_r. reflexivity.
Qed.

Lemma split_on_absent : forall sep s, ~ In sep s -> split_on sep s = [s].
Proof.
  intros sep s. induction s as [|c s IH]; intros H; [reflexivity|].
  cbn [split_on]. destruct (Z.eqb_spec c sep) as [->|Hne]; [exfalso; apply H; left; auto|].
  rewrite IH by (intros Hi; apply H; right; exact Hi). reflexivity.
Qed.

Lemma forallb_name_rest_safe : forall s, forallb name_rest s = true ->
  existsb is_dangerous s = false /\ ~ In 47 s /\ ~ In 64 s /\ ~ In 92 s.
Proof.
  intros s H. rewrite forallb_forall in H.
  split; [|split; [|split]].
  - apply not_true_is_false. intros Hd. apply existsb_exists in Hd as (c & Hc & Hd).
    destruct (name_rest_safe c (H c Hc)) as [Hn _]. congruence.
  - intros Hc. destruct (name_rest_safe 47 (H 47 Hc)) as (_ & Hn & _). auto.
  - intros Hc. destruct (name_rest_safe 64 (H 64 Hc)) as (_ & _ & Hn & _). auto.
  - intros Hc. destruct (name_rest_safe 92 (H 92 Hc)) as (_ & _ & _ & Hn). auto.
Qed.

(** A name with no [@] (so no scope and no version suffix) of 1 to 200
    code units: [validatePackageName] accepts it, unchanged, exactly when it
    is one piece of [[a-z0-9-~][a-z0-9-._~]*] without [..]; a piece with
    [..] is refused as [path_traversal], anything else, a [/] included, as
    [invalid_format]. *)
Theorem validatePackageName_unscoped : forall s,
  ~ In 64 s -> (1 <= length s <= maxPackageNameLength)%nat ->
  validatePackageName (JStr s) =
    if name_part s then
      if contains (js "..") s then inl path_traversal else inr s
    else inl invalid_format.
Proof.
  intros s Hat Hlen. unfold validatePackageName.
  destruct s as [|c t]; [cbn in Hlen; lia|]. cbn [truthy negb].
  destruct (Nat.ltb_spec maxPackageNameLength (length (c :: t))); [lia|].
  rewrite split_on_absent by exact Hat.
  assert (Hc : c <> 64) by (intros ->; apply Hat; left; reflexivity).
  assert (Hs : starts_with [64] (c :: t) = false).
  { cbn [starts_with]. destruct (Z.eqb_spec 64 c); [congruence|reflexivity]. }
  rewrite Hs. cbn [firstn JsBuiltins.join].
  assert (Hv : validPattern (c :: t) = name_part (c :: t)).
  { unfold validPattern. destruct (name_part (c :: t)); [reflexivity|].
    cbn [orb]. destruct (Z.eq_dec c 64) as [->|Hne]; [congruence|].
    destruct c; try reflexivity; destruct p; try reflexivity; repeat (destruct p; try reflexivity);
      exfalso; apply Hne; reflexivity. }
  rewrite Hv.
  destruct (name_part (c :: t)) eqn:Hn; [|reflexivity]. cbn [negb].
  destruct (forallb_name_rest_safe _ (name_part_rest _ Hn)) as (Hd & H47 & _ & H92).
  assert (E1 : contains (js "/./") (c :: t) = false).
  { apply not_true_is_false. intros E. apply H47. exact (contains_hd _ _ _ E). }
  assert (E2 : contains [92] (c :: t) = false).
  { apply not_true_is_false. intros E. apply H92. exact (contains_hd _ _ _ E). }
  rewrite E1, E2, orb_false_r, orb_false_r, Hd. reflexivity.
Qed.

(** Whatever [validatePackageName] accepts is returned unchanged and is a
    string of 1 to 200 code units holding none of the shell characters
    [;&|`$(){}[]<>'], double quote or backslash, and neither [..] nor
    [/./]. *)
Theorem validatePackageName_accepted : forall v s,
  validatePackageName v = inr s ->
  v = JStr s /\ (1 <= length s <= maxPackageNameLength)%nat /\
  existsb is_dangerous s = false /\ ~ In 92 s /\
  contains (js "..") s = false /\ contains (js "/./") s = false.
Proof.
  intros v s H. unfold validatePackageName in H.
  destruct v as [|b|n|s0|l|l]; try discriminate.
  destruct (negb (truthy s0)) eqn:Ht; [discriminate|].
  destruct (Nat.ltb_spec maxPackageNameLength (length s0)); [discriminate|].
  destruct (negb (validPattern _)); [discriminate|].
  destruct (contains (js "..") s0) eqn:E1; [discriminate|].
  destruct (contains (js "/./") s0) eqn:E2; [discriminate|].
  destruct (contains [92] s0) eqn:E3; [discriminate|].
  destruct (existsb is_dangerous s0) eqn:E4; [discriminate|].
  cbn [orb] in H. injection H as <-.
  destruct s0 as [|c t]; [discriminate|].
  split; [reflexivity|]. split; [cbn [length] in *; lia|].
  split; [exact E4|]. split; [|auto].
  intros Hi. apply contains_single in Hi. congruence.
Qed.

End ValidationOps.

(** ** [parsePackageName] ([src/src/packages.ts]) *)
Module PackageNames.
Import Validation.

(** [String.prototype.lastIndexOf] of one code unit, scanning from index
    [i]; [None] is [-1]. *)
Fixpoint lastIndexOf_from (x : Z) (s : list Z) (i : nat) : option nat :=
  match s with
  | [] => None
  | c :: s' =>
    match lastIndexOf_from x s' (S i) with
    | Some j => Some j
    | None => if c =? x then Some i else None
    end
  end.

Definition lastIndexOf (x : Z) (s : list Z) : option nat := lastIndexOf_from x s 0.

(** [ParsedPackage]: [scope] is [None] for [null]; [name] is [None] for
    [undefined] (a scoped name without [/]). *)
Record ParsedPackage := mkParsed {
  fullName : list Z;
  scope : option (list Z);
  name : option (list Z);
  version : list Z
}.

(** [parsePackageName] *)
Definition parsePackageName (packageName : list Z) : ParsedPackage :=
  let regular :=
    match lastIndexOf 64 packageName with
    | Some atIndex =>
      if (0 <? atIndex)%nat then
        mkParsed (firstn atIndex packageName) None (Some (firstn atIndex packageName))
                 (skipn (S atIndex) packageName)
      else mkParsed packageName None (Some packageName) (js "latest")
    | None => mkParsed packageName None (Some packageName) (js "latest")
    end in
  if starts_with [64] packageName then
    match split_on 64 packageName with
    | [_; p1; p2] =>
      mkParsed (64 :: p1) (Some (hd [] (split_on 47 p1))) (nth_error (split_on 47 p1) 1) p2
    | [_; p1] =>
      mkParsed packageName (Some (hd [] (split_on 47 p1))) (nth_error (split_on 47 p1) 1)
               (js "latest")
    | _ => regular
    end
  else regular.

(** *** Lemmas *)

Lemma lastIndexOf_from_absent : forall x s i, ~ In x s -> lastIndexOf_from x s i = None.
Proof.
  intros x s. induction s as [|c s IH]; intros i H; [reflexivity|].
  cbn [lastIndexOf_from]. rewrite IH by (intros Hi; apply H; right; exact Hi).
  destruct (Z.eqb_spec c x) as [->|]; [exfalso; apply H; left; reflexivity|reflexivity].
Qed.

Lemma lastIndexOf_from_last : forall x pre v i, ~ In x v ->
  lastIndexOf_from x (pre ++ x :: v) i = Some (i + length pre)%nat.
Proof.
  intros x pre v. induction pre as [|c pre IH]; intros i H.
  - cbn [app lastIndexOf_from]. rewrite lastIndexOf_from_absent by exact H.
    rewrite Z.eqb_refl. f_equal. cbn. lia.
  - cbn [app lastIndexOf_from]. rewrite IH by exact H. f_equal. cbn [length]. lia.
Qed.

Lemma lastIndexOf_tl : forall x s, ~ In x (tl s) ->
  lastIndexOf x s = None \/ lastIndexOf x s = Some 0%nat.
Proof.
  intros x [|c t] H; [left; reflexivity|]. cbn [tl] in H.
  unfold lastIndexOf. cbn [lastIndexOf_from]. rewrite lastIndexOf_from_absent by exact H.
  destruct (c =? x); auto.
Qed.

(** Two ways to cut a sequence at an [x] with no [x] after it agree. *)
Lemma last_sep_unique : forall (x : Z) a b c d,
  a ++ x :: b = c ++ x :: d -> ~ In x b -> ~ In x d -> a = c /\ b = d.
Proof.
  intros x a. induction a as [|y a IH]; intros b c d E Hb Hd.
  - destruct c as [|z c]; cbn [app] in E.
    + injection E as ->. auto.
    + injection E as -> E. exfalso. apply Hb. rewrite E. apply in_or_app. right; left; reflexivity.
  - destruct c as [|z c]; cbn [app] in E.
    + injection E as -> E. exfalso. apply Hd. rewrite <- E. apply in_or_app. right; left; reflexivity.
    + injection E as -> E. destruct (IH b c d E Hb Hd) as [-> ->]. auto.
Qed.

Lemma split_on_two : forall sep t p1 p2, split_on sep t = [p1; p2] ->
  t = p1 ++ sep :: p2 /\ ~ In sep p1 /\ ~ In sep p2.
Proof.
  intros sep t p1 p2 E.
  pose proof (split_on_join sep t) as J. pose proof (split_on_no_sep sep t) as N.
  rewrite E in J, N. cbn in J. inversion N as [|? ? N1 N2]; inversion N2; subst.
  auto.
Qed.

Lemma split_on_one : forall sep t p1, split_on sep t = [p1] -> t = p1 /\ ~ In sep t.
Proof.
  intros sep t p1 E.
  pose proof (split_on_join sep t) as J. pose proof (split_on_no_sep sep t) as N.
  rewrite E in J, N. cbn in J. inversion N; subst. auto.
Qed.

Lemma skipn_past_sep : forall (p : list Z) x v, skipn (S (length p)) (p ++ x :: v) = v.
Proof. induction p as [|c p IH]; intros x v; [reflexivity|]. exact (IH x v). Qed.

(** The [regular] branch of [parsePackageName] at an input. *)
Definition regular_branch (packageName : list Z) : ParsedPackage :=
  match lastIndexOf 64 packageName with
  | Some atIndex =>
    if (0 <? atIndex)%nat then
      mkParsed (firstn atIndex packageName) None (Some (firstn atIndex packageName))
               (skipn (S atIndex) packageName)
    else mkParsed packageName None (Some packageName) (js "latest")
  | None => mkParsed packageName None (Some packageName) (js "latest")
  end.

Lemma regular_last : forall pre v, pre <> [] -> ~ In 64 v ->
  fullName (regular_branch (pre ++ 64 :: v)) = pre /\ version (regular_branch (pre ++ 64 :: v)) = v.
Proof.
  intros pre v Hp Hv. unfold regular_branch, lastIndexOf.
  rewrite lastIndexOf_from_last by exact Hv. cbn [Nat.add].
  destruct pre as [|c pre']; [congruence|]. cbn [length Nat.ltb Nat.leb].
  cbn [fullName version]. split.
  - exact (firstn_length_app (c :: pre') (64 :: v)).
  - exact (skipn_past_sep (c :: pre') 64 v).
Qed.

Lemma regular_none : forall s, ~ In 64 (tl s) ->
  fullName (regular_branch s) = s /\ version (regular_branch s) = js "latest".
Proof.
  intros s H. unfold regular_branch.
  destruct (lastIndexOf_tl 64 s H) as [E|E]; rewrite E; auto.
Qed.

Lemma parse_split : forall s,
  (forall pre v, s = pre ++ 64 :: v -> pre <> [] -> ~ In 64 v ->
     fullName (parsePackageName s) = pre /\ version (parsePackageName s) = v) /\
  (~ In 64 (tl s) ->
     fullName (parsePackageName s) = s /\ version (parsePackageName s) = js "latest").
Proof.
  intros s.
  assert (Hreg : forall s, starts_with [64] s = false -> parsePackageName s = regular_branch s)
    by (intros s' E; unfold parsePackageName; rewrite E; reflexivity).
  destruct s as [|c t].
  - split; [intros [|] v E; discriminate|intros _; split; reflexivity].
  - destruct (Z.eqb_spec 64 c) as [<-|Hc].
    2: { rewrite Hreg by (cbn [starts_with]; rewrite (proj2 (Z.eqb_neq 64 c) Hc); reflexivity).
         split; [intros pre v E Hp Hv; rewrite E; apply regular_last; auto|apply regular_none]. }
    assert (Hsc : forall p, starts_with [64] (64 :: p) = true) by reflexivity.
    unfold parsePackageName at 1 2 3 4. rewrite Hsc. cbn [split_on Z.eqb Pos.eqb].
    fold (regular_branch (64 :: t)).
    destruct (split_on 64 t) as [|p1 [|p2 [|p3 rest]]] eqn:Es.
    + exfalso. exact (split_on_not_nil 64 t Es).
    + apply split_on_one in Es as [-> Hn]. cbn [fullName version].
      split; [|auto]. intros pre v E Hp Hv. exfalso.
      destruct pre as [|y pre']; [congruence|]. injection E as <- E. apply Hn.
      rewrite E. apply in_or_app. right; left; reflexivity.
    + apply split_on_two in Es as (-> & H1 & H2). cbn [fullName version].
      split.
      * intros pre v E Hp Hv.
        apply (last_sep_unique 64 (64 :: p1) p2 pre v); auto.
      * intros Hn. exfalso. apply Hn. cbn [tl]. apply in_or_app. right; left; reflexivity.
    + split; [intros pre v E Hp Hv; rewrite E; apply regular_last; auto|apply regular_none].
Qed.

(** [parsePackageName] cuts the name at its last [@] that is not its first
    character: [fullName] is what comes before, [version] what comes after.
    A name with no such [@] is its own [fullName], with version ["latest"].
    Scoped names ([@scope/pkg@1.0]) and unscoped ones follow the same rule. *)
Theorem parsePackageName_split : forall s,
  (forall pre v, s = pre ++ 64 :: v -> pre <> [] -> ~ In 64 v ->
     fullName (parsePackageName s) = pre /\ version (parsePackageName s) = v) /\
  (~ In 64 (tl s) ->
     fullName (parsePackageName s) = s /\ version (parsePackageName s) = js "latest").
Proof. exact parse_split. Qed.

End PackageNames.

(** ** The rest of [MCPProxy] and its callers in [SSEHandler]
    ([src/src/mcp-proxy.ts], [src/unnamed/part_001]) *)
Module ProxyOps.
Import MCPProxy.


Definition set_delete (x : list Z) (l : list (list Z)) : list (list Z) :=
  filter (fun y => if list_eq_dec Z.eq_dec y x then false else true) l.

Definition with_servers (st : ProxyState) (m : list (list Z * MCPServerProcess)) : ProxyState :=
  mkState m (next_pid st) (spawned st) (kills st).


(** [removeClient(serverId, clientId)]: [lastActivity] is not touched. *)
Definition removeClient (st : ProxyState) (serverId clientId : list Z) : ProxyState :=
  match map_get serverId (servers st) with
  | Some server =>
    let server' := mkServer (pid server) (killed server) (packageName server)
                            (startTime server) (lastActivity server)
                            (set_delete clientId (clients server)) in
    with_servers st (map_set serverId server' (servers st))
  | None => st
  end.

(** The [exit] and [error] listeners that [getOrCreateServer] puts on the
    child it spawns for [serverId]: [this.servers.delete(serverId)], by
    key, whatever entry the key holds by then. *)
Definition child_exit (serverId : list Z) (st : ProxyState) : ProxyState :=
  with_servers st (map_delete serverId (servers st)).

(** [shutdown]: kill and delete every entry, in Map order. *)
Definition shutdown (st : ProxyState) : ProxyState :=
  fold_left (fun acc e =>
      mkState (map_delete (fst e) (servers acc)) (next_pid acc) (spawned acc)
              (kills acc ++ [pid (snd e)]))
    (servers st) st.

Section Send.
(** [J] the values [JSON.stringify] accepts, [serialize] is
    [Buffer.from(JSON.stringify(message), 'utf8')]. *)
Variable J : Type.
Variable serialize : J -> list Z.

(** [send(serverId, message)] at time [now]: [None] when it throws, else the
    bytes written to the child's stdin and the new state.  [stdin] is never
    null: every child is spawned with [stdio: pipe]. *)
Definition send (st : ProxyState) (serverId : list Z) (message : J) (now : Z)
  : option (list Z * ProxyState) :=
  match map_get serverId (servers st) with
  | Some server =>
    if killed server then None
    else
      let json := serialize message in
      let header := Framer.content_length_prefix ++ Framer.dec (Z.of_nat (length json))
                    ++ Framer.crlfcrlf in
      Some (header ++ json, with_servers st (map_set serverId (touch server now) (servers st)))
  | None => None
  end.

(** Successive [send] calls to one server (one [handleMessage] each), with
    their times: the concatenated stdin bytes and the final state. *)
Fixpoint send_all (st : ProxyState) (serverId : list Z) (msgs : list (J * Z))
  : option (list Z * ProxyState) :=
  match msgs with
  | [] => Some ([], st)
  | (m, now) :: ms =>
    match send st serverId m now with
    | Some (b, st') =>
      match send_all st' serverId ms with
      | Some (b', st'') => Some (b ++ b', st'')
      | None => None
      end
    | None => None
    end
  end.

End Send.

(** *** Lemmas on the Map *)

Lemma map_get_app : forall k m1 m2,
  map_get k (m1 ++ m2) = match map_get k m1 with Some v => Some v | None => map_get k m2 end.
Proof.
  intros k m1 m2. induction m1 as [|[k' v'] m1 IH]; [reflexivity|].
  cbn [app map_get]. destruct (list_eq_dec Z.eq_dec k k'); auto.
Qed.

Lemma map_get_replace : forall k v m, map_get k m <> None ->
  map_get k (map (fun e => if list_eq_dec Z.eq_dec (fst e) k then (k, v) else e) m) = Some v.
Proof.
  intros k v m. induction m as [|[k' x] m IH]; intros H; [exfalso; apply H; reflexivity|].
  cbn [map fst map_get] in *.
  destruct (list_eq_dec Z.eq_dec k' k) as [->|Hne].
  - cbn [map_get]. destruct (list_eq_dec Z.eq_dec k k); congruence.
  - cbn [map_get]. destruct (list_eq_dec Z.eq_dec k k'); [congruence|]. auto.
Qed.

Lemma map_get_replace_other : forall k k' v m, k' <> k ->
  map_get k' (map (fun e => if list_eq_dec Z.eq_dec (fst e) k then (k, v) else e) m) = map_get k' m.
Proof.
  intros k k' v m Hne. induction m as [|[k0 x] m IH]; [reflexivity|].
  cbn [map fst].
  destruct (list_eq_dec Z.eq_dec k0 k) as [->|Hne0]; cbn [map_get].
  - destruct (list_eq_dec Z.eq_dec k' k); [congruence|]. exact IH.
  - destruct (list_eq_dec Z.eq_dec k' k0); [reflexivity|]. exact IH.
Qed.

Lemma map_get_set_same : forall k v m, map_get k (map_set k v m) = Some v.
Proof.
  intros k v m. unfold map_set. destruct (map_get k m) eqn:E.
  - apply map_get_replace. congruence.
  - rewrite map_get_app, E. cbn. destruct (list_eq_dec Z.eq_dec k k); congruence.
Qed.

Lemma map_get_set_other : forall k k' v m, k' <> k ->
  map_get k' (map_set k v m) = map_get k' m.
Proof.
  intros k k' v m Hne. unfold map_set. destruct (map_get k m).
  - apply map_get_replace_other. exact Hne.
  - rewrite map_get_app. destruct (map_get k' m); [reflexivity|].
    cbn. destruct (list_eq_dec Z.eq_dec k' k); [congruence|reflexivity].
Qed.

Lemma map_get_none : forall k m, map_get k m = None <-> ~ In k (map fst m).
Proof.
  intros k m. induction m as [|[k' x] m IH]; cbn [map_get map fst In]; [tauto|].
  destruct (list_eq_dec Z.eq_dec k k') as [->|Hne].
  - split; [discriminate|]. intros H. exfalso. apply H. left. reflexivity.
  - rewrite IH. split; [intros H [H'|H']; [congruence|auto]|auto].
Qed.

Lemma map_keys_replace : forall k (v : MCPServerProcess) m,
  map fst (map (fun e => if list_eq_dec Z.eq_dec (fst e) k then (k, v) else e) m) = map fst m.
Proof.
  intros k v m. induction m as [|[k' x] m IH]; [reflexivity|].
  cbn [map fst]. destruct (list_eq_dec Z.eq_dec k' k) as [->|]; cbn [fst]; rewrite IH; reflexivity.
Qed.

Lemma nodup_set : forall k v m, NoDup (map fst m) -> NoDup (map fst (map_set k v m)).
Proof.
  intros k v m H. unfold map_set. destruct (map_get k m) eqn:E.
  - rewrite map_keys_replace. exact H.
  - apply map_get_none in E. rewrite map_app. cbn [map fst].
    apply NoDup_app; auto using NoDup_cons, NoDup_nil.
    + intros x Hx [<-|[]]. contradiction.
Qed.

Lemma map_get_in : forall k v m, map_get k m = Some v -> In (k, v) m.
Proof.
  intros k v m. induction m as [|[k' x] m IH]; [discriminate|].
  cbn [map_get]. destruct (list_eq_dec Z.eq_dec k k') as [->|]; [intros E; injection E as ->; left; auto|].
  intros E. right. auto.
Qed.

Lemma map_get_nodup : forall k v m, NoDup (map fst m) -> In (k, v) m -> map_get k m = Some v.
Proof.
  intros k v m. induction m as [|[k' x] m IH]; [contradiction|].
  intros Hnd [E|Hin]; cbn [map_get]; cbn [map fst] in Hnd; inversion Hnd as [|? ? Hn Hnd']; subst.
  - injection E as -> ->. destruct (list_eq_dec Z.eq_dec k k); congruence.
  - destruct (list_eq_dec Z.eq_dec k k') as [->|]; [|auto].
    exfalso. apply Hn. apply in_map_iff. exists (k', v). auto.
Qed.

Lemma nodup_filter : forall (p : list Z * MCPServerProcess -> bool) m,
  NoDup (map fst m) -> NoDup (map fst (filter p m)).
Proof.
  intros p m. induction m as [|e m IH]; intros H; [constructor|].
  cbn [map] in H. inversion H as [|? ? Hn Hnd]; subst.
  cbn [filter]. destruct (p e); [|auto]. cbn [map]. constructor; [|auto].
  intros Hin. apply Hn. apply in_map_iff in Hin as (e' & He & Hin).
  apply filter_In in Hin as [Hin _]. apply in_map_iff. eauto.
Qed.

Lemma map_get_filter : forall (p : list Z * MCPServerProcess -> bool) k v m,
  NoDup (map fst m) -> map_get k m = Some v ->
  map_get k (filter p m) = if p (k, v) then Some v else None.
Proof.
  intros p k v m Hnd Hg. pose proof (map_get_in _ _ _ Hg) as Hin.
  destruct (p (k, v)) eqn:Ep.
  - apply map_get_nodup.
    + apply nodup_filter. exact Hnd.
    + apply filter_In. auto.
  - destruct (map_get k (filter p m)) as [w|] eqn:Ew; [|reflexivity].
    apply map_get_in, filter_In in Ew as [Hw Hpw].
    rewrite (map_get_nodup _ _ _ Hnd Hw) in Hg. injection Hg as ->. congruence.
Qed.

Lemma map_get_delete_same : forall k m, map_get k (map_delete k m) = None.
Proof.
  intros k m. apply map_get_none. intros Hin. apply in_map_iff in Hin as (e & He & Hin).
  unfold map_delete in Hin. apply filter_In in Hin as [_ Hk].
  destruct (list_eq_dec Z.eq_dec (fst e) k); congruence.
Qed.

Lemma map_delete_incl : forall k e m, In e (map_delete k m) -> In e m /\ fst e <> k.
Proof.
  intros k e m H. unfold map_delete in H. apply filter_In in H as [H1 H2].
  destruct (list_eq_dec Z.eq_dec (fst e) k); [discriminate|auto].
Qed.

Lemma shutdown_fold : forall l acc,
  (forall e, In e (servers acc) -> In (fst e) (map fst l)) ->
  let r := fold_left (fun acc e =>
      mkState (map_delete (fst e) (servers acc)) (next_pid acc) (spawned acc)
              (kills acc ++ [pid (snd e)])) l acc in
  servers r = [] /\ kills r = kills acc ++ map (fun e => pid (snd e)) l /\
  next_pid r = next_pid acc /\ spawned r = spawned acc.
Proof.
  induction l as [|e l IH]; intros acc H; cbn [fold_left map].
  - destruct (servers acc) as [|e m] eqn:E; [rewrite app_nil_r; auto|].
    exfalso. apply (H e). left; reflexivity.
  - edestruct (IH (mkState (map_delete (fst e) (servers acc)) (next_pid acc) (spawned acc)
                           (kills acc ++ [pid (snd e)]))) as (H1 & H2 & H3 & H4).
    + cbn [servers]. intros e' He'. apply map_delete_incl in He' as [Hin Hne].
      destruct (H e' Hin) as [Heq|Hl]; [congruence|exact Hl].
    + cbn [kills next_pid spawned] in *. rewrite H1, H2, H3, H4, <- app_assoc. auto.
Qed.

Lemma shutdown_result : forall st,
  servers (shutdown st) = [] /\
  kills (shutdown st) = kills st ++ map (fun e => pid (snd e)) (servers st) /\
  next_pid (shutdown st) = next_pid st /\ spawned (shutdown st) = spawned st.
Proof.
  intros st. unfold shutdown. apply shutdown_fold.
  intros e He. apply in_map. exact He.
Qed.

Lemma goc_get : forall st pkg ty params now,
  map_get (computeServerId pkg params) (servers (snd (getOrCreateServer st pkg ty params now))) =
  Some (fst (getOrCreateServer st pkg ty params now)) /\
  killed (fst (getOrCreateServer st pkg ty params now)) = false.
Proof.
  intros st pkg ty params now. unfold getOrCreateServer.
  destruct (map_get (computeServerId pkg params) (servers st)) as [s|];
    [destruct (killed s) eqn:Ek|]; cbn [negb];
    try (destruct (buildCommand pkg ty) as [command args]);
    cbn [fst snd servers killed touch]; rewrite map_get_set_same; auto.
Qed.


Lemma goc_miss_fst : forall st pkg ty params now,
  map_get (computeServerId pkg params) (servers st) = None ->
  fst (getOrCreateServer st pkg ty params now) = mkServer (next_pid st) false pkg now now [] /\
  next_pid (snd (getOrCreateServer st pkg ty params now)) = next_pid st + 1 /\
  kills (snd (getOrCreateServer st pkg ty params now)) = kills st.
Proof.
  intros st pkg ty params now H. unfold getOrCreateServer. rewrite H.
  destruct (buildCommand pkg ty) as [command args]. auto.
Qed.

Lemma send_some : forall J serialize st sid m now b st',
  send J serialize st sid m now = Some (b, st') ->
  b = Framer.encode J serialize m /\
  exists s, map_get sid (servers st) = Some s /\ killed s = false /\
            st' = with_servers st (map_set sid (touch s now) (servers st)).
Proof.
  intros J serialize st sid m now b st' H. unfold send in H.
  destruct (map_get sid (servers st)) as [s|]; [|discriminate].
  destruct (killed s) eqn:Ek; [discriminate|]. injection H as <- <-.
  split; [unfold Framer.encode; rewrite !app_assoc; reflexivity|eauto].
Qed.

Lemma send_all_bytes : forall J serialize msgs st sid b st',
  send_all J serialize st sid msgs = Some (b, st') ->
  b = flat_map (Framer.encode J serialize) (map fst msgs).
Proof.
  intros J serialize msgs. induction msgs as [|[m now] ms IH]; intros st sid b st' H.
  - cbn in H. injection H as <- _. reflexivity.
  - cbn [send_all] in H.
    destruct (send J serialize st sid m now) as [[b1 st1]|] eqn:E1; [|discriminate].
    destruct (send_all J serialize st1 sid ms) as [[b2 st2]|] eqn:E2; [|discriminate].
    injection H as <- _. apply send_some in E1 as [-> _].
    cbn [map flat_map fst]. f_equal. exact (IH _ _ _ _ E2).
Qed.

(** *** Properties *)


(** [handleMessage] calls [getOrCreateServer] and then [send] on the same
    server id: with no other event in between, [send] does not throw, and
    what it writes to the child's stdin is exactly one
    [JsonRpcFramer.encode] frame of the message. *)
Theorem handleMessage_send : forall (J : Type) (serialize : J -> list Z) st pkg ty params now m now',
  exists st',
    send J serialize (snd (getOrCreateServer st pkg ty params now)) (computeServerId pkg params) m now'
    = Some (Framer.encode J serialize m, st').
Proof.
  intros J serialize st pkg ty params now m now'.
  destruct (goc_get st pkg ty params now) as [Hg Hk].
  unfold send. rewrite Hg, Hk. eexists. f_equal. f_equal.
  unfold Framer.encode. rewrite !app_assoc. reflexivity.
Qed.

(** Messages written by successive [send] calls to one child reach the
    child's [JsonRpcParser] intact, in order, each once, however its stdin
    stream is cut into chunks; the parser's buffer ends empty.  The
    premises are the runtime's [JSON.parse(JSON.stringify(x))] round trip
    and Buffer's size limit. *)
Theorem send_delivery : forall (J : Type) (serialize : J -> list Z) (deserialize : list Z -> option J)
  st sid msgs bytes st' chunks,
  send_all J serialize st sid msgs = Some (bytes, st') ->
  Forall (fun x => deserialize (serialize x) = Some x) (map fst msgs) ->
  Forall (fun x => Z.of_nat (length (serialize x)) < 2 ^ 53) (map fst msgs) ->
  concat chunks = bytes ->
  Framer.feed_all J deserialize [] chunks = (map fst msgs, []).
Proof.
  intros J serialize deserialize st sid msgs bytes st' chunks Hs Hrt Hlen Hc.
  apply send_all_bytes in Hs. subst bytes.
  destruct chunks as [|c cs].
  - destruct (map fst msgs) as [|x xs]; [reflexivity|].
    cbn [concat flat_map] in Hc. symmetry in Hc. apply app_eq_nil in Hc as [Hc _].
    exfalso. exact (Framer.encode_not_nil J serialize x Hc).
  - rewrite Framer.feed_all_cons. cbn [app]. change (c ++ concat cs) with (concat (c :: cs)).
    rewrite Hc. apply Framer.drain_full_encodes; assumption.
Qed.


(** [removeClient] does not refresh [lastActivity]: when the only client of
    a server whose last activity is more than 30 minutes old leaves, the
    next reaper pass kills and removes the server. *)
Theorem removeClient_then_reap : forall st sid s clientId now,
  NoDup (map fst (servers st)) ->
  map_get sid (servers st) = Some s ->
  clients s = [clientId] ->
  maxInactivity < now - lastActivity s ->
  let st' := cleanupInactiveServers now (removeClient st sid clientId) in
  map_get sid (servers st') = None /\ In (pid s) (kills st').
Proof.
  intros st sid s clientId now Hnd Hg Hc Ht. cbv zeta.
  set (s' := mkServer (pid s) (killed s) (packageName s) (startTime s) (lastActivity s)
                      (set_delete clientId (clients s))).
  assert (E1 : removeClient st sid clientId = with_servers st (map_set sid s' (servers st)))
    by (unfold removeClient; rewrite Hg; reflexivity).
  rewrite E1. set (st1 := with_servers st (map_set sid s' (servers st))).
  assert (Hnd1 : NoDup (map fst (servers st1))) by (apply nodup_set; exact Hnd).
  assert (Hg1 : map_get sid (servers st1) = Some s') by apply map_get_set_same.
  assert (Hi : inactive now (sid, s') = true).
  { unfold inactive. cbn [snd s' clients lastActivity]. rewrite Hc. unfold set_delete.
    cbn [filter]. destruct (list_eq_dec Z.eq_dec clientId clientId); [|congruence].
    cbn. apply Z.ltb_lt. exact Ht. }
  destruct (cleanup_fold now (servers st1) [] st1 eq_refl Hnd1) as (H1 & H2 & _).
  unfold cleanupInactiveServers. rewrite H1, H2. cbn [app].
  rewrite (map_get_filter _ sid s' _ Hnd1 Hg1), Hi. cbn [negb]. split; [reflexivity|].
  apply in_or_app. right. apply in_map_iff. exists (sid, s'). split; [reflexivity|].
  apply filter_In. split; [exact (map_get_in _ _ _ Hg1)|exact Hi].
Qed.

(** [shutdown] kills every child of the registry, in Map order, and leaves
    the registry empty; it spawns nothing. *)
Theorem shutdown_spec : forall st,
  servers (shutdown st) = [] /\
  kills (shutdown st) = kills st ++ map (fun e => pid (snd e)) (servers st) /\
  next_pid (shutdown st) = next_pid st /\ spawned (shutdown st) = spawned st.
Proof. intros st. exact (shutdown_result st). Qed.

(** The [exit] listener of a reaped child deletes its key, whatever child
    the key holds by then.  If, after the reaper kills child [A], a request
    for the same package and params spawns child [B] before [A]'s [exit]
    event arrives, that event removes [B] from the registry: [B] keeps
    running, no later [shutdown] kills it, and the next request spawns a
    third child.  Premises: the registry is a Map (distinct keys), and pids
    grow (every pid in the registry or already killed is below the next). *)
Theorem stale_exit_orphans_successor : forall st pkg ty params now1 now2 A,
  NoDup (map fst (servers st)) ->
  map_get (computeServerId pkg params) (servers st) = Some A ->
  inactive now1 (computeServerId pkg params, A) = true ->
  Forall (fun e => pid (snd e) < next_pid st) (servers st) ->
  Forall (fun p => p < next_pid st) (kills st) ->
  let sid := computeServerId pkg params in
  let st1 := cleanupInactiveServers now1 st in
  let B := fst (getOrCreateServer st1 pkg ty params now2) in
  let st2 := snd (getOrCreateServer st1 pkg ty params now2) in
  let st3 := child_exit sid st2 in
  In (pid A) (kills st1) /\
  spawned st2 = spawned st1 ++ [buildCommand pkg ty] /\
  map_get sid (servers st3) = None /\
  ~ In (pid B) (kills (shutdown st3)).
Proof.
  intros st pkg ty params now1 now2 A Hnd HA Hi Hp Hk. cbv zeta.
  set (sid := computeServerId pkg params) in *.
  destruct (cleanup_fold now1 (servers st) [] st eq_refl Hnd) as (H1 & H2 & H3 & _).
  fold (cleanupInactiveServers now1 st) in H1, H2, H3.
  set (st1 := cleanupInactiveServers now1 st) in *. cbn [app] in H1.
  assert (Hm1 : map_get sid (servers st1) = None).
  { rewrite H1, (map_get_filter _ sid A _ Hnd HA), Hi. reflexivity. }
  destruct (getOrCreateServer_miss st1 pkg ty params now2 Hm1) as [Hs2 Hsp2].
  destruct (goc_miss_fst st1 pkg ty params now2 Hm1) as (HB & _ & Hk2).
  set (st2 := snd (getOrCreateServer st1 pkg ty params now2)) in *.
  rewrite HB. cbn [pid].
  split; [|split; [exact Hsp2|split]].
  - rewrite H2. apply in_or_app. right. apply in_map_iff. exists (sid, A).
    split; [reflexivity|]. apply filter_In. split; [exact (map_get_in _ _ _ HA)|exact Hi].
  - unfold child_exit. cbn [servers with_servers]. apply map_get_delete_same.
  - destruct (shutdown_result (child_exit sid st2)) as (_ & Hk3 & _).
    rewrite Hk3. unfold child_exit at 1. cbn [kills with_servers]. rewrite Hk2, H2, H3.
    rewrite Forall_forall in Hp, Hk.
    rewrite <- app_assoc. intros Hin. apply in_app_or in Hin as [Hin|Hin].
    + specialize (Hk _ Hin). lia.
    + apply in_app_or in Hin as [Hin|Hin]; apply in_map_iff in Hin as (e & He & Hin).
      * apply filter_In in Hin as [Hin _]. specialize (Hp _ Hin). lia.
      * unfold child_exit in Hin. cbn [servers with_servers] in Hin.
        apply map_delete_incl in Hin as [Hin Hne]. rewrite Hs2, H1 in Hin.
        apply in_app_or in Hin as [Hin|[He'|[]]].
        -- apply filter_In in Hin as [Hin _]. specialize (Hp _ Hin). lia.
        -- subst e. contradiction.
Qed.

End ProxyOps.

(** ** The child's environment: [MCPProxy.buildEnvironment] and
    [ProcessManager.mapParametersToEnv] *)
Module ProxyEnv.
Import Validation MCPHandler ValidationOps.

(** A plain object with string keys and string values, as its own
    enumerable properties in order.  (No key built here is an array
    index, so insertion order is the property order.) *)
Definition Obj := list (list Z * list Z).

Fixpoint obj_get (k : list Z) (o : Obj) : option (list Z) :=
  match o with
  | [] => None
  | (k', v) :: o' => if list_eq_dec Z.eq_dec k k' then Some v else obj_get k o'
  end.

(** [o[k] = v] on a data property: an existing key keeps its place. *)
Definition obj_set (k v : list Z) (o : Obj) : Obj :=
  match obj_get k o with
  | Some _ => map (fun e => if list_eq_dec Z.eq_dec (fst e) k then (k, v) else e) o
  | None => o ++ [(k, v)]
  end.

(** [{ ...acc, ...o }] after [acc]: copy the own properties of [o] in order. *)
Definition spread (acc o : Obj) : Obj :=
  fold_left (fun acc kv => obj_set (fst kv) (snd kv) acc) o acc.

(** [parameterMappings] *)
Definition parameterMappings : Obj :=
  [(js "firecrawlApiKey", js "FIRECRAWL_API_KEY");
   (js "openaiApiKey", js "OPENAI_API_KEY");
   (js "anthropicApiKey", js "ANTHROPIC_API_KEY");
   (js "githubToken", js "GITHUB_TOKEN");
   (js "slackToken", js "SLACK_TOKEN");
   (js "discordToken", js "DISCORD_TOKEN");
   (js "apiKey", js "API_KEY");
   (js "accessToken", js "ACCESS_TOKEN");
   (js "bearerToken", js "BEARER_TOKEN");
   (js "clientId", js "CLIENT_ID");
   (js "clientSecret", js "CLIENT_SECRET")].

(** The methods [parameterMappings] inherits from [Object.prototype]. *)
Definition object_prototype_methods : list (list Z) :=
  map js ["constructor"; "__defineGetter__"; "__defineSetter__"; "hasOwnProperty";
          "__lookupGetter__"; "__lookupSetter__"; "isPrototypeOf"; "propertyIsEnumerable";
          "toString"; "valueOf"; "toLocaleString"]%string.

Section Env.
(** [fn_source k]: [String(Object.prototype[k])] for one of those methods,
    the runtime's source text of a built-in function. *)
Variable fn_source : list Z -> list Z.

(** [parameterMappings[key]], as the property key it becomes in
    [env[envKey]]; [None] is [undefined].  Every value found is truthy:
    the own values are non-empty strings, the inherited ones functions and,
    for [__proto__], [Object.prototype] itself, whose string is
    [[object Object]]. *)
Definition mapping_lookup (key : list Z) : option (list Z) :=
  match obj_get key parameterMappings with
  | Some v => Some v
  | None =>
    if in_dec (list_eq_dec Z.eq_dec) key object_prototype_methods then Some (fn_source key)
    else if list_eq_dec Z.eq_dec key (js "__proto__") then Some (js "[object Object]")
    else None
  end.

(** The body of the [for (const [key, value] of Object.entries(params))]
    loop, the same in both functions. *)
Definition map_param (env : Obj) (kv : list Z * JSON) : Obj :=
  let '(key, value) := kv in
  if list_eq_dec Z.eq_dec key (js "args") then env
  else
    let envKey := match mapping_lookup key with
                  | Some k => Some k
                  | None => sanitizeEnvKey key
                  end in
    match envKey with
    | Some k => obj_set k (sanitizeEnvValue value) env
    | None => env
    end.

(** [MCPProxy.buildEnvironment]: the params of a request URL, string
    values. *)
Definition buildEnvironment (params : MCPProxy.Params) : Obj :=
  fold_left map_param (map (fun kv => (fst kv, JStr (snd kv))) params) [].

(** [spawn(command, args, { env: { ...process.env, ...env } })] in
    [getOrCreateServer]. *)
Definition spawnEnv (processEnv : Obj) (params : MCPProxy.Params) : Obj :=
  spread (spread [] processEnv) (buildEnvironment params).

(** [ProcessManager.mapParametersToEnv]: [env = { ...process.env }], then
    the loop; values of any JSON type. *)
Definition mapParametersToEnv (processEnv : Obj) (params : list (list Z * JSON)) : Obj :=
  fold_left map_param params (spread [] processEnv).

End Env.

(** *** Lemmas *)

Lemma obj_get_app : forall k o1 o2,
  obj_get k (o1 ++ o2) = match obj_get k o1 with Some v => Some v | None => obj_get k o2 end.
Proof.
  intros k o1 o2. induction o1 as [|[k' v'] o1 IH]; [reflexivity|].
  cbn [app obj_get]. destruct (list_eq_dec Z.eq_dec k k'); auto.
Qed.

Lemma obj_get_replace_other : forall k k' v o, k' <> k ->
  obj_get k' (map (fun e => if list_eq_dec Z.eq_dec (fst e) k then (k, v) else e) o) = obj_get k' o.
Proof.
  intros k k' v o Hne. induction o as [|[k0 x] o IH]; [reflexivity|].
  cbn [map fst]. destruct (list_eq_dec Z.eq_dec k0 k) as [->|]; cbn [obj_get].
  - destruct (list_eq_dec Z.eq_dec k' k); [congruence|exact IH].
  - destruct (list_eq_dec Z.eq_dec k' k0); [reflexivity|exact IH].
Qed.

Lemma obj_get_replace_same : forall k v o, obj_get k o <> None ->
  obj_get k (map (fun e => if list_eq_dec Z.eq_dec (fst e) k then (k, v) else e) o) = Some v.
Proof.
  intros k v o. induction o as [|[k0 x] o IH]; intros H; [exfalso; apply H; reflexivity|].
  cbn [map fst]. cbn [obj_get] in H. destruct (list_eq_dec Z.eq_dec k0 k) as [->|Hne]; cbn [obj_get].
  - destruct (list_eq_dec Z.eq_dec k k); congruence.
  - destruct (list_eq_dec Z.eq_dec k k0); [congruence|]. apply IH. exact H.
Qed.

Lemma obj_get_set : forall k k' v o,
  obj_get k' (obj_set k v o) = if list_eq_dec Z.eq_dec k' k then Some v else obj_get k' o.
Proof.
  intros k k' v o. unfold obj_set. destruct (obj_get k o) eqn:E.
  - destruct (list_eq_dec Z.eq_dec k' k) as [->|Hne].
    + apply obj_get_replace_same. congruence.
    + apply obj_get_replace_other. exact Hne.
  - rewrite obj_get_app. destruct (list_eq_dec Z.eq_dec k' k) as [->|Hne].
    + rewrite E. cbn. destruct (list_eq_dec Z.eq_dec k k); congruence.
    + destruct (obj_get k' o); [reflexivity|]. cbn.
      destruct (list_eq_dec Z.eq_dec k' k); congruence.
Qed.

Lemma obj_get_none : forall k o, obj_get k o = None <-> ~ In k (map fst o).
Proof.
  intros k o. induction o as [|[k' x] o IH]; cbn [obj_get map fst In]; [tauto|].
  destruct (list_eq_dec Z.eq_dec k k') as [->|Hne].
  - split; [discriminate|]. intros H. exfalso. apply H. left. reflexivity.
  - rewrite IH. split; [intros H [H'|H']; [congruence|auto]|auto].
Qed.

Lemma obj_get_in : forall k v o, obj_get k o = Some v -> In (k, v) o.
Proof.
  intros k v o. induction o as [|[k' x] o IH]; [discriminate|].
  cbn [obj_get]. destruct (list_eq_dec Z.eq_dec k k') as [->|]; [intros E; injection E as ->; left; auto|].
  intros E. right. auto.
Qed.

Lemma obj_get_nodup : forall k v o, NoDup (map fst o) -> In (k, v) o -> obj_get k o = Some v.
Proof.
  intros k v o. induction o as [|[k' x] o IH]; [contradiction|].
  intros Hnd [E|Hin]; cbn [obj_get]; cbn [map fst] in Hnd; inversion Hnd as [|? ? Hn Hnd']; subst.
  - injection E as -> ->. destruct (list_eq_dec Z.eq_dec k k); congruence.
  - destruct (list_eq_dec Z.eq_dec k k') as [->|]; [|auto].
    exfalso. apply Hn. apply in_map_iff. exists (k', v). auto.
Qed.

Lemma obj_keys_set : forall k v o,
  map fst (obj_set k v o) = match obj_get k o with Some _ => map fst o | None => map fst o ++ [k] end.
Proof.
  intros k v o. unfold obj_set. destruct (obj_get k o).
  - clear. induction o as [|[k' x] o IH]; [reflexivity|].
    cbn [map fst]. destruct (list_eq_dec Z.eq_dec k' k) as [->|]; cbn [fst]; rewrite IH; reflexivity.
  - rewrite map_app. reflexivity.
Qed.

Lemma nodup_obj_set : forall k v o, NoDup (map fst o) -> NoDup (map fst (obj_set k v o)).
Proof.
  intros k v o H. rewrite obj_keys_set. destruct (obj_get k o) eqn:E; [exact H|].
  apply obj_get_none in E. apply NoDup_app; auto using NoDup_cons, NoDup_nil.
  intros x Hx [<-|[]]. contradiction.
Qed.

(** Every entry of [obj_set k v o] is [(k, v)] or an entry of [o]. *)
Lemma obj_set_incl : forall k v o e, In e (obj_set k v o) -> e = (k, v) \/ In e o.
Proof.
  intros k v o e. unfold obj_set. destruct (obj_get k o).
  - intros H. apply in_map_iff in H as (e' & <- & Hin).
    destruct (list_eq_dec Z.eq_dec (fst e') k); auto.
  - intros H. apply in_app_or in H as [H|[H|[]]]; auto.
Qed.

Lemma obj_get_spread : forall k o acc,
  obj_get k (spread acc o) = match obj_get k (rev o) with Some v => Some v | None => obj_get k acc end.
Proof.
  intros k o. induction o as [|[k' v'] o IH]; intros acc; [reflexivity|].
  unfold spread in *. cbn [fold_left fst snd]. rewrite IH, obj_get_set.
  cbn [rev]. rewrite obj_get_app. destruct (obj_get k (rev o)); [reflexivity|].
  cbn [obj_get]. destruct (list_eq_dec Z.eq_dec k k'); reflexivity.
Qed.

Lemma obj_get_rev : forall k o, NoDup (map fst o) -> obj_get k (rev o) = obj_get k o.
Proof.
  intros k o Hnd.
  assert (Hr : NoDup (map fst (rev o))) by (rewrite map_rev; apply NoDup_rev; exact Hnd).
  destruct (obj_get k o) as [v|] eqn:E.
  - apply obj_get_nodup; [exact Hr|]. apply in_rev. rewrite rev_involutive. apply obj_get_in. exact E.
  - apply obj_get_none. rewrite map_rev. rewrite <- in_rev. apply obj_get_none. exact E.
Qed.

Lemma nodup_fold_map_param : forall fn_source l env, NoDup (map fst env) ->
  NoDup (map fst (fold_left (map_param fn_source) l env)).
Proof.
  intros fn_source l. induction l as [|[key value] l IH]; intros env H; [exact H|].
  cbn [fold_left]. apply IH. unfold map_param.
  destruct (list_eq_dec Z.eq_dec key (js "args")); [exact H|].
  destruct (match mapping_lookup fn_source key with Some k => Some k | None => sanitizeEnvKey key end);
    [apply nodup_obj_set; exact H|exact H].
Qed.

(** Every key of [parameterMappings], every inherited method name,
    [__proto__] and [args] has a lower-case ASCII letter. *)
Lemma special_keys_lower :
  forallb (existsb (in_range 97 122))
    (js "__proto__" :: js "args" :: object_prototype_methods ++ map fst parameterMappings) = true.
Proof. vm_compute. reflexivity. Qed.

(** The env variable names a request can pick: [[A-Z_][A-Z0-9_]*], at
    most 100 code units. *)
Definition env_name (name : list Z) : bool :=
  (length name <=? maxParamKeyLength)%nat &&
  forallb (fun c => in_range 65 90 c || in_range 48 57 c || (c =? 95)) name &&
  match name with c :: _ => in_range 65 90 c || (c =? 95) | [] => false end.

Lemma env_name_props : forall name, env_name name = true ->
  (length name <= maxParamKeyLength)%nat /\
  Forall (fun c => in_range 65 90 c = true \/ in_range 48 57 c = true \/ c = 95) name /\
  match name with c :: _ => in_range 65 90 c = true \/ c = 95 | [] => False end.
Proof.
  intros name H. unfold env_name in H. rewrite !andb_true_iff in H.
  destruct H as [[Hl Hf] Hh]. apply Nat.leb_le in Hl.
  split; [exact Hl|]. split.
  - apply Forall_forall. intros c Hc. rewrite forallb_forall in Hf. specialize (Hf c Hc).
    rewrite !orb_true_iff, Z.eqb_eq in Hf. tauto.
  - destruct name as [|c t]; [discriminate|]. rewrite orb_true_iff, Z.eqb_eq in Hh. exact Hh.
Qed.

Lemma env_name_no_lower : forall name, env_name name = true -> existsb (in_range 97 122) name = false.
Proof.
  intros name Hn. destruct (env_name_props name Hn) as (_ & Hf & _). apply not_true_is_false. intros H.
  apply existsb_exists in H as (c & Hin & Hc). rewrite Forall_forall in Hf.
  specialize (Hf c Hin). unfold in_range in *.
  rewrite !andb_true_iff, !Z.leb_le in *. lia.
Qed.

Lemma env_name_not_special : forall name, env_name name = true ->
  ~ In name (js "__proto__" :: js "args" :: object_prototype_methods ++ map fst parameterMappings).
Proof.
  intros name Hn Hin. pose proof special_keys_lower as H. rewrite forallb_forall in H.
  specialize (H name Hin). rewrite env_name_no_lower in H by exact Hn. discriminate.
Qed.

Lemma sanitizeEnvKey_env_name : forall name, env_name name = true -> sanitizeEnvKey name = Some name.
Proof.
  intros name Hn. pose proof (env_name_props name Hn) as (Hl & Hf & Hh). unfold sanitizeEnvKey.
  destruct name as [|c t]; [contradiction|]. cbn [truthy negb orb].
  destruct (Nat.ltb_spec maxParamKeyLength (length (c :: t))); [lia|].
  rewrite (word_map_id (c :: t) Hf).
  replace (in_range 65 90 c || (c =? 95)) with true; [reflexivity|].
  symmetry. apply orb_true_iff. destruct Hh as [Hx|Hx]; [left; exact Hx|right; apply Z.eqb_eq; exact Hx].
Qed.

Lemma map_param_env_name : forall fn_source env name value, env_name name = true ->
  map_param fn_source env (name, value) = obj_set name (sanitizeEnvValue value) env.
Proof.
  intros fn_source env name value Hn. pose proof (env_name_not_special name Hn) as Hs.
  unfold map_param.
  destruct (list_eq_dec Z.eq_dec name (js "args")) as [E|_].
  { exfalso. apply Hs. right; left. symmetry. exact E. }
  unfold mapping_lookup.
  replace (obj_get name parameterMappings) with (@None (list Z)).
  2: { symmetry. apply obj_get_none. intros Hin. apply Hs. right; right.
       apply in_or_app. right. exact Hin. }
  destruct (in_dec (list_eq_dec Z.eq_dec) name object_prototype_methods) as [Hin|_].
  { exfalso. apply Hs. right; right. apply in_or_app. left. exact Hin. }
  destruct (list_eq_dec Z.eq_dec name (js "__proto__")) as [E|_].
  { exfalso. apply Hs. left. symmetry. exact E. }
  rewrite sanitizeEnvKey_env_name by exact Hn. reflexivity.
Qed.

Lemma sanitizeEnvValue_clean : forall v,
  forallb (fun c => negb (is_dangerous c)) (sanitizeEnvValue v) = true /\
  (length (sanitizeEnvValue v) <= maxParamValueLength)%nat.
Proof.
  intros v. destruct v as [|b|n|s|l|l];
    try (unfold sanitizeEnvValue; destruct (falsy _); split; reflexivity || (cbn; lia)).
  rewrite sanitizeEnvValue_str. split; [apply forallb_filter_neg|].
  pose proof (length_filter_le (fun c => negb (is_dangerous c)) (firstn maxParamValueLength s)).
  rewrite length_firstn in *. lia.
Qed.

Lemma fold_map_param_values : forall fn_source l env k x,
  In (k, x) (fold_left (map_param fn_source) l env) ->
  In (k, x) env \/
  (forallb (fun c => negb (is_dangerous c)) x = true /\ (length x <= maxParamValueLength)%nat).
Proof.
  intros fn_source l. induction l as [|[key value] l IH]; intros env k x H; [auto|].
  cbn [fold_left] in H. destruct (IH _ _ _ H) as [Hin|Hc]; [|auto].
  unfold map_param in Hin.
  destruct (list_eq_dec Z.eq_dec key (js "args")); [auto|].
  destruct (match mapping_lookup fn_source key with Some k => Some k | None => sanitizeEnvKey key end)
    as [k'|]; [|auto].
  apply obj_set_incl in Hin as [E|Hin]; [|auto].
  injection E as -> ->. right. apply sanitizeEnvValue_clean.
Qed.

Lemma spread_incl : forall o acc k x, In (k, x) (spread acc o) -> In (k, x) acc \/ In (k, x) o.
Proof.
  intros o. induction o as [|[k' v'] o IH]; intros acc k x H; [auto|].
  unfold spread in *. cbn [fold_left fst snd] in H.
  destruct (IH _ _ _ H) as [Hin|Hin]; [|right; right; exact Hin].
  apply obj_set_incl in Hin as [E|Hin]; [right; left; congruence|auto].
Qed.

(** *** Properties *)

(** A request parameter named like an environment variable,
    [[A-Z_][A-Z0-9_]*] of at most 100 code units (PATH, NODE_OPTIONS,
    LD_PRELOAD, ...), sets that variable of the spawned server to its
    sanitised value when it is the last parameter, whatever the value of
    the variable in [process.env]: in the environment [getOrCreateServer]
    spawns with, and in the one [mapParametersToEnv] builds. *)
Theorem env_param_overrides : forall fn_source processEnv name,
  env_name name = true ->
  (forall (params : MCPProxy.Params) v,
     obj_get name (spawnEnv fn_source processEnv (params ++ [(name, v)]))
     = Some (sanitizeEnvValue (JStr v))) /\
  (forall (params : list (list Z * JSON)) value,
     obj_get name (mapParametersToEnv fn_source processEnv (params ++ [(name, value)]))
     = Some (sanitizeEnvValue value)).
Proof.
  intros fn_source processEnv name Hn.
  assert (Hlast : forall l env value,
            obj_get name (fold_left (map_param fn_source) (l ++ [(name, value)]) env)
            = Some (sanitizeEnvValue value)).
  { intros l env value. rewrite fold_left_app. cbn [fold_left].
    rewrite map_param_env_name by exact Hn. rewrite obj_get_set.
    destruct (list_eq_dec Z.eq_dec name name); congruence. }
  split.
  - intros params v. unfold spawnEnv. rewrite obj_get_spread.
    unfold buildEnvironment. rewrite map_app. cbn [map fst snd].
    rewrite obj_get_rev by (apply nodup_fold_map_param; constructor).
    rewrite Hlast. reflexivity.
  - intros params value. unfold mapParametersToEnv. apply Hlast.
Qed.

(** Every variable of the environment a server is spawned with, by
    [getOrCreateServer] and by [mapParametersToEnv], either is a variable
    of [process.env] with its value unchanged, or has a value of at most
    1000 code units free of shell metacharacters. *)
Theorem env_values_sanitized : forall fn_source processEnv k x,
  (forall params, In (k, x) (spawnEnv fn_source processEnv params) ->
     In (k, x) processEnv \/
     (existsb is_dangerous x = false /\ (length x <= maxParamValueLength)%nat)) /\
  (forall params, In (k, x) (mapParametersToEnv fn_source processEnv params) ->
     In (k, x) processEnv \/
     (existsb is_dangerous x = false /\ (length x <= maxParamValueLength)%nat)).
Proof.
  intros fn_source processEnv k x.
  assert (Hclean : forallb (fun c => negb (is_dangerous c)) x = true -> existsb is_dangerous x = false).
  { intros H. apply not_true_is_false. intros He. apply existsb_exists in He as (c & Hc & Hd).
    rewrite forallb_forall in H. specialize (H c Hc). rewrite Hd in H. discriminate. }
  assert (Hbase : In (k, x) (spread [] processEnv) -> In (k, x) processEnv).
  { intros H. apply spread_incl in H as [[]|H]. exact H. }
  split.
  - intros params H. unfold spawnEnv in H. apply spread_incl in H as [H|H]; [left; auto|].
    unfold buildEnvironment in H. apply fold_map_param_values in H as [[]|[H1 H2]].
    right. auto.
  - intros params H. unfold mapParametersToEnv in H.
    apply fold_map_param_values in H as [H|[H1 H2]]; [left; auto|right; auto].
Qed.

End ProxyEnv.

(** ** ProcessManager (src/src/process-manager.ts) *)
Module ProcessManager.
Import Validation MCPHandler ValidationOps ProxyEnv PackageNames.

(** [ProcessInfo]; the child process is its pid. *)
Record ProcessInfo := mkInfo {
  process : Z;
  packageName : list Z;
  protocol : list Z;
  startTime : Z;
  lastAccess : Z
}.

(** One [spawn(command, args, { env, ... })] call: the pid of the child
    and the [processId] its [error] and [exit] handlers delete. *)
Record Spawn := mkSpawn {
  sp_pid : Z;
  sp_id : list Z;
  sp_command : list Z;
  sp_args : list (list Z);
  sp_env : Obj
}.

(** The manager: the [mcpProcesses] Map (entries in insertion order), the
    next pid the OS hands out, the log of [spawn] calls and of [kill()]
    calls. *)
Record PMState := mkPM {
  mcpProcesses : list (list Z * ProcessInfo);
  next_pid : Z;
  spawned : list Spawn;
  kills : list Z
}.

(** [Map.prototype.get] *)
Fixpoint mget (k : list Z) (m : list (list Z * ProcessInfo)) : option ProcessInfo :=
  match m with
  | [] => None
  | (k', v) :: m' => if list_eq_dec Z.eq_dec k k' then Some v else mget k m'
  end.

(** [Map.prototype.set]: an existing key keeps its position. *)
Definition mset (k : list Z) (v : ProcessInfo) (m : list (list Z * ProcessInfo))
  : list (list Z * ProcessInfo) :=
  match mget k m with
  | Some _ => map (fun e => if list_eq_dec Z.eq_dec (fst e) k then (k, v) else e) m
  | None => m ++ [(k, v)]
  end.

(** [Map.prototype.delete] *)
Definition mdelete (k : list Z) (m : list (list Z * ProcessInfo)) : list (list Z * ProcessInfo) :=
  filter (fun e => if list_eq_dec Z.eq_dec (fst e) k then false else true) m.

(** [SERVER_CONFIG.maxProcessLifetime] *)
Definition maxProcessLifetime : Z := 30 * 60 * 1000.

Inductive StartError :=
  | MAX_PROCESSES_EXCEEDED
  | RUNTIME_NOT_AVAILABLE (command packageType : list Z)
  | Unsupported_package_type (packageType : list Z)
  | INVALID_ARGS_contains_dangerous_characters
  | URIError.

(** [params[k]] on the own properties of [params] (keys distinct). *)
Fixpoint param_get (k : list Z) (params : list (list Z * JSON)) : option JSON :=
  match params with
  | [] => None
  | (k', v) :: ps => if list_eq_dec Z.eq_dec k k' then Some v else param_get k ps
  end.

Section Manager.
(** [String(Object.prototype[k])] for the inherited keys of [parameterMappings]. *)
Variable fn_source : list Z -> list Z.
(** [decodeURIComponent]; [None] is a thrown [URIError]. *)
Variable decodeURIComponent : list Z -> option (list Z).
(** [process.env] *)
Variable processEnv : Obj.
(** [commandExists]: whether [which command] succeeds. *)
Variable commandExists : list Z -> bool.

(** [if (params.args && typeof params.args === 'string') { ... }]: the
    custom arguments appended to [args]. *)
Definition custom_args (params : list (list Z * JSON)) : StartError + list (list Z) :=
  match param_get (js "args") params with
  | Some (JStr a) =>
    if truthy a then
      match decodeURIComponent a with
      | None => inl URIError
      | Some customArgsRaw =>
        match validateArgs customArgsRaw with
        | inl _ => inl INVALID_ARGS_contains_dangerous_characters
        | inr customArgs => inr customArgs
        end
      end
    else inr []
  | _ => inr []
  end.

(** [parsedPackage.version && parsedPackage.version !== 'latest'] *)
Definition pinned (parsed : ParsedPackage) : bool :=
  truthy (version parsed) &&
  (if list_eq_dec Z.eq_dec (version parsed) (js "latest") then false else true).

(** [buildMCPCommand] *)
Definition buildMCPCommand (packageName : list Z) (packageType : list Z)
  (params : list (list Z * JSON)) : StartError + (list Z * list (list Z) * Obj) :=
  let env := mapParametersToEnv fn_source processEnv params in
  let parsedPackage := parsePackageName packageName in
  if list_eq_dec Z.eq_dec packageType (js "python") then
    let args := if pinned parsedPackage
                then [fullName parsedPackage ++ js "==" ++ version parsedPackage]
                else [fullName parsedPackage] in
    match custom_args params with
    | inl e => inl e
    | inr customArgs => inr (js "uvx", args ++ customArgs, env)
    end
  else if list_eq_dec Z.eq_dec packageType (js "npm") then
    let args := if pinned parsedPackage
                then [js "-y"; fullName parsedPackage ++ js "@" ++ version parsedPackage]
                else [js "-y"; fullName parsedPackage] in
    match custom_args params with
    | inl e => inl e
    | inr customArgs => inr (js "npx", args ++ customArgs, env)
    end
  else inl (Unsupported_package_type packageType).

(** The synchronous part of [startMCPServer], up to the [await]: [now] is
    the [Date.now()] of the [processId], [t_start] and [t_access] the two
    of the stored [ProcessInfo].  A thrown error is [inl]; it leaves the
    manager as it was. *)
Definition startMCPServer (st : PMState) (packageName protocol packageType : list Z)
  (params : list (list Z * JSON)) (now t_start t_access : Z)
  : StartError + (list Z * PMState) :=
  let processId := packageName ++ js "_" ++ protocol ++ js "_" ++ Framer.dec now in
  if (MCPProxy.maxConcurrentProcesses <=? length (mcpProcesses st))%nat
  then inl MAX_PROCESSES_EXCEEDED
  else
    match buildMCPCommand packageName packageType params with
    | inl e => inl e
    | inr (command, args, env) =>
      if negb (commandExists command) then inl (RUNTIME_NOT_AVAILABLE command packageType)
      else
        let pid := next_pid st in
        inr (processId,
             mkPM (mset processId (mkInfo pid packageName protocol t_start t_access)
                        (mcpProcesses st))
                  (pid + 1)
                  (spawned st ++ [mkSpawn pid processId command args env])
                  (kills st))
    end.

End Manager.

(** The [error] or [exit] event of the child [pid]: its handler deletes
    the [processId] it was started under. *)
Definition process_exit (pid : Z) (st : PMState) : PMState :=
  match find (fun s => sp_pid s =? pid) (spawned st) with
  | Some s => mkPM (mdelete (sp_id s) (mcpProcesses st)) (next_pid st) (spawned st) (kills st)
  | None => st
  end.

(** The loop of [findExistingProcess]: the first entry of the package and
    protocol gets [lastAccess = now]. *)
Fixpoint find_touch (packageName protocol : list Z) (now : Z) (m : list (list Z * ProcessInfo))
  : option (list Z) * list (list Z * ProcessInfo) :=
  match m with
  | [] => (None, [])
  | (id, info) :: m' =>
    if (if list_eq_dec Z.eq_dec (ProcessManager.packageName info) packageName then
          if list_eq_dec Z.eq_dec (ProcessManager.protocol info) protocol then true else false
        else false)
    then (Some id, (id, mkInfo (process info) (ProcessManager.packageName info)
                              (ProcessManager.protocol info) (startTime info) now) :: m')
    else let '(r, m'') := find_touch packageName protocol now m' in (r, (id, info) :: m'')
  end.

(** [findExistingProcess] at time [now]; [None] is [null]. *)
Definition findExistingProcess (st : PMState) (packageName protocol : list Z) (now : Z)
  : option (list Z) * PMState :=
  let '(r, m) := find_touch packageName protocol now (mcpProcesses st) in
  (r, mkPM m (next_pid st) (spawned st) (kills st)).

(** [killAllProcesses]: the loop deletes only the entry it visits, so it
    visits the entries present when it starts, in order. *)
Definition killAllProcesses (st : PMState) : PMState :=
  fold_left (fun acc e =>
      mkPM (mdelete (fst e) (mcpProcesses acc)) (next_pid acc) (spawned acc)
           (kills acc ++ [process (snd e)]))
    (mcpProcesses st) st.

Definition stale (now : Z) (e : list Z * ProcessInfo) : bool :=
  maxProcessLifetime <? now - lastAccess (snd e).

(** [cleanupProcesses] at time [now]. *)
Definition cleanupProcesses (now : Z) (st : PMState) : PMState :=
  fold_left (fun acc e =>
      if stale now e then
        mkPM (mdelete (fst e) (mcpProcesses acc)) (next_pid acc) (spawned acc)
             (kills acc ++ [process (snd e)])
      else acc)
    (mcpProcesses st) st.

(** [getProcessCount] *)
Definition getProcessCount (st : PMState) : nat := length (mcpProcesses st).

(** What can happen to a manager: a [startMCPServer] call, a child's
    [error] or [exit] event, a [findExistingProcess] call, a
    [killAllProcesses] call and a run of the cleanup interval. *)
Inductive Op :=
  | Start (packageName protocol packageType : list Z) (params : list (list Z * JSON))
          (now t_start t_access : Z)
  | Exit (pid : Z)
  | Find (packageName protocol : list Z) (now : Z)
  | KillAll
  | Cleanup (now : Z).

Section Run.
Variable fn_source : list Z -> list Z.
Variable decodeURIComponent : list Z -> option (list Z).
Variable processEnv : Obj.
Variable commandExists : list Z -> bool.

Definition step (st : PMState) (op : Op) : PMState :=
  match op with
  | Start pkg proto ty params now t1 t2 =>
    match startMCPServer fn_source decodeURIComponent processEnv commandExists
            st pkg proto ty params now t1 t2 with
    | inl _ => st
    | inr (_, st') => st'
    end
  | Exit pid => process_exit pid st
  | Find pkg proto now => snd (findExistingProcess st pkg proto now)
  | KillAll => killAllProcesses st
  | Cleanup now => cleanupProcesses now st
  end.

Definition run (st : PMState) (ops : list Op) : PMState := fold_left step ops st.

End Run.

(** A new [ProcessManager]. *)
Definition init (pid0 : Z) : PMState := mkPM [] pid0 [] [].

(** *** Lemmas *)

Lemma mget_app : forall k m1 m2,
  mget k (m1 ++ m2) = match mget k m1 with Some v => Some v | None => mget k m2 end.
Proof.
  intros k m1 m2. induction m1 as [|[k' v] m1 IH]; [reflexivity|].
  cbn [app mget]. destruct (list_eq_dec Z.eq_dec k k'); [reflexivity|exact IH].
Qed.

Lemma mget_replace_other : forall k k' v m, k' <> k ->
  mget k' (map (fun e => if list_eq_dec Z.eq_dec (fst e) k then (k, v) else e) m) = mget k' m.
Proof.
  intros k k' v m Hne. induction m as [|[k0 x] m IH]; [reflexivity|].
  cbn [map fst]. destruct (list_eq_dec Z.eq_dec k0 k) as [->|]; cbn [mget].
  - destruct (list_eq_dec Z.eq_dec k' k); [congruence|exact IH].
  - destruct (list_eq_dec Z.eq_dec k' k0); [reflexivity|exact IH].
Qed.

Lemma mget_replace_same : forall k v m, mget k m <> None ->
  mget k (map (fun e => if list_eq_dec Z.eq_dec (fst e) k then (k, v) else e) m) = Some v.
Proof.
  intros k v m. induction m as [|[k0 x] m IH]; intros H; [exfalso; apply H; reflexivity|].
  cbn [map fst]. cbn [mget] in H. destruct (list_eq_dec Z.eq_dec k0 k) as [->|Hne]; cbn [mget].
  - destruct (list_eq_dec Z.eq_dec k k); congruence.
  - destruct (list_eq_dec Z.eq_dec k k0); [congruence|]. apply IH. exact H.
Qed.

Lemma mget_set : forall k k' v m,
  mget k' (mset k v m) = if list_eq_dec Z.eq_dec k' k then Some v else mget k' m.
Proof.
  intros k k' v m. unfold mset. destruct (mget k m) eqn:E.
  - destruct (list_eq_dec Z.eq_dec k' k) as [->|Hne].
    + apply mget_replace_same. congruence.
    + apply mget_replace_other. exact Hne.
  - rewrite mget_app. destruct (list_eq_dec Z.eq_dec k' k) as [->|Hne].
    + rewrite E. cbn. destruct (list_eq_dec Z.eq_dec k k); congruence.
    + destruct (mget k' m); [reflexivity|]. cbn.
      destruct (list_eq_dec Z.eq_dec k' k); congruence.
Qed.

Lemma mget_none : forall k m, mget k m = None <-> ~ In k (map fst m).
Proof.
  intros k m. induction m as [|[k' x] m IH]; cbn [mget map fst In]; [tauto|].
  destruct (list_eq_dec Z.eq_dec k k') as [->|Hne].
  - split; [discriminate|]. intros H. exfalso. apply H. left. reflexivity.
  - rewrite IH. split; [intros H [H'|H']; [congruence|auto]|auto].
Qed.

Lemma mset_keys : forall k v m,
  map fst (mset k v m) = match mget k m with Some _ => map fst m | None => map fst m ++ [k] end.
Proof.
  intros k v m. unfold mset. destruct (mget k m).
  - clear. induction m as [|[k' x] m IH]; [reflexivity|].
    cbn [map fst]. destruct (list_eq_dec Z.eq_dec k' k) as [->|]; cbn [fst]; rewrite IH; reflexivity.
  - rewrite map_app. reflexivity.
Qed.

Lemma mset_length : forall k v m,
  length (mset k v m) = match mget k m with Some _ => length m | None => S (length m) end.
Proof.
  intros k v m. rewrite <- (length_map fst (mset k v m)), mset_keys.
  destruct (mget k m); rewrite ?length_app, length_map; cbn; lia.
Qed.

Lemma mdelete_length : forall k m, (length (mdelete k m) <= length m)%nat.
Proof.
  intros k m. unfold mdelete. induction m as [|e m IH]; [reflexivity|].
  cbn [filter]. destruct (list_eq_dec Z.eq_dec (fst e) k); cbn [length]; lia.
Qed.

Lemma mdelete_unique : forall k done e l,
  fst e = k -> ~ In k (map fst done) -> ~ In k (map fst l) ->
  mdelete k (done ++ e :: l) = done ++ l.
Proof.
  intros k done e l He Hd Hl. unfold mdelete.
  rewrite filter_app. cbn [filter]. rewrite He.
  destruct (list_eq_dec Z.eq_dec k k); [|congruence].
  f_equal; apply forallb_filter_id, forallb_forall; intros x Hx;
    destruct (list_eq_dec Z.eq_dec (fst x) k); auto; exfalso;
    [apply Hd|apply Hl]; apply in_map_iff; eauto.
Qed.

Lemma mget_mdelete_same : forall k m, mget k (mdelete k m) = None.
Proof.
  intros k m. apply mget_none. intros Hin. apply in_map_iff in Hin as (e & He & Hin).
  unfold mdelete in Hin. apply filter_In in Hin as [_ Hf].
  destruct (list_eq_dec Z.eq_dec (fst e) k); congruence.
Qed.

Lemma find_touch_length : forall pkg proto now m,
  length (snd (find_touch pkg proto now m)) = length m.
Proof.
  intros pkg proto now m. induction m as [|[id info] m IH]; [reflexivity|].
  cbn [find_touch]. destruct (if list_eq_dec _ _ _ then _ else false); [reflexivity|].
  destruct (find_touch pkg proto now m) as [r m'']. cbn [snd length] in *. lia.
Qed.

(** The loop shared by [killAllProcesses] and [cleanupProcesses], over a
    Map whose keys are distinct. *)
Lemma pm_fold : forall (p : list Z * ProcessInfo -> bool) l done acc,
  mcpProcesses acc = done ++ l -> NoDup (map fst (done ++ l)) ->
  let r := fold_left (fun acc e =>
      if p e then
        mkPM (mdelete (fst e) (mcpProcesses acc)) (next_pid acc) (spawned acc)
             (kills acc ++ [process (snd e)])
      else acc) l acc in
  mcpProcesses r = done ++ filter (fun e => negb (p e)) l /\
  kills r = kills acc ++ map (fun e => process (snd e)) (filter p l) /\
  next_pid r = next_pid acc /\ spawned r = spawned acc.
Proof.
  intros p l. induction l as [|e l IH]; intros done acc Hs Hnd; cbn [fold_left filter map].
  - rewrite !app_nil_r in *. auto.
  - rewrite map_app in Hnd. cbn [map] in Hnd.
    pose proof Hnd as Hnd0.
    apply NoDup_remove in Hnd as [Hnd Hnotin].
    rewrite in_app_iff in Hnotin.
    destruct (p e) eqn:Ei; cbn [negb].
    + edestruct (IH done (mkPM (mdelete (fst e) (mcpProcesses acc)) (next_pid acc)
                               (spawned acc) (kills acc ++ [process (snd e)])))
        as (H1 & H2 & H3 & H4).
      * cbn [mcpProcesses]. rewrite Hs. apply mdelete_unique; auto.
      * rewrite map_app; exact Hnd.
      * cbn [kills next_pid spawned] in *. rewrite H1, H2, H3, H4, <- app_assoc. auto.
    + edestruct (IH (done ++ [e]) acc) as (H1 & H2 & H3 & H4).
      * rewrite Hs, <- app_assoc. reflexivity.
      * rewrite !map_app. cbn [map]. rewrite <- app_assoc. cbn [app].
        exact Hnd0.
      * rewrite H1, H2, H3, H4, <- app_assoc. auto.
Qed.

Lemma pm_fold_length : forall (p : list Z * ProcessInfo -> bool) l acc,
  (length (mcpProcesses (fold_left (fun acc e =>
      if p e then
        mkPM (mdelete (fst e) (mcpProcesses acc)) (next_pid acc) (spawned acc)
             (kills acc ++ [process (snd e)])
      else acc) l acc)) <= length (mcpProcesses acc))%nat.
Proof.
  intros p l. induction l as [|e l IH]; intros acc; cbn [fold_left]; [lia|].
  destruct (p e).
  - etransitivity; [apply IH|]. cbn [mcpProcesses]. apply mdelete_length.
  - apply IH.
Qed.

Lemma cleanupProcesses_eq : forall now st,
  NoDup (map fst (mcpProcesses st)) ->
  mcpProcesses (cleanupProcesses now st) = filter (fun e => negb (stale now e)) (mcpProcesses st) /\
  kills (cleanupProcesses now st) =
    kills st ++ map (fun e => process (snd e)) (filter (stale now) (mcpProcesses st)) /\
  next_pid (cleanupProcesses now st) = next_pid st /\
  spawned (cleanupProcesses now st) = spawned st.
Proof.
  intros now st Hnd. exact (pm_fold (stale now) (mcpProcesses st) [] st eq_refl Hnd).
Qed.

Lemma killAllProcesses_eq : forall st,
  NoDup (map fst (mcpProcesses st)) ->
  mcpProcesses (killAllProcesses st) = [] /\
  kills (killAllProcesses st) = kills st ++ map (fun e => process (snd e)) (mcpProcesses st) /\
  next_pid (killAllProcesses st) = next_pid st /\
  spawned (killAllProcesses st) = spawned st.
Proof.
  intros st Hnd. destruct (pm_fold (fun _ => true) (mcpProcesses st) [] st eq_refl Hnd)
    as (H1 & H2 & H3 & H4).
  unfold killAllProcesses. rewrite H1, H2, H3, H4.
  assert (Hf : forall (l : list (list Z * ProcessInfo)),
             filter (fun e => negb ((fun _ => true) e)) l = [] /\ filter (fun _ => true) l = l).
  { induction l as [|e l [IH1 IH2]]; [auto|]. split; [exact IH1|cbn [filter]; f_equal; exact IH2]. }
  destruct (Hf (mcpProcesses st)) as [-> ->]. auto.
Qed.

Lemma step_cap : forall fn dec env ce st op,
  (length (mcpProcesses st) <= MCPProxy.maxConcurrentProcesses)%nat ->
  (length (mcpProcesses (step fn dec env ce st op)) <= MCPProxy.maxConcurrentProcesses)%nat.
Proof.
  intros fn dec env ce st op H. destruct op as [pkg proto ty params now t1 t2|pid|pkg proto now| |now];
    cbn [step].
  - unfold startMCPServer.
    destruct (Nat.leb_spec MCPProxy.maxConcurrentProcesses (length (mcpProcesses st))); [exact H|].
    destruct (buildMCPCommand fn dec env pkg ty params) as [e|[[command args] e]]; [exact H|].
    destruct (negb (ce command)); [exact H|]. cbn [mcpProcesses].
    rewrite mset_length. destruct (mget _ _); lia.
  - unfold process_exit. destruct (find _ _); [|exact H]. cbn [mcpProcesses].
    etransitivity; [apply mdelete_length|exact H].
  - unfold findExistingProcess.
    pose proof (find_touch_length pkg proto now (mcpProcesses st)) as E.
    destruct (find_touch pkg proto now (mcpProcesses st)). cbn [snd mcpProcesses] in *. lia.
  - etransitivity; [apply (pm_fold_length (fun _ => true))|exact H].
  - etransitivity; [apply (pm_fold_length (stale now))|exact H].
Qed.

Lemma run_cap : forall fn dec env ce ops st,
  (length (mcpProcesses st) <= MCPProxy.maxConcurrentProcesses)%nat ->
  (length (mcpProcesses (run fn dec env ce st ops)) <= MCPProxy.maxConcurrentProcesses)%nat.
Proof.
  intros fn dec env ce ops. unfold run. induction ops as [|op ops IH]; intros st H; [exact H|].
  cbn [fold_left]. apply IH. apply step_cap. exact H.
Qed.

Lemma mset_incl : forall k v m e, In e (mset k v m) -> e = (k, v) \/ (In e m /\ fst e <> k).
Proof.
  intros k v m e. unfold mset. destruct (mget k m) eqn:E.
  - intros H. apply in_map_iff in H as (e' & <- & Hin).
    destruct (list_eq_dec Z.eq_dec (fst e') k); auto.
  - intros H. apply in_app_or in H as [H|[H|[]]]; auto.
    right. split; [exact H|]. intros Hk. apply mget_none in E. apply E. rewrite <- Hk.
    apply in_map. exact H.
Qed.

Lemma nodup_mset : forall k v m, NoDup (map fst m) -> NoDup (map fst (mset k v m)).
Proof.
  intros k v m H. rewrite mset_keys. destruct (mget k m) eqn:E; [exact H|].
  apply mget_none in E. apply NoDup_app; auto using NoDup_cons, NoDup_nil.
  intros x Hx [<-|[]]. contradiction.
Qed.

Lemma nodup_filter_pm : forall (p : list Z * ProcessInfo -> bool) m,
  NoDup (map fst m) -> NoDup (map fst (filter p m)).
Proof.
  intros p m. induction m as [|e m IH]; intros H; [constructor|].
  cbn [filter map] in *. inversion H as [|? ? Hn Hnd]; subst.
  destruct (p e); [|auto]. cbn [map]. constructor; [|auto].
  intros Hin. apply Hn. apply in_map_iff in Hin as (x & Hx & Hin).
  apply filter_In in Hin as [Hin _]. rewrite <- Hx. apply in_map. exact Hin.
Qed.

Lemma mdelete_incl : forall k m e, In e (mdelete k m) -> In e m /\ fst e <> k.
Proof.
  intros k m e H. unfold mdelete in H. apply filter_In in H as [H Hf].
  destruct (list_eq_dec Z.eq_dec (fst e) k); [discriminate|auto].
Qed.

Lemma mget_nodup : forall k v m, NoDup (map fst m) -> In (k, v) m -> mget k m = Some v.
Proof.
  intros k v m. induction m as [|[k' x] m IH]; [contradiction|].
  intros Hnd [E|Hin]; cbn [mget]; cbn [map fst] in Hnd; inversion Hnd as [|? ? Hn Hnd']; subst.
  - injection E as -> ->. destruct (list_eq_dec Z.eq_dec k k); congruence.
  - destruct (list_eq_dec Z.eq_dec k k') as [->|]; [|auto].
    exfalso. apply Hn. apply in_map_iff. exists (k', v). auto.
Qed.

Lemma find_app_skip : forall (f : Spawn -> bool) l1 l2,
  Forall (fun x => f x = false) l1 -> find f (l1 ++ l2) = find f l2.
Proof.
  intros f l1 l2 H. induction H as [|x l1 Hx H IH]; [reflexivity|].
  cbn [app find]. rewrite Hx. exact IH.
Qed.

Lemma find_touch_found : forall pkg proto now m id m',
  find_touch pkg proto now m = (Some id, m') ->
  exists pre info post,
    m = pre ++ (id, info) :: post /\
    m' = pre ++ (id, mkInfo (process info) pkg proto (startTime info) now) :: post.
Proof.
  intros pkg proto now m. induction m as [|[id0 info0] m IH]; intros id m' H; [discriminate|].
  cbn [find_touch] in H.
  destruct (list_eq_dec Z.eq_dec (ProcessManager.packageName info0) pkg) as [Ep|];
  [destruct (list_eq_dec Z.eq_dec (ProcessManager.protocol info0) proto) as [Eq|]|].
  - injection H as <- <-. exists [], info0, m. rewrite Ep, Eq. auto.
  - destruct (find_touch pkg proto now m) as [r m''] eqn:E. injection H as -> <-.
    destruct (IH id m'' eq_refl) as (pre & info & post & -> & ->).
    exists ((id0, info0) :: pre), info, post. auto.
  - destruct (find_touch pkg proto now m) as [r m''] eqn:E. injection H as -> <-.
    destruct (IH id m'' eq_refl) as (pre & info & post & -> & ->).
    exists ((id0, info0) :: pre), info, post. auto.
Qed.




(** *** Properties *)

(** However requests, child exits, lookups, kills and cleanup runs
    interleave, a manager that starts empty never tracks more than
    [maxConcurrentProcesses] (10) processes: the limit check and the
    [Map.set] run in one synchronous block. *)
Theorem process_cap : forall fn_source decodeURIComponent processEnv commandExists pid0 ops,
  (getProcessCount (run fn_source decodeURIComponent processEnv commandExists (init pid0) ops)
   <= MCPProxy.maxConcurrentProcesses)%nat.
Proof.
  intros. apply run_cap. cbn. lia.
Qed.

(** One run of the cleanup interval (a Map, so its keys are distinct)
    removes exactly the processes last accessed more than 30 minutes ago,
    keeps the others in place and in order, and kills exactly the removed
    children, in Map order. *)
Theorem cleanupProcesses_spec : forall now st,
  NoDup (map fst (mcpProcesses st)) ->
  mcpProcesses (cleanupProcesses now st) =
    filter (fun e => negb (now - lastAccess (snd e) >? 30 * 60 * 1000)) (mcpProcesses st) /\
  kills (cleanupProcesses now st) =
    kills st ++ map (fun e => process (snd e))
                 (filter (fun e => now - lastAccess (snd e) >? 30 * 60 * 1000) (mcpProcesses st)) /\
  spawned (cleanupProcesses now st) = spawned st.
Proof.
  intros now st Hnd. destruct (cleanupProcesses_eq now st Hnd) as (H1 & H2 & _ & H4).
  assert (Hs : forall e, stale now e = (now - lastAccess (snd e) >? 30 * 60 * 1000)).
  { intros e. unfold stale, maxProcessLifetime. rewrite Z.gtb_ltb. reflexivity. }
  rewrite H1, H2, H4. split; [|split; [|reflexivity]].
  - apply filter_ext. intros e. rewrite Hs. reflexivity.
  - f_equal. f_equal. apply filter_ext. exact Hs.
Qed.

(** Two [startMCPServer] calls for the same package and protocol in the
    same millisecond get the same [processId]: both spawn a child, but the
    second [Map.set] overwrites the entry of the first.  The first child is
    then tracked nowhere, so [killAllProcesses] does not kill it; and when
    it exits, its handler deletes the entry of the second child, which keeps
    running untracked, out of reach of [killAllProcesses] too. *)
Theorem same_ms_start_orphans :
  forall fn_source decodeURIComponent processEnv commandExists st pkg proto ty params
         now t1 t2 t1' t2' id1 st1,
  (length (mcpProcesses st) < 9)%nat ->
  NoDup (map fst (mcpProcesses st)) ->
  Forall (fun e => process (snd e) < next_pid st) (mcpProcesses st) ->
  Forall (fun p => p < next_pid st) (kills st) ->
  Forall (fun s => sp_pid s < next_pid st) (spawned st) ->
  startMCPServer fn_source decodeURIComponent processEnv commandExists
    st pkg proto ty params now t1 t2 = inr (id1, st1) ->
  exists st2,
    startMCPServer fn_source decodeURIComponent processEnv commandExists
      st1 pkg proto ty params now t1' t2' = inr (id1, st2) /\
    map sp_pid (spawned st2) = map sp_pid (spawned st) ++ [next_pid st; next_pid st + 1] /\
    mget id1 (mcpProcesses st2) = Some (mkInfo (next_pid st + 1) pkg proto t1' t2') /\
    ~ In (next_pid st) (kills (killAllProcesses st2)) /\
    mget id1 (mcpProcesses (process_exit (next_pid st) st2)) = None /\
    ~ In (next_pid st + 1) (kills (killAllProcesses (process_exit (next_pid st) st2))).
Proof.
  intros fn dec env ce st pkg proto ty params now t1 t2 t1' t2' id1 st1
    Hlen Hnd Hpids Hkills Hsp H.
  unfold startMCPServer in H.
  destruct (Nat.leb_spec MCPProxy.maxConcurrentProcesses (length (mcpProcesses st)));
    [unfold MCPProxy.maxConcurrentProcesses in *; lia|].
  destruct (buildMCPCommand fn dec env pkg ty params) as [e|[[command args] en]] eqn:Eb;
    [discriminate|].
  destruct (ce command) eqn:Ec; cbn [negb] in H; [|discriminate].
  set (p := next_pid st) in *.
  set (info1 := mkInfo p pkg proto t1 t2).
  set (info2 := mkInfo (p + 1) pkg proto t1' t2').
  injection H as <- <-.
  change (pkg ++ 95 :: proto ++ 95 :: Framer.dec now)
    with (pkg ++ js "_" ++ proto ++ js "_" ++ Framer.dec now) in *.
  set (id1 := pkg ++ js "_" ++ proto ++ js "_" ++ Framer.dec now).
  set (m1 := mset id1 info1 (mcpProcesses st)).
  set (m2 := mset id1 info2 m1).
  assert (Hl1 : (length m1 <= S (length (mcpProcesses st)))%nat)
    by (unfold m1; rewrite mset_length; destruct (mget _ _); lia).
  exists (mkPM m2 (p + 1 + 1)
            (spawned st ++ [mkSpawn p id1 command args en] ++ [mkSpawn (p + 1) id1 command args en])
            (kills st)).
  assert (Hnd2 : NoDup (map fst m2)) by (apply nodup_mset, nodup_mset, Hnd).
  (* every entry of [m2] is the second child's or an older one of [st] *)
  assert (Hm2 : forall e, In e m2 -> e = (id1, info2) \/ (In e (mcpProcesses st) /\ fst e <> id1)).
  { intros e He. apply mset_incl in He as [He|[He Hk]]; [auto|].
    apply mset_incl in He as [He|[He _]]; [subst e; cbn in Hk; congruence|auto]. }
  assert (Hold : forall e, In e (mcpProcesses st) -> process (snd e) < p).
  { intros e He. rewrite Forall_forall in Hpids. exact (Hpids e He). }
  assert (Hk : forall q, In q (kills st) -> q < p).
  { intros q Hq. rewrite Forall_forall in Hkills. exact (Hkills q Hq). }
  split.
  { unfold startMCPServer. cbn [mcpProcesses next_pid spawned kills].
    change (mset id1 (mkInfo p pkg proto t1 t2) (mcpProcesses st)) with m1.
    destruct (Nat.leb_spec MCPProxy.maxConcurrentProcesses (length m1));
      [unfold MCPProxy.maxConcurrentProcesses in *; lia|].
    rewrite Eb, Ec. cbn [negb]. rewrite <- app_assoc. reflexivity. }
  split; [cbn [spawned]; rewrite !map_app; reflexivity|].
  split; [cbn [mcpProcesses]; unfold m2; rewrite mget_set; destruct (list_eq_dec Z.eq_dec id1 id1); congruence|].
  assert (Hexit : process_exit p (mkPM m2 (p + 1 + 1)
            (spawned st ++ [mkSpawn p id1 command args en] ++ [mkSpawn (p + 1) id1 command args en])
            (kills st)) = mkPM (mdelete id1 m2) (p + 1 + 1)
            (spawned st ++ [mkSpawn p id1 command args en] ++ [mkSpawn (p + 1) id1 command args en])
            (kills st)).
  { unfold process_exit. cbn [spawned mcpProcesses next_pid kills].
    rewrite find_app_skip.
    - cbn [app find sp_pid]. rewrite Z.eqb_refl. reflexivity.
    - rewrite Forall_forall in Hsp |- *. intros x Hx. apply Z.eqb_neq. specialize (Hsp x Hx). lia. }
  split.
  { destruct (killAllProcesses_eq (mkPM m2 (p + 1 + 1) (spawned st ++ [mkSpawn p id1 command args en] ++
                                     [mkSpawn (p + 1) id1 command args en]) (kills st)) Hnd2)
      as (_ & HK & _ & _).
    rewrite HK. cbn [kills mcpProcesses]. intros Hin. apply in_app_or in Hin as [Hin|Hin].
    - specialize (Hk p Hin). lia.
    - apply in_map_iff in Hin as (e & He & Hin). apply Hm2 in Hin as [->|[Hin _]].
      + cbn in He. lia.
      + specialize (Hold e Hin). lia. }
  rewrite Hexit. split; [apply mget_mdelete_same|].
  assert (Hnd3 : NoDup (map fst (mdelete id1 m2))) by (apply nodup_filter_pm; exact Hnd2).
  destruct (killAllProcesses_eq (mkPM (mdelete id1 m2) (p + 1 + 1) (spawned st ++
              [mkSpawn p id1 command args en] ++ [mkSpawn (p + 1) id1 command args en]) (kills st)) Hnd3)
    as (_ & HK & _ & _).
  rewrite HK. cbn [kills mcpProcesses]. intros Hin. apply in_app_or in Hin as [Hin|Hin].
  - specialize (Hk _ Hin). lia.
  - apply in_map_iff in Hin as (e & He & Hin). apply mdelete_incl in Hin as [Hin Hne].
    apply Hm2 in Hin as [->|[Hin _]].
    + cbn in Hne. congruence.
    + specialize (Hold e Hin). lia.
Qed.

(** A process [findExistingProcess] hands out at time [now] is not reaped
    by a cleanup run at most 30 minutes later: it is still in the Map, with
    the package, the protocol and the access time of the lookup. *)
Theorem find_survives_cleanup : forall st pkg proto now now' id st',
  NoDup (map fst (mcpProcesses st)) ->
  findExistingProcess st pkg proto now = (Some id, st') ->
  now' - now <= 30 * 60 * 1000 ->
  exists info,
    mget id (mcpProcesses (cleanupProcesses now' st')) = Some info /\
    ProcessManager.packageName info = pkg /\ ProcessManager.protocol info = proto /\
    lastAccess info = now.
Proof.
  intros st pkg proto now now' id st' Hnd H Hnow.
  unfold findExistingProcess in H.
  destruct (find_touch pkg proto now (mcpProcesses st)) as [r m] eqn:E.
  injection H as -> <-.
  destruct (find_touch_found pkg proto now (mcpProcesses st) id m E)
    as (pre & info & post & Hm & ->).
  set (info' := mkInfo (process info) pkg proto (startTime info) now).
  assert (Hnd' : NoDup (map fst (pre ++ (id, info') :: post))).
  { rewrite Hm in Hnd. rewrite !map_app in *. exact Hnd. }
  destruct (cleanupProcesses_eq now' (mkPM (pre ++ (id, info') :: post) (next_pid st)
              (spawned st) (kills st)) Hnd') as (H1 & _).
  exists info'. split; [|cbn; auto].
  rewrite H1. apply mget_nodup; [apply nodup_filter_pm; exact Hnd'|].
  apply filter_In. split; [apply in_or_app; right; left; reflexivity|].
  unfold stale, maxProcessLifetime. cbn [snd lastAccess info']. apply negb_true_iff, Z.ltb_ge. lia.
Qed.


(** The package spec [buildMCPCommand] builds from a name [pre@v] (the
    last [@] not in first position): [npx] gets the name as given and [uvx]
    gets [pre==v]; for [v] empty or [latest] both get [pre] alone.  A name
    with no such [@] is passed as it is. *)
Theorem buildMCPCommand_package_spec :
  forall fn_source decodeURIComponent processEnv params,
  let build := buildMCPCommand fn_source decodeURIComponent processEnv in
  let finish command args :=
    match custom_args decodeURIComponent params with
    | inl e => inl e
    | inr xs => inr (command, args ++ xs, mapParametersToEnv fn_source processEnv params)
    end in
  (forall pre v, pre <> [] -> ~ In 64 v ->
     build (pre ++ 64 :: v) (js "npm") params =
       finish (js "npx") (if pinned (parsePackageName (pre ++ 64 :: v))
                          then [js "-y"; pre ++ 64 :: v] else [js "-y"; pre]) /\
     build (pre ++ 64 :: v) (js "python") params =
       finish (js "uvx") (if pinned (parsePackageName (pre ++ 64 :: v))
                          then [pre ++ js "==" ++ v] else [pre]) /\
     pinned (parsePackageName (pre ++ 64 :: v)) =
       negb (if list_eq_dec Z.eq_dec v [] then true
             else if list_eq_dec Z.eq_dec v (js "latest") then true else false)) /\
  (forall s, ~ In 64 (tl s) ->
     build s (js "npm") params = finish (js "npx") [js "-y"; s] /\
     build s (js "python") params = finish (js "uvx") [s]).
Proof.
  intros fn dec penv params build finish. split.
  - intros pre v Hp Hv.
    destruct (proj1 (parse_split (pre ++ 64 :: v)) pre v eq_refl Hp Hv) as [Ef Ev].
    assert (Hpin : pinned (parsePackageName (pre ++ 64 :: v)) =
       negb (if list_eq_dec Z.eq_dec v [] then true
             else if list_eq_dec Z.eq_dec v (js "latest") then true else false)).
    { unfold pinned. rewrite Ev. destruct v as [|c v'].
      - reflexivity.
      - cbn [truthy andb]. destruct (list_eq_dec Z.eq_dec (c :: v') []); [discriminate|].
        destruct (list_eq_dec Z.eq_dec (c :: v') (js "latest")); reflexivity. }
    split; [|split; [|exact Hpin]].
    + unfold build, buildMCPCommand, finish.
      destruct (list_eq_dec Z.eq_dec (js "npm") (js "python")) as [E|_]; [discriminate|].
      destruct (list_eq_dec Z.eq_dec (js "npm") (js "npm")) as [_|]; [|congruence].
      rewrite Ef, Ev. destruct (pinned _); reflexivity.
    + unfold build, buildMCPCommand, finish.
      destruct (list_eq_dec Z.eq_dec (js "python") (js "python")) as [_|]; [|congruence].
      rewrite Ef, Ev. destruct (pinned _); reflexivity.
  - intros s Hs. destruct (proj2 (parse_split s) Hs) as [Ef Ev].
    assert (Hpin : pinned (parsePackageName s) = false).
    { unfold pinned. rewrite Ev. reflexivity. }
    split.
    + unfold build, buildMCPCommand, finish.
      destruct (list_eq_dec Z.eq_dec (js "npm") (js "python")) as [E|_]; [discriminate|].
      destruct (list_eq_dec Z.eq_dec (js "npm") (js "npm")) as [_|]; [|congruence].
      rewrite Hpin, Ef. reflexivity.
    + unfold build, buildMCPCommand, finish.
      destruct (list_eq_dec Z.eq_dec (js "python") (js "python")) as [_|]; [|congruence].
      rewrite Hpin, Ef. reflexivity.
Qed.

End ProcessManager.

(** ** MCPHandler sessions (src/src/mcp-handler.ts) *)
Module HandlerOps.
Import MCPHandler ValidationOps.

(** [MCPErrorCodes] *)
Definition UNSUPPORTED_PROTOCOL_VERSION : Z := -32000.
Definition SERVER_NOT_READY : Z := -32006.
Definition METHOD_NOT_FOUND : Z := -32601.
Definition INTERNAL_ERROR : Z := -32603.

Definition MCP_PROTOCOL_VERSION : list Z := js "2024-11-05".

(** A field that holds [null], [undefined] or a value. *)
Inductive Stored := Null | Undefined | Value (v : JSON).

(** Assigning a property read ([None] is [undefined]) to a field. *)
Definition store (x : option JSON) : Stored :=
  match x with
  | None => Undefined
  | Some JNull => Null
  | Some v => Value v
  end.

(** The fields of an [MCPHandler]. *)
Record HState := mkH {
  isInitialized : bool;
  clientCapabilities : Stored;
  protocolVersion : Stored
}.

Definition initial : HState := mkH false Null Null.

(** [reset] *)
Definition reset (st : HState) : HState := mkH false Null Null.

(** [createMCPErrorResponse(id, createError(code, message, data))] as
    [c.json] serialises it: an [undefined] [data] is left out. *)
Definition error_response (id : JSON) (code : Z) (message : list Z) (data : option JSON) : JSON :=
  JObj [(js "jsonrpc", JStr (js "2.0")); (js "id", id);
        (js "error", JObj ([(js "code", JNum code); (js "message", JStr message)] ++
                           match data with Some d => [(js "data", d)] | None => [] end))].

(** [createMCPSuccessResponse(id, result)] *)
Definition success_response (id : JSON) (result : JSON) : JSON :=
  JObj [(js "jsonrpc", JStr (js "2.0")); (js "id", id); (js "result", result)].

(** [request.id || null] *)
Definition or_null (x : option JSON) : JSON :=
  match x with
  | Some v => if falsy v then JNull else v
  | None => JNull
  end.

(** [serverCapabilities] *)
Definition serverCapabilities : JSON :=
  JObj [(js "tools", JObj [(js "listChanged", JBool true)]);
        (js "resources", JObj [(js "subscribe", JBool true); (js "listChanged", JBool true)]);
        (js "prompts", JObj [(js "listChanged", JBool true)]);
        (js "logging", JObj [])].

(** [serverInfo] *)
Definition serverInfo : JSON :=
  JObj [(js "name", JStr (js "mcp-as-a-service")); (js "title", JStr (js "MCP as a Service"));
        (js "version", JStr (js "0.1.0"))].

Definition instructions : list Z :=
  js "This MCP server allows you to run any NPM or Python MCP server remotely via HTTP/SSE. " ++
  js "Use the package name format: " ++ [34] ++ js "package-name" ++ [34] ++ js " for NPM or " ++
  [34] ++ js "python-package" ++ [34] ++ js " for Python packages. " ++
  js "Parameters can be passed as URL query parameters and will be mapped to environment variables.".

(** The [MCPInitializeResult] of [handleInitialize]. *)
Definition initializeResult : JSON :=
  JObj [(js "protocolVersion", JStr MCP_PROTOCOL_VERSION); (js "capabilities", serverCapabilities);
        (js "serverInfo", serverInfo); (js "instructions", JStr instructions)].

(** The result of [handleListTools]. *)
Definition toolsResult : JSON :=
  JObj [(js "tools", JArr [
    JObj [(js "name", JStr (js "start_mcp_server"));
          (js "description", JStr (js "Start a new MCP server instance from NPM or PyPI package"));
          (js "inputSchema", JObj [
             (js "type", JStr (js "object"));
             (js "properties", JObj [
                (js "packageName", JObj [(js "type", JStr (js "string"));
                   (js "description", JStr (js "NPM or PyPI package name containing MCP server"))]);
                (js "packageType", JObj [(js "type", JStr (js "string"));
                   (js "enum", JArr [JStr (js "npm"); JStr (js "python")]);
                   (js "description", JStr (js "Type of package (npm or python)"))]);
                (js "parameters", JObj [(js "type", JStr (js "object"));
                   (js "description", JStr (js "Environment variables/parameters for the MCP server"));
                   (js "additionalProperties", JObj [(js "type", JStr (js "string"))])])]);
             (js "required", JArr [JStr (js "packageName")])])]])].

(** The result of [handleListResources]. *)
Definition resourcesResult : JSON :=
  JObj [(js "resources", JArr [
    JObj [(js "uri", JStr (js "mcp-as-a-service://servers/status"));
          (js "name", JStr (js "Active MCP Servers Status"));
          (js "description", JStr (js "Current status of all active MCP server instances"));
          (js "mimeType", JStr (js "application/json"))]])].

(** The result of [handleListPrompts]. *)
Definition promptsResult : JSON :=
  JObj [(js "prompts", JArr [
    JObj [(js "name", JStr (js "server_setup_help"));
          (js "description", JStr (js "Get help setting up an MCP server with proper parameters"));
          (js "arguments", JArr [
             JObj [(js "name", JStr (js "packageName"));
                   (js "description", JStr (js "The MCP server package name"));
                   (js "required", JBool true)]])]])].

(** The four list methods and their results. *)
Definition list_result (m : list Z) : option JSON :=
  if list_eq_dec Z.eq_dec m (js "capabilities/list") then
    Some (JObj [(js "capabilities", serverCapabilities)])
  else if list_eq_dec Z.eq_dec m (js "tools/list") then Some toolsResult
  else if list_eq_dec Z.eq_dec m (js "resources/list") then Some resourcesResult
  else if list_eq_dec Z.eq_dec m (js "prompts/list") then Some promptsResult
  else None.

(** What a handler returns: the HTTP status and the JSON body, [None] for
    the empty body of the 204 reply. *)
Inductive Response := Resp (status : Z) (body : option JSON).

(** Where a [TypeError] is thrown: destructuring [request.params],
    reading [clientInfo.name], or converting an object to a primitive. *)
Inductive Site := ParamsDestructure | ClientInfoRead | ToPrimitive.

Section Handler.
(** [Number.prototype.toString] of a parsed number. *)
Variable number_text : Z -> list Z.
(** [String(error)] of the [TypeError] thrown at a site, for a value. *)
Variable type_error_text : Site -> option JSON -> list Z.

(** [String(v)] in a template literal; [None] when it throws: an object
    from [JSON.parse] with an own [toString] member has no callable
    [toString] and its [valueOf] returns an object. *)
Fixpoint to_str (v : JSON) : option (list Z) :=
  match v with
  | JNull => Some (js "null")
  | JBool b => Some (if b then js "true" else js "false")
  | JNum n => Some (number_text n)
  | JStr s => Some s
  | JArr items =>
    (fix join_items (l : list JSON) : option (list Z) :=
       match l with
       | [] => Some []
       | x :: l' =>
         match (match x with JNull => Some [] | _ => to_str x end), join_items l' with
         | Some a, Some b => Some (match l' with [] => a | _ => a ++ [44] ++ b end)
         | _, _ => None
         end
       end) items
  | JObj members =>
    if existsb (fun m => if list_eq_dec Z.eq_dec (fst m) (js "toString") then true else false) members
    then None else Some (js "[object Object]")
  end.

(** [`${x}`] for a property read, [None] being [undefined]. *)
Definition template (x : option JSON) : option (list Z) :=
  match x with None => Some (js "undefined") | Some v => to_str v end.

(** [handleInitialize]; its [catch] answers 500. *)
Definition handleInitialize (st : HState) (request : JSON) : Response * HState :=
  let id := nullish_null (prop request (js "id")) in
  let failed st' e :=
    (Resp 500 (Some (error_response id INTERNAL_ERROR (js "Initialization failed") (Some (JStr e)))), st') in
  match prop request (js "params") with
  | None => failed st (type_error_text ParamsDestructure None)
  | Some JNull => failed st (type_error_text ParamsDestructure (Some JNull))
  | Some params =>
    let pv := prop params (js "protocolVersion") in
    let capabilities := prop params (js "capabilities") in
    let clientInfo := prop params (js "clientInfo") in
    match pv with
    | Some (JStr v) =>
      if list_eq_dec Z.eq_dec v MCP_PROTOCOL_VERSION then
        let st' := mkH (isInitialized st) (store capabilities) (store pv) in
        match clientInfo with
        | None => failed st' (type_error_text ClientInfoRead None)
        | Some JNull => failed st' (type_error_text ClientInfoRead (Some JNull))
        | Some ci =>
          match template (prop ci (js "name")), template (prop ci (js "version")) with
          | Some _, Some _ => (Resp 200 (Some (success_response id initializeResult)), st')
          | _, _ => failed st' (type_error_text ToPrimitive (Some ci))
          end
        end
      else
        (Resp 400 (Some (error_response id UNSUPPORTED_PROTOCOL_VERSION
                           (js "Unsupported protocol version")
                           (Some (JObj [(js "supported", JArr [JStr MCP_PROTOCOL_VERSION]);
                                        (js "requested", JStr v)])))), st)
    | _ =>
      (Resp 400 (Some (error_response id UNSUPPORTED_PROTOCOL_VERSION
                         (js "Unsupported protocol version")
                         (Some (JObj ([(js "supported", JArr [JStr MCP_PROTOCOL_VERSION])] ++
                                      match pv with Some x => [(js "requested", x)] | None => [] end))))),
       st)
    end
  end.

(** [handleMCPRequest] with its routing: the checks of
    [MCPHandler.handleMCPRequest], the [logger.info] template of
    [request.method] (a throw there is caught as a JSON error), then the
    [switch] on [request.method]. *)
Definition handle (st : HState) (body : option JSON) : Response * HState :=
  match handleMCPRequest body with
  | JsonReply status reply => (Resp status (Some reply), st)
  | Routed method request =>
    match template method with
    | None => (Resp 400 (Some (invalidParamsResponse JNull (js "Invalid JSON format"))), st)
    | Some method_text =>
      let not_found :=
        (Resp 404 (Some (error_response (or_null (prop request (js "id"))) METHOD_NOT_FOUND
                           (js "Method not found: " ++ method_text) None)), st) in
      match method with
      | Some (JStr m) =>
        if list_eq_dec Z.eq_dec m (js "initialize") then handleInitialize st request
        else if list_eq_dec Z.eq_dec m (js "notifications/initialized") then
          (Resp 204 None, mkH true (clientCapabilities st) (protocolVersion st))
        else
          match list_result m with
          | Some result =>
            let id := or_null (prop request (js "id")) in
            if isInitialized st then (Resp 200 (Some (success_response id result)), st)
            else (Resp 400 (Some (error_response id SERVER_NOT_READY
                                    (js "Server is not ready to accept requests") None)), st)
          | None => not_found
          end
      | _ => not_found
      end
    end
  end.

(** A session: the requests one handler serves, in order. *)
Definition run (st : HState) (bodies : list (option JSON)) : HState :=
  fold_left (fun st body => snd (handle st body)) bodies st.

End Handler.

(** [keyof MCPClientCapabilities] *)
Inductive Capability := roots | sampling | elicitation.

Definition capability_name (c : Capability) : list Z :=
  match c with
  | roots => js "roots"
  | sampling => js "sampling"
  | elicitation => js "elicitation"
  end.

(** [hasClientCapability]; [None] when [capability in x] throws, [x] not
    an object.  No array index, [length] or inherited property has one of
    the three names. *)
Definition hasClientCapability (st : HState) (capability : Capability) : option bool :=
  match clientCapabilities st with
  | Null => Some false
  | Undefined => None
  | Value (JObj members) =>
    Some (existsb (fun m => if list_eq_dec Z.eq_dec (fst m) (capability_name capability)
                            then true else false) members)
  | Value (JArr _) => Some false
  | Value _ => None
  end.

(** A request body that reaches [handleInitialized]. *)
Definition initialized_notification (body : option JSON) : bool :=
  match handleMCPRequest body with
  | Routed (Some (JStr m)) _ =>
    if list_eq_dec Z.eq_dec m (js "notifications/initialized") then true else false
  | _ => false
  end.

(** *** Lemmas *)

Lemma handleInitialize_flag : forall nt te st request,
  isInitialized (snd (handleInitialize nt te st request)) = isInitialized st.
Proof.
  intros nt te st request. unfold handleInitialize.
  destruct (prop request (js "params")) as [[| | | | |]|]; try reflexivity;
    match goal with
    | |- context [prop ?p (js "protocolVersion")] =>
      destruct (prop p (js "protocolVersion")) as [[| | |v| |]|]; try reflexivity
    end;
    destruct (list_eq_dec Z.eq_dec v MCP_PROTOCOL_VERSION); try reflexivity;
    match goal with
    | |- context [prop ?p (js "clientInfo")] =>
      destruct (prop p (js "clientInfo")) as [[| | | | |]|]; try reflexivity
    end;
    repeat match goal with
    | |- context [match template ?a ?b with _ => _ end] => destruct (template a b)
    end; reflexivity.
Qed.

Lemma handle_flag : forall nt te st body,
  isInitialized (snd (handle nt te st body)) = isInitialized st || initialized_notification body.
Proof.
  intros nt te st body. unfold handle, initialized_notification.
  destruct (handleMCPRequest body) as [status reply|method request]; [rewrite orb_false_r; reflexivity|].
  destruct (template nt method) as [method_text|] eqn:Et.
  2: { destruct method as [[| | |m| |]|]; try (rewrite orb_false_r; reflexivity).
       discriminate. }
  destruct method as [[| | |m| |]|]; try (rewrite orb_false_r; reflexivity).
  destruct (list_eq_dec Z.eq_dec m (js "initialize")) as [->|Hi].
  - rewrite handleInitialize_flag. rewrite orb_false_r. reflexivity.
  - destruct (list_eq_dec Z.eq_dec m (js "notifications/initialized")).
    + rewrite orb_true_r. reflexivity.
    + rewrite orb_false_r. destruct (list_result m); [|reflexivity].
      destruct (isInitialized st) eqn:Ei; cbn [snd]; auto.
Qed.

(** *** Properties *)

(** Over a session, the list methods become available exactly once a
    [notifications/initialized] request has been served: the handler is
    initialized after a run of requests iff it was before or one of them
    is that notification.  An [initialize] request, accepted or not, never
    makes it ready, and the notification needs no [initialize] before it. *)
Theorem session_ready : forall number_text type_error_text st bodies,
  isInitialized (run number_text type_error_text st bodies) =
  isInitialized st || existsb initialized_notification bodies.
Proof.
  intros nt te st bodies. unfold run. revert st.
  induction bodies as [|body bodies IH]; intros st; cbn [fold_left existsb].
  - rewrite orb_false_r. reflexivity.
  - rewrite IH, handle_flag, orb_assoc. reflexivity.
Qed.

(** A [capabilities/list], [tools/list], [resources/list] or
    [prompts/list] request gets its result with status 200 on an
    initialized handler and the [SERVER_NOT_READY] (-32006) error with
    status 400 before; either way the reply carries [request.id || null],
    so an id of [0], [false] or [""] comes back as [null], and the handler
    state does not change. *)
Theorem list_methods_gate : forall number_text type_error_text st body m request result,
  handleMCPRequest body = Routed (Some (JStr m)) request ->
  list_result m = Some result ->
  handle number_text type_error_text st body =
    (if isInitialized st
     then Resp 200 (Some (success_response (or_null (prop request (js "id"))) result))
     else Resp 400 (Some (error_response (or_null (prop request (js "id"))) SERVER_NOT_READY
                            (js "Server is not ready to accept requests") None)), st) /\
  (forall v, prop request (js "id") = Some v ->
     or_null (prop request (js "id")) = if falsy v then JNull else v).
Proof.
  intros nt te st body m request result Hr Hl. split.
  - unfold handle. rewrite Hr. cbn [template to_str].
    destruct (list_eq_dec Z.eq_dec m (js "initialize")) as [->|_]; [discriminate|].
    destruct (list_eq_dec Z.eq_dec m (js "notifications/initialized")) as [->|_]; [discriminate|].
    rewrite Hl. destruct (isInitialized st); reflexivity.
  - intros v ->. reflexivity.
Qed.

(** An [initialize] request with a [params] value never changes whether
    the handler is initialized.  With a [protocolVersion] other than
    [2024-11-05] it is refused with status 400 and
    [UNSUPPORTED_PROTOCOL_VERSION] (-32000), and the handler is unchanged.
    With the right version the handler records the version and the
    [capabilities] before reading [clientInfo]: a request without
    [clientInfo] gets status 500 with [INTERNAL_ERROR] (-32603) and still
    leaves them recorded; and a request without [capabilities] makes every
    later [hasClientCapability] throw. *)
Theorem initialize_outcomes : forall number_text type_error_text st body request params,
  handleMCPRequest body = Routed (Some (JStr (js "initialize"))) request ->
  prop request (js "params") = Some params -> params <> JNull ->
  let r := handle number_text type_error_text st body in
  let id := nullish_null (prop request (js "id")) in
  isInitialized (snd r) = isInitialized st /\
  (prop params (js "protocolVersion") <> Some (JStr MCP_PROTOCOL_VERSION) ->
     snd r = st /\
     exists data, fst r = Resp 400 (Some (error_response id UNSUPPORTED_PROTOCOL_VERSION
                                            (js "Unsupported protocol version") (Some data)))) /\
  (prop params (js "protocolVersion") = Some (JStr MCP_PROTOCOL_VERSION) ->
     protocolVersion (snd r) = Value (JStr MCP_PROTOCOL_VERSION) /\
     clientCapabilities (snd r) = store (prop params (js "capabilities")) /\
     (prop params (js "clientInfo") = None ->
        exists e, fst r = Resp 500 (Some (error_response id INTERNAL_ERROR
                                             (js "Initialization failed") (Some (JStr e))))) /\
     (prop params (js "capabilities") = None -> forall c, hasClientCapability (snd r) c = None)).
Proof.
  intros nt te st body request params Hr Hp Hn r id.
  assert (Hh : r = handleInitialize nt te st request).
  { unfold r, handle. rewrite Hr. cbn [template to_str].
    destruct (list_eq_dec Z.eq_dec (js "initialize") (js "initialize")); [reflexivity|congruence]. }
  rewrite Hh. split; [apply handleInitialize_flag|].
  unfold handleInitialize. rewrite Hp. fold id.
  destruct params as [| | | | |]; [congruence| | | | |];
  (split;
   [ intros Hv;
     destruct (prop _ (js "protocolVersion")) as [[| | |v| |]|] eqn:E;
     try (split; [reflexivity|eexists; reflexivity]);
     destruct (list_eq_dec Z.eq_dec v MCP_PROTOCOL_VERSION) as [->|];
     [congruence|split; [reflexivity|eexists; reflexivity]]
   | intros Hv; rewrite Hv;
     destruct (list_eq_dec Z.eq_dec MCP_PROTOCOL_VERSION MCP_PROTOCOL_VERSION) as [_|]; [|congruence];
     split; [|split; [|split]];
     [ destruct (prop _ (js "clientInfo")) as [[| | | | |]|];
       try reflexivity;
       repeat match goal with
       | |- context [match template ?a ?b with _ => _ end] => destruct (template a b)
       end; reflexivity
     | destruct (prop _ (js "clientInfo")) as [[| | | | |]|];
       try reflexivity;
       repeat match goal with
       | |- context [match template ?a ?b with _ => _ end] => destruct (template a b)
       end; reflexivity
     | intros Hc; rewrite Hc; eexists; reflexivity
     | intros Hc c; rewrite Hc;
       destruct (prop _ (js "clientInfo")) as [[| | | | |]|];
       try reflexivity;
       repeat match goal with
       | |- context [match template ?a ?b with _ => _ end] => destruct (template a b)
       end; reflexivity ] ]).
Qed.

(** A request whose [method] is an object with its own [toString] member
    makes the [logger.info] template of [handleMCPRequest] throw; the
    [catch] for malformed bodies answers it: status 400, id [null],
    [INVALID_PARAMS] and message [Invalid JSON format], and the handler is
    unchanged. *)
Theorem method_template_throw : forall number_text type_error_text st body members request,
  handleMCPRequest body = Routed (Some (JObj members)) request ->
  In (js "toString") (map fst members) ->
  handle number_text type_error_text st body =
    (Resp 400 (Some (invalidParamsResponse JNull (js "Invalid JSON format"))), st).
Proof.
  intros nt te st body members request Hr Hin. unfold handle. rewrite Hr. cbn [template to_str].
  replace (existsb _ members) with true; [reflexivity|].
  symmetry. apply existsb_exists. apply in_map_iff in Hin as (m & Hm & Hin).
  exists m. split; [exact Hin|]. rewrite Hm. destruct (list_eq_dec Z.eq_dec _ _); congruence.
Qed.

End HandlerOps.

(** ** Concrete inputs for the operations of the validators, the proxy,
    the process manager and the MCP handler *)

Module ValidationOpsExamples.
Import MCPHandler ValidationOps.

Lemma validatePackageName_unscoped_witness :
  validatePackageName (JStr (js "my-pkg")) =
    if name_part (js "my-pkg") then
      if contains (js "..") (js "my-pkg") then inl path_traversal else inr (js "my-pkg")
    else inl invalid_format.
Proof.
  apply validatePackageName_unscoped.
  - intros H. repeat destruct H as [H|H]; vm_compute in H; congruence.
  - unfold maxPackageNameLength. cbn. lia.
Defined.

Lemma validatePackageName_accepted_witness :
  JStr (js "@scope/my-pkg@1.0") = JStr (js "@scope/my-pkg@1.0") /\
  (1 <= length (js "@scope/my-pkg@1.0") <= maxPackageNameLength)%nat /\
  existsb Validation.is_dangerous (js "@scope/my-pkg@1.0") = false /\
  ~ In 92 (js "@scope/my-pkg@1.0") /\
  contains (js "..") (js "@scope/my-pkg@1.0") = false /\
  contains (js "/./") (js "@scope/my-pkg@1.0") = false.
Proof.
  apply validatePackageName_accepted. vm_compute. reflexivity.
Defined.

End ValidationOpsExamples.

Module ProxyOpsExamples.
Import MCPProxy ProxyOps FramerExamples.

Definition one_server : ProxyState :=
  mkState [(js "s", mkServer 1 false (js "pkg") 0 0 [])] 2 [] [].

Lemma send_delivery_witness :
  Framer.feed_all Z num_deserialize [] [firstn 10 two_values; skipn 10 two_values] =
    (map fst [(7, 10); (42, 20)], []).
Proof.
  apply (send_delivery Z num_serialize num_deserialize one_server (js "s") [(7, 10); (42, 20)]
           two_values (mkState [(js "s", mkServer 1 false (js "pkg") 0 20 [])] 2 [] [])).
  - vm_compute. reflexivity.
  - repeat constructor.
  - repeat constructor.
  - vm_compute. reflexivity.
Defined.


Definition idle_pkg : MCPServerProcess := mkServer 1 false (js "pkg") 0 0 [js "c1"].

Lemma removeClient_then_reap_witness :
  let st' := cleanupInactiveServers 2000000
               (removeClient (mkState [(js "s", idle_pkg)] 2 [] []) (js "s") (js "c1")) in
  map_get (js "s") (servers st') = None /\ In (pid idle_pkg) (kills st').
Proof.
  apply removeClient_then_reap.
  - repeat constructor. intros [].
  - reflexivity.
  - reflexivity.
  - vm_compute. reflexivity.
Defined.

Definition stale_pkg : MCPServerProcess := mkServer 1 false (js "pkg") 0 0 [].

Definition stale_registry : ProxyState :=
  mkState [(computeServerId (js "pkg") [], stale_pkg)] 2 [] [].

Lemma stale_exit_orphans_successor_witness :
  let sid := computeServerId (js "pkg") [] in
  let st1 := cleanupInactiveServers 2000000 stale_registry in
  let B := fst (getOrCreateServer st1 (js "pkg") Npm [] 2000001) in
  let st2 := snd (getOrCreateServer st1 (js "pkg") Npm [] 2000001) in
  let st3 := child_exit sid st2 in
  In (pid stale_pkg) (kills st1) /\
  spawned st2 = spawned st1 ++ [buildCommand (js "pkg") Npm] /\
  map_get sid (servers st3) = None /\
  ~ In (pid B) (kills (shutdown st3)).
Proof.
  apply stale_exit_orphans_successor.
  - repeat constructor. intros [].
  - vm_compute. reflexivity.
  - vm_compute. reflexivity.
  - repeat constructor.
  - constructor.
Defined.

End ProxyOpsExamples.

Module ProxyEnvExamples.
Import MCPHandler ValidationOps ProxyEnv.

Lemma env_param_overrides_witness :
  (forall (params : MCPProxy.Params) v,
     obj_get (js "NODE_OPTIONS")
       (spawnEnv (fun _ => []) [(js "NODE_OPTIONS", js "x")] (params ++ [(js "NODE_OPTIONS", v)]))
     = Some (sanitizeEnvValue (JStr v))) /\
  (forall (params : list (list Z * JSON)) value,
     obj_get (js "NODE_OPTIONS")
       (mapParametersToEnv (fun _ => []) [(js "NODE_OPTIONS", js "x")]
          (params ++ [(js "NODE_OPTIONS", value)]))
     = Some (sanitizeEnvValue value)).
Proof.
  apply env_param_overrides. vm_compute. reflexivity.
Defined.

End ProxyEnvExamples.

Module ProcessManagerExamples.
Import MCPHandler ProxyEnv ProcessManager.

Definition two_processes : PMState :=
  mkPM [(js "a", mkInfo 1 (js "a") (js "stdio") 0 0);
        (js "b", mkInfo 2 (js "b") (js "stdio") 0 1500000)] 3 [] [].

Lemma cleanupProcesses_spec_witness :
  mcpProcesses (cleanupProcesses 2000000 two_processes) =
    filter (fun e => negb (2000000 - lastAccess (snd e) >? 30 * 60 * 1000))
           (mcpProcesses two_processes) /\
  kills (cleanupProcesses 2000000 two_processes) =
    kills two_processes ++ map (fun e => process (snd e))
      (filter (fun e => 2000000 - lastAccess (snd e) >? 30 * 60 * 1000) (mcpProcesses two_processes)) /\
  spawned (cleanupProcesses 2000000 two_processes) = spawned two_processes.
Proof.
  apply cleanupProcesses_spec. repeat constructor; cbn; intuition discriminate.
Defined.

Definition start_example :=
  startMCPServer (fun _ => []) (fun s => Some s) [] (fun _ => true) (mkPM [] 1 [] [])
    (js "pkg") (js "stdio") (js "npm") [] 5 5 5.

Definition started : PMState :=
  match start_example with inr (_, st) => st | inl _ => mkPM [] 1 [] [] end.

Lemma same_ms_start_orphans_witness :
  exists st2,
    startMCPServer (fun _ => []) (fun s => Some s) [] (fun _ => true)
      started (js "pkg") (js "stdio") (js "npm") [] 5 6 6 = inr (js "pkg_stdio_5", st2) /\
    map sp_pid (spawned st2) = map sp_pid (spawned (mkPM [] 1 [] [])) ++ [1; 1 + 1] /\
    mget (js "pkg_stdio_5") (mcpProcesses st2) = Some (mkInfo (1 + 1) (js "pkg") (js "stdio") 6 6) /\
    ~ In 1 (kills (killAllProcesses st2)) /\
    mget (js "pkg_stdio_5") (mcpProcesses (process_exit 1 st2)) = None /\
    ~ In (1 + 1) (kills (killAllProcesses (process_exit 1 st2))).
Proof.
  apply (same_ms_start_orphans (fun _ => []) (fun s => Some s) [] (fun _ => true) (mkPM [] 1 [] [])
           (js "pkg") (js "stdio") (js "npm") [] 5 5 5 6 6 (js "pkg_stdio_5") started).
  - cbn. lia.
  - constructor.
  - constructor.
  - constructor.
  - constructor.
  - vm_compute. reflexivity.
Defined.

Definition one_process : PMState :=
  mkPM [(js "a", mkInfo 1 (js "pkg") (js "stdio") 0 0)] 2 [] [].

Lemma find_survives_cleanup_witness :
  exists info,
    mget (js "a") (mcpProcesses
      (cleanupProcesses 1800100 (snd (findExistingProcess one_process (js "pkg") (js "stdio") 100))))
      = Some info /\
    ProcessManager.packageName info = js "pkg" /\ ProcessManager.protocol info = js "stdio" /\
    lastAccess info = 100.
Proof.
  apply (find_survives_cleanup one_process (js "pkg") (js "stdio") 100 1800100 (js "a")).
  - repeat constructor. intros [].
  - vm_compute. reflexivity.
  - lia.
Defined.



End ProcessManagerExamples.

Module HandlerOpsExamples.
Import MCPHandler ValidationOps HandlerOps.

Definition tools_list_request : JSON :=
  JObj [(js "jsonrpc", JStr (js "2.0")); (js "id", JNum 0); (js "method", JStr (js "tools/list"))].

Lemma list_methods_gate_witness :
  handle (fun _ => []) (fun _ _ => []) initial (Some tools_list_request) =
    (if isInitialized initial
     then Resp 200 (Some (success_response (or_null (prop tools_list_request (js "id"))) toolsResult))
     else Resp 400 (Some (error_response (or_null (prop tools_list_request (js "id"))) SERVER_NOT_READY
                            (js "Server is not ready to accept requests") None)), initial) /\
  (forall v, prop tools_list_request (js "id") = Some v ->
     or_null (prop tools_list_request (js "id")) = if falsy v then JNull else v).
Proof.
  apply (list_methods_gate _ _ initial (Some tools_list_request) (js "tools/list")).
  - reflexivity.
  - reflexivity.
Defined.

Definition init_params : JSON := JObj [(js "protocolVersion", JStr (js "2024-11-05"))].

Definition init_request : JSON :=
  JObj [(js "jsonrpc", JStr (js "2.0")); (js "id", JNum 1); (js "method", JStr (js "initialize"));
        (js "params", init_params)].

Lemma initialize_outcomes_witness :
  let r := handle (fun _ => []) (fun _ _ => []) initial (Some init_request) in
  let id := nullish_null (prop init_request (js "id")) in
  isInitialized (snd r) = isInitialized initial /\
  (prop init_params (js "protocolVersion") <> Some (JStr MCP_PROTOCOL_VERSION) ->
     snd r = initial /\
     exists data, fst r = Resp 400 (Some (error_response id UNSUPPORTED_PROTOCOL_VERSION
                                            (js "Unsupported protocol version") (Some data)))) /\
  (prop init_params (js "protocolVersion") = Some (JStr MCP_PROTOCOL_VERSION) ->
     protocolVersion (snd r) = Value (JStr MCP_PROTOCOL_VERSION) /\
     clientCapabilities (snd r) = store (prop init_params (js "capabilities")) /\
     (prop init_params (js "clientInfo") = None ->
        exists e, fst r = Resp 500 (Some (error_response id INTERNAL_ERROR
                                             (js "Initialization failed") (Some (JStr e))))) /\
     (prop init_params (js "capabilities") = None -> forall c, hasClientCapability (snd r) c = None)).
Proof.
  apply (initialize_outcomes _ _ initial (Some init_request) init_request init_params).
  - reflexivity.
  - reflexivity.
  - discriminate.
Defined.

Definition object_method_request : JSON :=
  JObj [(js "jsonrpc", JStr (js "2.0")); (js "method", JObj [(js "toString", JNum 1)])].

Lemma method_template_throw_witness :
  handle (fun _ => []) (fun _ _ => []) initial (Some object_method_request) =
    (Resp 400 (Some (invalidParamsResponse JNull (js "Invalid JSON format"))), initial).
Proof.
  apply (method_template_throw _ _ initial (Some object_method_request) [(js "toString", JNum 1)]
           object_method_request).
  - reflexivity.
  - left. reflexivity.
Defined.

End HandlerOpsExamples.
